(** * cmd-forwarder-sriov: the bootstrap orchestrator of [main.go]

    The program is a straight-line start-up sequence over external
    collaborators, one background goroutine and two deferred clean-ups.
    It is embedded as a tree of operations ([Prog]) that reads like the Go
    text, and executed by a small machine whose state holds the log, the
    goroutines, the error channel of the transport server, the cancellation
    token, the hardware-configuration objects and the temporary directories.
    Everything outside [main.go] is answered by a [World]; the interleaving
    of goroutines, signals and the transport task is a schedule. *)

From Stdlib Require Import ZArith String List Lia.
From stdpp Require Import base option list strings gmap.

Local Open Scope string_scope.
Local Open Scope list_scope.
Local Open Scope Z_scope.

(** ** Go values *)

(** A non-nil Go [error]; a nilable error is [option error]. *)
Definition error := string.

(** A Go [(value, error)] pair of results. *)
Inductive result (A : Type) : Type :=
| Ok (a : A)
| Failed (err : error).
Arguments Ok {A} a.
Arguments Failed {A} err.

(** [time.Duration] is an int64 count of nanoseconds. *)
Definition Duration := Z.
Definition Nanosecond : Duration := 1.
Definition Second : Duration := 1000000000 * Nanosecond.
Definition Minute : Duration := 60 * Second.
Definition Hour : Duration := 60 * Minute.

Definition minDuration : Duration := - 2 ^ 63.
Definition maxDuration : Duration := 2 ^ 63 - 1.

(** [time.Time] as nanoseconds since the Unix epoch. *)
Definition Time := Z.

(** [Time.Add]. *)
Definition Time_Add (t : Time) (d : Duration) : Time := t + d.

(** [Time.Sub] saturates at the ends of the Duration range. *)
Definition Time_Sub (t u : Time) : Duration :=
  if t - u <? minDuration then minDuration
  else if maxDuration <? t - u then maxDuration
  else t - u.

Module url.
(** [net/url.URL]; the fields [main.go] leaves at their zero value are
    kept so that a literal shows them empty. *)
Record URL : Type := {
  Scheme : string;
  Opaque : string;
  Host : string;
  Path : string;
  RawQuery : string;
  Fragment : string
}.
End url.

(** Objects owned by collaborators are references the orchestrator only
    passes on. *)
Definition Closer := nat.
Definition TokenPool := nat.
Definition PCIPool := nat.
Definition ResourcePool := nat.
Definition Manager := nat.
Definition X509Source := nat.
Definition Endpoint := nat.
Definition Server := nat.
Definition ClientConn := nat.
Definition RegistryClient := nat.

(** [*sriovconfig.Config]: an index into the store of configuration objects. *)
Definition ConfigPtr := nat.

(** [<-chan error]: an index into the channels of the machine. *)
Definition ErrChan := nat.

(** [x509svid.SVID], of which only the ID is logged. *)
Record SVID : Type := { ID : string }.

(** [timestamp.Timestamp] of the protobuf library. *)
Record Timestamp : Type := { Seconds : Z; Nanos : Z }.

Module registryapi.
(** The fields of [registryapi.NetworkServiceEndpoint] that [main] sets. *)
Record NetworkServiceEndpoint : Type := {
  Name : string;
  NetworkServiceNames : list string;
  Url : string;
  ExpirationTime : Timestamp
}.
End registryapi.

(** [Config] - configuration for cmd-forwarder-sriov. *)
Record Config : Type := {
  Name : string;
  NSName : string;
  ConnectTo : url.URL;
  MaxTokenLifetime : Duration;
  ResourcePollTimeout : Duration;
  DevicePluginPath : string;
  PodResourcesPath : string;
  SRIOVConfigFile : string;
  PCIDevicesPath : string;
  PCIDriversPath : string;
  CgroupPath : string;
  VFIOPath : string
}.

(** The zero value of [url.URL] and of [Config] ([&Config{}]). *)
Definition zero_URL : url.URL :=
  {| url.Scheme := ""; url.Opaque := ""; url.Host := ""; url.Path := "";
     url.RawQuery := ""; url.Fragment := "" |}.

Definition zero_Config : Config :=
  {| Name := ""; NSName := ""; ConnectTo := zero_URL;
     MaxTokenLifetime := 0; ResourcePollTimeout := 0;
     DevicePluginPath := ""; PodResourcesPath := ""; SRIOVConfigFile := "";
     PCIDevicesPath := ""; PCIDriversPath := ""; CgroupPath := "";
     VFIOPath := "" |}.

(** ** The struct tags of [Config] *)

Inductive Field : Type :=
| FName | FNSName | FConnectTo | FMaxTokenLifetime | FResourcePollTimeout
| FDevicePluginPath | FPodResourcesPath | FSRIOVConfigFile | FPCIDevicesPath
| FPCIDriversPath | FCgroupPath | FVFIOPath.

(** The fields in declaration order, as reflection enumerates them. *)
Definition Config_fields : list Field :=
  [FName; FNSName; FConnectTo; FMaxTokenLifetime; FResourcePollTimeout;
   FDevicePluginPath; FPodResourcesPath; FSRIOVConfigFile; FPCIDevicesPath;
   FPCIDriversPath; FCgroupPath; FVFIOPath].

Definition field_name (f : Field) : string :=
  match f with
  | FName => "Name"
  | FNSName => "NSName"
  | FConnectTo => "ConnectTo"
  | FMaxTokenLifetime => "MaxTokenLifetime"
  | FResourcePollTimeout => "ResourcePollTimeout"
  | FDevicePluginPath => "DevicePluginPath"
  | FPodResourcesPath => "PodResourcesPath"
  | FSRIOVConfigFile => "SRIOVConfigFile"
  | FPCIDevicesPath => "PCIDevicesPath"
  | FPCIDriversPath => "PCIDriversPath"
  | FCgroupPath => "CgroupPath"
  | FVFIOPath => "VFIOPath"
  end.

(** The [default:"..."] tag. *)
Definition tag_default (f : Field) : string :=
  match f with
  | FName => "interpose-nse#sriov-forwarder"
  | FNSName => "sriovns"
  | FConnectTo => "unix:///connect.to.socket"
  | FMaxTokenLifetime => "24h"
  | FResourcePollTimeout => "30s"
  | FDevicePluginPath => "/var/lib/kubelet/device-plugins/"
  | FPodResourcesPath => "/var/lib/kubelet/pod-resources/"
  | FSRIOVConfigFile => "pci.config"
  | FPCIDevicesPath => "/sys/bus/pci/devices"
  | FPCIDriversPath => "/sys/bus/pci/drivers"
  | FCgroupPath => "/host/sys/fs/cgroup/devices"
  | FVFIOPath => "/host/dev/vfio"
  end.

(** The [split_words:"true"] tag. *)
Definition tag_split_words (f : Field) : bool :=
  match f with
  | FName | FNSName => false
  | _ => true
  end.

(** No field of [Config] carries a [required] tag. *)
Definition tag_required (f : Field) : bool := false.

(** The Go type of a field decides how its text is decoded. *)
Inductive Kind : Type := KString | KURL | KDuration.

Definition field_kind (f : Field) : Kind :=
  match f with
  | FConnectTo => KURL
  | FMaxTokenLifetime | FResourcePollTimeout => KDuration
  | _ => KString
  end.

(** ** Operations of the orchestrator *)

(** What a log call is given besides its format. *)
Inductive LogArg : Type :=
| AErr (err : option error)
| AString (s : string)
| ADuration (d : Duration)
| AConfig (c : Config).

Inductive Message : Type :=
| Msg (args : list LogArg)
| Msgf (format : string) (args : list LogArg).

Inductive Level : Type := InfoLevel | ErrorLevel.

(** Every call [main.go] makes into a package it imports, and the channel
    and context primitives it uses, indexed by what the call returns.
    Credentials and dial options derived from the X.509 source are carried
    by the source argument. *)
Inductive op : Type -> Type :=
| jaeger_InitJaeger (service : string) : op Closer
| io_Close (c : Closer) : op (option error)
| debug_Self : op (option error)
| time_Now : op Time
| time_Since (t : Time) : op Duration
| log_Entry (lvl : Level) (m : Message) : op unit
| envconfig_Usage (prefix : string) (spec : Config) : op (option error)
| envconfig_Process (prefix : string) (spec : Config)
    : op (Config * option error)
| sriovconfig_ReadConfig (file : string) : op (result ConfigPtr)
| pci_UpdateConfig (pciDevicesPath pciDriversPath : string) (cfg : ConfigPtr)
    : op (option error)
| token_NewPool (cfg : ConfigPtr) : op TokenPool
| pci_NewPool (pciDevicesPath pciDriversPath vfioPath : string)
    (cfg : ConfigPtr) : op (result PCIPool)
| resource_NewPool (tokenPool : TokenPool) (cfg : ConfigPtr) : op ResourcePool
| k8s_NewManager (devicePluginPath podResourcesPath : string) : op Manager
| deviceplugin_StartServers (tokenPool : TokenPool)
    (resourcePollTimeout : Duration) (manager : Manager) : op (option error)
| workloadapi_NewX509Source : op (result X509Source)
| GetX509SVID (source : X509Source) : op (result SVID)
| sriovns_NewServer (name : string) (source : X509Source)
    (maxTokenLifetime : Duration) (pciPool : PCIPool)
    (resourcePool : ResourcePool) (cfg : ConfigPtr)
    (vfioPath cgroupPath : string) (connectTo : url.URL) : op Endpoint
| ioutil_TempDir (dir pattern : string) : op (result string)
| os_RemoveAll (path : string) : op (option error)
| path_Join (a b : string) : op string
| grpc_NewServer (source : X509Source) : op Server
| Endpoint_Register (endpoint : Endpoint) (server : Server) : op unit
| grpcutils_ListenAndServe (address : url.URL) (server : Server) : op ErrChan
| grpcutils_URLToTarget (u : url.URL) : op string
| grpc_DialContext (target : string) (source : X509Source)
    : op (result ClientConn)
| registrychain_NewNetworkServiceEndpointRegistryClient (cc : ClientConn)
    : op RegistryClient
| ptypes_TimestampProto (t : Time) : op (result Timestamp)
| registry_Register (client : RegistryClient)
    (nse : registryapi.NetworkServiceEndpoint) : op (option error)
(* select { case err := <-errCh: ... default: } *)
| select_recv_default (errCh : ErrChan) : op (option (option error))
(* err := <-errCh *)
| chan_recv (errCh : ErrChan) : op (option error)
(* cancel() of context.WithCancel *)
| ctx_cancel : op unit
(* <-ctx.Done() *)
| ctx_Done : op unit.

(** A Go function body without results: a tree of operations, each
    continued by what it returned.  [LogFatal] logs at fatal level and calls
    [os.Exit(1)]; nothing follows it. *)
Inductive Prog : Type :=
| Ret
| LogFatal (m : Message)
| Vis {R : Type} (o : op R) (k : R -> Prog)
| Go (body : Prog) (k : Prog)
| Defer (body : Prog) (k : Prog).

(** Statement sequencing inside one function body; also used to inline a
    call of a function that defers nothing. *)
Fixpoint seq (p q : Prog) : Prog :=
  match p with
  | Ret => q
  | LogFatal m => LogFatal m
  | Vis o k => Vis o (fun r => seq (k r) q)
  | Go body k => Go body (seq k q)
  | Defer body k => Defer body (seq k q)
  end.

Declare Scope go_scope.
Delimit Scope go_scope with go.
Bind Scope go_scope with Prog.

Notation "x <- o ;; k" := (Vis o (fun x => k))
  (at level 100, o at next level, k at level 200, right associativity,
   format "x  <-  o  ;;  '//' k") : go_scope.
Notation "'call' o ;; k" := (Vis o (fun _ => k))
  (at level 100, o at next level, k at level 200, right associativity,
   format "'call'  o  ;;  '//' k") : go_scope.
Notation "'go' body ;; k" := (Go body k)
  (at level 100, body at next level, k at level 200, right associativity)
  : go_scope.
Notation "'defer' body ;; k" := (Defer body k)
  (at level 100, body at next level, k at level 200, right associativity)
  : go_scope.
Notation "p ;;; q" := (seq p q)
  (at level 100, q at level 200, right associativity) : go_scope.
(* if err != nil { h } *)
Notation "'if_err' err 'then' h ;; k" :=
  (match err with Some _ => h | None => k end)
  (at level 100, err at next level, h at next level, k at level 200,
   right associativity) : go_scope.
(* x, err := r; if err != nil { h } *)
Notation "'let_ok' x := r 'else' err => h ;; k" :=
  (match r with Ok x => k | Failed err => h end)
  (at level 100, x name, err name, r at next level, h at next level,
   k at level 200, right associativity) : go_scope.

Definition Infof (format : string) (args : list LogArg) : op unit :=
  log_Entry InfoLevel (Msgf format args).
(* log.Entry(ctx).Error(err) *)
Definition Error (args : list LogArg) : op unit :=
  log_Entry ErrorLevel (Msg args).
Definition Fatal (args : list LogArg) : Prog := LogFatal (Msg args).
Definition Fatalf (format : string) (args : list LogArg) : Prog :=
  LogFatal (Msgf format args).

Local Open Scope go_scope.

(** ** [exitOnErr] *)

(** The function literal that [exitOnErr] starts as a goroutine. *)
Definition exitOnErr_func1 (errCh : ErrChan) : Prog :=
  err <- chan_recv errCh ;;
  call Error [AErr err] ;;
  call ctx_cancel ;;
  Ret.

Definition exitOnErr (errCh : ErrChan) : Prog :=
  (* If we already have an error, log it and exit *)
  pending <- select_recv_default errCh ;;
  match pending with
  | Some err => Fatal [AErr err]
  | None =>
    (* Otherwise wait for an error in the background to log and cancel *)
    go (exitOnErr_func1 errCh) ;;
    Ret
  end.

(** ** [main] *)

(** The context with signals and its [cancel] (lines 80-81) are the
    cancellation token of the machine state; the logrus formatter and level
    have no effect on control flow and are not represented. *)
Definition main : Prog :=
  (* Configure open tracing *)
  jaegerCloser <- jaeger_InitJaeger "cmd-forwarder-sriov" ;;
  defer (call io_Close jaegerCloser ;; Ret) ;;
  (* Debug self if necessary *)
  err <- debug_Self ;;
  (if_err err then (call Infof "%s" [AErr err] ;; Ret) ;; Ret) ;;;
  starttime <- time_Now ;;
  (* enumerating phases *)
  call Infof "there are 8 phases which will be executed followed by a success message:" [] ;;
  call Infof "the phases include:" [] ;;
  call Infof "1: get config from environment" [] ;;
  call Infof "2: get SR-IOV config from file" [] ;;
  call Infof "3: init pools" [] ;;
  call Infof "4: start device plugin server" [] ;;
  call Infof "5: retrieve spiffe svid" [] ;;
  call Infof "6: create sriovns network service endpoint" [] ;;
  call Infof "7: create grpc server and register sriovns" [] ;;
  call Infof "8: register xconnectns with the registry" [] ;;
  call Infof "a final success message with start time duration" [] ;;
  (* phase 1 *)
  since <- time_Since starttime ;;
  call Infof "executing phase 1: get config from environment (time since start: %s)" [ADuration since] ;;
  let config := zero_Config in
  err <- envconfig_Usage "nsm" config ;;
  if_err err then Fatal [AErr err] ;;
  processed <- envconfig_Process "nsm" config ;;
  let config := fst processed in
  let err := snd processed in
  if_err err then Fatalf "error processing config from env: %+v" [AErr err] ;;
  call Infof "Config: %#v" [AConfig config] ;;
  (* phase 2 *)
  since <- time_Since starttime ;;
  call Infof "executing phase 2: get SR-IOV config from file (time since start: %s)" [ADuration since] ;;
  read <- sriovconfig_ReadConfig (SRIOVConfigFile config) ;;
  let_ok sriovConfig := read
    else err => Fatalf "failed to get PCI resources config: %+v" [AErr (Some err)] ;;
  err <- pci_UpdateConfig (PCIDevicesPath config) (PCIDriversPath config) sriovConfig ;;
  if_err err then Fatalf "failed to update PCI resources config with VFs: %+v" [AErr err] ;;
  (* phase 3 *)
  since <- time_Since starttime ;;
  call Infof "executing phase 3: init pools (time since start: %s)" [ADuration since] ;;
  tokenPool <- token_NewPool sriovConfig ;;
  made <- pci_NewPool (PCIDevicesPath config) (PCIDriversPath config) (VFIOPath config) sriovConfig ;;
  let_ok pciPool := made
    else err => Fatalf "failed to init PCI pool: %+v" [AErr (Some err)] ;;
  resourcePool <- resource_NewPool tokenPool sriovConfig ;;
  (* phase 4 *)
  since <- time_Since starttime ;;
  call Infof "executing phase 4: start device plugin server (time since start: %s)" [ADuration since] ;;
  manager <- k8s_NewManager (DevicePluginPath config) (PodResourcesPath config) ;;
  err <- deviceplugin_StartServers tokenPool (ResourcePollTimeout config) manager ;;
  if_err err then Fatalf "failed to start a device plugin server: %+v" [AErr err] ;;
  (* phase 5 *)
  since <- time_Since starttime ;;
  call Infof "executing phase 5: retrieving svid, check spire agent logs if this is the last line you see (time since start: %s)" [ADuration since] ;;
  got <- workloadapi_NewX509Source ;;
  let_ok source := got
    else err => Fatalf "error getting x509 source: %+v" [AErr (Some err)] ;;
  got <- GetX509SVID source ;;
  let_ok svid := got
    else err => Fatalf "error getting x509 svid: %+v" [AErr (Some err)] ;;
  call Infof "SVID: %q" [AString (ID svid)] ;;
  (* phase 6 *)
  since <- time_Since starttime ;;
  call Infof "executing phase 6: create sriovns network service endpoint (time since start: %s)" [ADuration since] ;;
  endpoint <- sriovns_NewServer (Name config) source (MaxTokenLifetime config)
                pciPool resourcePool sriovConfig
                (VFIOPath config) (CgroupPath config) (ConnectTo config) ;;
  (* phase 7 *)
  since <- time_Since starttime ;;
  call Infof "executing phase 7: create grpc server and register sriovns (time since start: %s)" [ADuration since] ;;
  made <- ioutil_TempDir "" "sriov-forwarder" ;;
  let_ok tmpDir := made
    else err => Fatalf "error creating tmpDir: %+v" [AErr (Some err)] ;;
  defer (call os_RemoveAll tmpDir ;; Ret) ;;
  joined <- path_Join tmpDir "listen_on.io.sock" ;;
  let listenOn :=
    {| url.Scheme := "unix"; url.Opaque := ""; url.Host := "";
       url.Path := joined; url.RawQuery := ""; url.Fragment := "" |} in
  server <- grpc_NewServer source ;;
  call Endpoint_Register endpoint server ;;
  srvErrCh <- grpcutils_ListenAndServe listenOn server ;;
  exitOnErr srvErrCh ;;;
  (* phase 8 *)
  since <- time_Since starttime ;;
  call Infof "executing phase 8: register %s with the registry (time since start: %s)"
    [AString (NSName config); ADuration since] ;;
  target <- grpcutils_URLToTarget (ConnectTo config) ;;
  dialed <- grpc_DialContext target source ;;
  let_ok registryCC := dialed
    else err => Fatalf "failed to connect to registry: %+v" [AErr (Some err)] ;;
  registryClient <- registrychain_NewNetworkServiceEndpointRegistryClient registryCC ;;
  now <- time_Now ;;
  converted <- ptypes_TimestampProto (Time_Add now (MaxTokenLifetime config)) ;;
  let_ok expireTime := converted
    else err => Fatalf "failed to connect to registry: %+v" [AErr (Some err)] ;;
  listenTarget <- grpcutils_URLToTarget listenOn ;;
  err <- registry_Register registryClient
           {| registryapi.Name := Name config;
              registryapi.NetworkServiceNames := [NSName config];
              registryapi.Url := listenTarget;
              registryapi.ExpirationTime := expireTime |} ;;
  if_err err then Fatalf "failed to connect to registry: %+v" [AErr err] ;;
  since <- time_Since starttime ;;
  call Infof "Startup completed in %v" [ADuration since] ;;
  call ctx_Done ;;
  Ret.

(** ** The world outside [main.go] *)

Section Machine.

(** The contents of a [sriovconfig.Config] object; its layout belongs to
    another repository. *)
Context {SriovConfig : Type}.

(** What the imported packages and the operating system answer.  Pure
    library functions are functions of their arguments; a call that can be
    made once per run has one outcome. *)
Record World : Type := {
  (* the process environment *)
  environ : gmap string string;
  (* the n-th reading of the wall clock *)
  clock : nat -> Time;
  (* envconfig: the variable name of a field, from prefix, name, split_words *)
  envconfig_key : string -> string -> bool -> string;
  time_ParseDuration : string -> result Duration;
  url_Parse : string -> result url.URL;
  w_path_Join : string -> string -> string;
  w_URLToTarget : url.URL -> string;
  w_TimestampProto : Time -> result Timestamp;
  w_InitJaeger : string -> Closer;
  w_Close : Closer -> option error;
  w_debug_Self : option error;
  w_Usage : option error;
  w_ReadConfig : string -> result SriovConfig;
  (* discovery rewrites the object it is given and may fail *)
  w_UpdateConfig : string -> string -> SriovConfig -> SriovConfig * option error;
  w_token_NewPool : SriovConfig -> TokenPool;
  w_pci_NewPool : string -> string -> string -> SriovConfig -> result PCIPool;
  w_resource_NewPool : TokenPool -> SriovConfig -> ResourcePool;
  w_NewManager : string -> string -> Manager;
  w_StartServers : TokenPool -> Duration -> Manager -> option error;
  w_NewX509Source : result X509Source;
  w_GetX509SVID : X509Source -> result SVID;
  w_sriovns_NewServer : string -> Endpoint;
  w_TempDir : string -> string -> result string;
  w_RemoveAll : string -> option error;
  w_grpc_NewServer : X509Source -> Server;
  w_DialContext : string -> result ClientConn;
  w_NewRegistryClient : ClientConn -> RegistryClient;
  w_Register : registryapi.NetworkServiceEndpoint -> option error
}.

(** ** envconfig.Process on [Config] *)

Definition set_string (f : Field) (v : string) (c : Config) : Config :=
  match f with
  | FName => {| Name := v; NSName := NSName c; ConnectTo := ConnectTo c; MaxTokenLifetime := MaxTokenLifetime c; ResourcePollTimeout := ResourcePollTimeout c; DevicePluginPath := DevicePluginPath c; PodResourcesPath := PodResourcesPath c; SRIOVConfigFile := SRIOVConfigFile c; PCIDevicesPath := PCIDevicesPath c; PCIDriversPath := PCIDriversPath c; CgroupPath := CgroupPath c; VFIOPath := VFIOPath c |}
  | FNSName => {| Name := Name c; NSName := v; ConnectTo := ConnectTo c; MaxTokenLifetime := MaxTokenLifetime c; ResourcePollTimeout := ResourcePollTimeout c; DevicePluginPath := DevicePluginPath c; PodResourcesPath := PodResourcesPath c; SRIOVConfigFile := SRIOVConfigFile c; PCIDevicesPath := PCIDevicesPath c; PCIDriversPath := PCIDriversPath c; CgroupPath := CgroupPath c; VFIOPath := VFIOPath c |}
  | FDevicePluginPath => {| Name := Name c; NSName := NSName c; ConnectTo := ConnectTo c; MaxTokenLifetime := MaxTokenLifetime c; ResourcePollTimeout := ResourcePollTimeout c; DevicePluginPath := v; PodResourcesPath := PodResourcesPath c; SRIOVConfigFile := SRIOVConfigFile c; PCIDevicesPath := PCIDevicesPath c; PCIDriversPath := PCIDriversPath c; CgroupPath := CgroupPath c; VFIOPath := VFIOPath c |}
  | FPodResourcesPath => {| Name := Name c; NSName := NSName c; ConnectTo := ConnectTo c; MaxTokenLifetime := MaxTokenLifetime c; ResourcePollTimeout := ResourcePollTimeout c; DevicePluginPath := DevicePluginPath c; PodResourcesPath := v; SRIOVConfigFile := SRIOVConfigFile c; PCIDevicesPath := PCIDevicesPath c; PCIDriversPath := PCIDriversPath c; CgroupPath := CgroupPath c; VFIOPath := VFIOPath c |}
  | FSRIOVConfigFile => {| Name := Name c; NSName := NSName c; ConnectTo := ConnectTo c; MaxTokenLifetime := MaxTokenLifetime c; ResourcePollTimeout := ResourcePollTimeout c; DevicePluginPath := DevicePluginPath c; PodResourcesPath := PodResourcesPath c; SRIOVConfigFile := v; PCIDevicesPath := PCIDevicesPath c; PCIDriversPath := PCIDriversPath c; CgroupPath := CgroupPath c; VFIOPath := VFIOPath c |}
  | FPCIDevicesPath => {| Name := Name c; NSName := NSName c; ConnectTo := ConnectTo c; MaxTokenLifetime := MaxTokenLifetime c; ResourcePollTimeout := ResourcePollTimeout c; DevicePluginPath := DevicePluginPath c; PodResourcesPath := PodResourcesPath c; SRIOVConfigFile := SRIOVConfigFile c; PCIDevicesPath := v; PCIDriversPath := PCIDriversPath c; CgroupPath := CgroupPath c; VFIOPath := VFIOPath c |}
  | FPCIDriversPath => {| Name := Name c; NSName := NSName c; ConnectTo := ConnectTo c; MaxTokenLifetime := MaxTokenLifetime c; ResourcePollTimeout := ResourcePollTimeout c; DevicePluginPath := DevicePluginPath c; PodResourcesPath := PodResourcesPath c; SRIOVConfigFile := SRIOVConfigFile c; PCIDevicesPath := PCIDevicesPath c; PCIDriversPath := v; CgroupPath := CgroupPath c; VFIOPath := VFIOPath c |}
  | FCgroupPath => {| Name := Name c; NSName := NSName c; ConnectTo := ConnectTo c; MaxTokenLifetime := MaxTokenLifetime c; ResourcePollTimeout := ResourcePollTimeout c; DevicePluginPath := DevicePluginPath c; PodResourcesPath := PodResourcesPath c; SRIOVConfigFile := SRIOVConfigFile c; PCIDevicesPath := PCIDevicesPath c; PCIDriversPath := PCIDriversPath c; CgroupPath := v; VFIOPath := VFIOPath c |}
  | FVFIOPath => {| Name := Name c; NSName := NSName c; ConnectTo := ConnectTo c; MaxTokenLifetime := MaxTokenLifetime c; ResourcePollTimeout := ResourcePollTimeout c; DevicePluginPath := DevicePluginPath c; PodResourcesPath := PodResourcesPath c; SRIOVConfigFile := SRIOVConfigFile c; PCIDevicesPath := PCIDevicesPath c; PCIDriversPath := PCIDriversPath c; CgroupPath := CgroupPath c; VFIOPath := v |}
  | FConnectTo | FMaxTokenLifetime | FResourcePollTimeout => c
  end.

Definition set_url (f : Field) (v : url.URL) (c : Config) : Config :=
  match f with
  | FConnectTo => {| Name := Name c; NSName := NSName c; ConnectTo := v; MaxTokenLifetime := MaxTokenLifetime c; ResourcePollTimeout := ResourcePollTimeout c; DevicePluginPath := DevicePluginPath c; PodResourcesPath := PodResourcesPath c; SRIOVConfigFile := SRIOVConfigFile c; PCIDevicesPath := PCIDevicesPath c; PCIDriversPath := PCIDriversPath c; CgroupPath := CgroupPath c; VFIOPath := VFIOPath c |}
  | _ => c
  end.

Definition set_duration (f : Field) (v : Duration) (c : Config) : Config :=
  match f with
  | FMaxTokenLifetime => {| Name := Name c; NSName := NSName c; ConnectTo := ConnectTo c; MaxTokenLifetime := v; ResourcePollTimeout := ResourcePollTimeout c; DevicePluginPath := DevicePluginPath c; PodResourcesPath := PodResourcesPath c; SRIOVConfigFile := SRIOVConfigFile c; PCIDevicesPath := PCIDevicesPath c; PCIDriversPath := PCIDriversPath c; CgroupPath := CgroupPath c; VFIOPath := VFIOPath c |}
  | FResourcePollTimeout => {| Name := Name c; NSName := NSName c; ConnectTo := ConnectTo c; MaxTokenLifetime := MaxTokenLifetime c; ResourcePollTimeout := v; DevicePluginPath := DevicePluginPath c; PodResourcesPath := PodResourcesPath c; SRIOVConfigFile := SRIOVConfigFile c; PCIDevicesPath := PCIDevicesPath c; PCIDriversPath := PCIDriversPath c; CgroupPath := CgroupPath c; VFIOPath := VFIOPath c |}
  | _ => c
  end.

(** [processField]: decode the text by the type of the field and store it. *)
Definition processField (w : World) (value : string) (f : Field) (c : Config)
  : result Config :=
  match field_kind f with
  | KString => Ok (set_string f value c)
  | KURL =>
      match url_Parse w value with
      | Ok u => Ok (set_url f u c)
      | Failed err => Failed err
      end
  | KDuration =>
      match time_ParseDuration w value with
      | Ok d => Ok (set_duration f d c)
      | Failed err => Failed err
      end
  end.

(** The text a field is decoded from: the variable when it is set, the
    default tag otherwise; [None] when there is neither. *)
Definition field_value (w : World) (prefix : string) (f : Field)
  : option string :=
  match environ w !! envconfig_key w prefix (field_name f) (tag_split_words f) with
  | Some value => Some value
  | None => if decide (tag_default f = "") then None else Some (tag_default f)
  end.

(** The loop of [envconfig.Process] over the fields; it stops at the first
    field that fails, leaving the fields before it assigned. *)
Fixpoint process_fields (w : World) (prefix : string) (fs : list Field)
  (c : Config) : Config * option error :=
  match fs with
  | [] => (c, None)
  | f :: rest =>
      match field_value w prefix f with
      | None =>
          if tag_required f
          then (c, Some ("required key missing value: " ++ field_name f)%string)
          else process_fields w prefix rest c
      | Some value =>
          match processField w value f c with
          | Ok c' => process_fields w prefix rest c'
          | Failed err => (c, Some err)
          end
      end
  end.

Definition Process (w : World) (prefix : string) (spec : Config)
  : Config * option error :=
  process_fields w prefix Config_fields spec.

(** ** The machine *)

(** A channel of errors with a buffer of one element. *)
Record Chan : Type := { buf : option (option error); closed : bool }.

(** A goroutine: what is left of its body and its deferred calls, the
    last deferred first. *)
Record Thread : Type := { t_prog : Prog; t_defers : list Prog }.

(** What the log, the collaborators and the environment have seen, in
    order.  Goroutine 0 is [main]. *)
Inductive Event : Type :=
| EvOp (tid : nat) {R : Type} (o : op R) (r : R)
| EvFatal (tid : nat) (m : Message)
| EvGo (tid : nat) (child : nat)
| EvDefer (tid : nat)
| EvExit (status : Z)
| EvSignal
| EvSend (ch : ErrChan) (err : option error)
| EvClose (ch : ErrChan).

Record State : Type := {
  trace : list Event;
  threads : list Thread;
  (* clock readings taken so far *)
  ticks : nat;
  (* the sriovconfig.Config objects, indexed by pointer *)
  store : list SriovConfig;
  (* the directories made by ioutil.TempDir that exist *)
  tmpdirs : list string;
  chans : list Chan;
  (* the context of signalctx.WithSignals is done *)
  signalled : bool;
  (* cancel() of context.WithCancel has been called *)
  cancelled : bool;
  (* the exit status, once the process has terminated *)
  exited : option Z
}.

Definition set_trace (t : list Event) (st : State) : State :=
  {| trace := t; threads := threads st; ticks := ticks st; store := store st;
     tmpdirs := tmpdirs st; chans := chans st; signalled := signalled st;
     cancelled := cancelled st; exited := exited st |}.
Definition set_threads (t : list Thread) (st : State) : State :=
  {| trace := trace st; threads := t; ticks := ticks st; store := store st;
     tmpdirs := tmpdirs st; chans := chans st; signalled := signalled st;
     cancelled := cancelled st; exited := exited st |}.
Definition set_ticks (n : nat) (st : State) : State :=
  {| trace := trace st; threads := threads st; ticks := n; store := store st;
     tmpdirs := tmpdirs st; chans := chans st; signalled := signalled st;
     cancelled := cancelled st; exited := exited st |}.
Definition set_store (s : list SriovConfig) (st : State) : State :=
  {| trace := trace st; threads := threads st; ticks := ticks st; store := s;
     tmpdirs := tmpdirs st; chans := chans st; signalled := signalled st;
     cancelled := cancelled st; exited := exited st |}.
Definition set_tmpdirs (d : list string) (st : State) : State :=
  {| trace := trace st; threads := threads st; ticks := ticks st;
     store := store st; tmpdirs := d; chans := chans st;
     signalled := signalled st; cancelled := cancelled st;
     exited := exited st |}.
Definition set_chans (c : list Chan) (st : State) : State :=
  {| trace := trace st; threads := threads st; ticks := ticks st;
     store := store st; tmpdirs := tmpdirs st; chans := c;
     signalled := signalled st; cancelled := cancelled st;
     exited := exited st |}.
Definition set_signalled (b : bool) (st : State) : State :=
  {| trace := trace st; threads := threads st; ticks := ticks st;
     store := store st; tmpdirs := tmpdirs st; chans := chans st;
     signalled := b; cancelled := cancelled st; exited := exited st |}.
Definition set_cancelled (b : bool) (st : State) : State :=
  {| trace := trace st; threads := threads st; ticks := ticks st;
     store := store st; tmpdirs := tmpdirs st; chans := chans st;
     signalled := signalled st; cancelled := b; exited := exited st |}.
Definition set_exited (e : option Z) (st : State) : State :=
  {| trace := trace st; threads := threads st; ticks := ticks st;
     store := store st; tmpdirs := tmpdirs st; chans := chans st;
     signalled := signalled st; cancelled := cancelled st; exited := e |}.

(** [ctx.Done()] is closed once a signal arrived or [cancel] was called. *)
Definition ctx_done (st : State) : bool := signalled st || cancelled st.

Definition remove_dir (path : string) (dirs : list string) : list string :=
  filter (fun d => d <> path) dirs.

(** A receive: the buffered value if there is one, nil from a closed
    channel, nothing otherwise. *)
Definition chan_take (c : Chan) : option (option error * Chan) :=
  match buf c with
  | Some v => Some (v, {| buf := None; closed := closed c |})
  | None => if closed c then Some (None, c) else None
  end.

(** One operation against the world and the state: its result and the
    state after it, or [None] while it cannot proceed (a receive with
    nothing to receive, a wait on a context that is not done, a pointer or
    channel that does not exist). *)
Definition exec (w : World) (st : State) {R : Type} (o : op R)
  : option (R * State) :=
  match o in op R return option (R * State) with
  | jaeger_InitJaeger service => Some (w_InitJaeger w service, st)
  | io_Close c => Some (w_Close w c, st)
  | debug_Self => Some (w_debug_Self w, st)
  | time_Now => Some (clock w (ticks st), set_ticks (S (ticks st)) st)
  | time_Since t =>
      Some (Time_Sub (clock w (ticks st)) t, set_ticks (S (ticks st)) st)
  | log_Entry _ _ => Some (tt, st)
  | envconfig_Usage _ _ => Some (w_Usage w, st)
  | envconfig_Process prefix spec => Some (Process w prefix spec, st)
  | sriovconfig_ReadConfig file =>
      match w_ReadConfig w file with
      | Ok c => Some (Ok (length (store st)), set_store (store st ++ [c]) st)
      | Failed err => Some (Failed err, st)
      end
  | pci_UpdateConfig devs drvs cfg =>
      match store st !! cfg with
      | Some c =>
          let updated := w_UpdateConfig w devs drvs c in
          Some (snd updated, set_store (<[cfg := fst updated]> (store st)) st)
      | None => None
      end
  | token_NewPool cfg =>
      match store st !! cfg with
      | Some c => Some (w_token_NewPool w c, st)
      | None => None
      end
  | pci_NewPool devs drvs vfio cfg =>
      match store st !! cfg with
      | Some c => Some (w_pci_NewPool w devs drvs vfio c, st)
      | None => None
      end
  | resource_NewPool tokenPool cfg =>
      match store st !! cfg with
      | Some c => Some (w_resource_NewPool w tokenPool c, st)
      | None => None
      end
  | k8s_NewManager dpp prp => Some (w_NewManager w dpp prp, st)
  | deviceplugin_StartServers tokenPool timeout manager =>
      Some (w_StartServers w tokenPool timeout manager, st)
  | workloadapi_NewX509Source => Some (w_NewX509Source w, st)
  | GetX509SVID source => Some (w_GetX509SVID w source, st)
  | sriovns_NewServer name _ _ _ _ cfg _ _ _ =>
      match store st !! cfg with
      | Some _ => Some (w_sriovns_NewServer w name, st)
      | None => None
      end
  | ioutil_TempDir dir pattern =>
      match w_TempDir w dir pattern with
      | Ok name => Some (Ok name, set_tmpdirs (name :: tmpdirs st) st)
      | Failed err => Some (Failed err, st)
      end
  | os_RemoveAll path =>
      match w_RemoveAll w path with
      | None => Some (None, set_tmpdirs (remove_dir path (tmpdirs st)) st)
      | Some err => Some (Some err, st)
      end
  | path_Join a b => Some (w_path_Join w a b, st)
  | grpc_NewServer source => Some (w_grpc_NewServer w source, st)
  | Endpoint_Register _ _ => Some (tt, st)
  | grpcutils_ListenAndServe _ _ =>
      Some (length (chans st),
            set_chans (chans st ++ [{| buf := None; closed := false |}]) st)
  | grpcutils_URLToTarget u => Some (w_URLToTarget w u, st)
  | grpc_DialContext target _ => Some (w_DialContext w target, st)
  | registrychain_NewNetworkServiceEndpointRegistryClient cc =>
      Some (w_NewRegistryClient w cc, st)
  | ptypes_TimestampProto t => Some (w_TimestampProto w t, st)
  | registry_Register _ nse => Some (w_Register w nse, st)
  | select_recv_default errCh =>
      match chans st !! errCh with
      | Some c =>
          match chan_take c with
          | Some (v, c') => Some (Some v, set_chans (<[errCh := c']> (chans st)) st)
          | None => Some (None, st)
          end
      | None => Some (None, st)
      end
  | chan_recv errCh =>
      match chans st !! errCh with
      | Some c =>
          match chan_take c with
          | Some (v, c') => Some (v, set_chans (<[errCh := c']> (chans st)) st)
          | None => None
          end
      | None => None
      end
  | ctx_cancel => Some (tt, set_cancelled true st)
  | ctx_Done => if ctx_done st then Some (tt, st) else None
  end.

Definition log (ev : Event) (st : State) : State :=
  set_trace (trace st ++ [ev]) st.

Definition set_thread (tid : nat) (th : Thread) (st : State) : State :=
  set_threads (<[tid := th]> (threads st)) st.

(** One step of goroutine [tid]. *)
Definition step_thread (w : World) (tid : nat) (th : Thread) (st : State)
  : State :=
  match t_prog th with
  | Ret =>
      match t_defers th with
      | d :: ds => set_thread tid {| t_prog := d; t_defers := ds |} st
      | [] =>
          (* main returns: the process ends; another goroutine just ends *)
          if decide (tid = 0%nat)
          then set_exited (Some 0) (log (EvExit 0) st)
          else st
      end
  | LogFatal m =>
      (* logrus logs the entry and calls os.Exit(1): no deferred call runs *)
      set_exited (Some 1) (log (EvFatal tid m) st)
  | Vis o k =>
      match exec w st o with
      | Some (r, st') =>
          set_thread tid {| t_prog := k r; t_defers := t_defers th |}
            (log (EvOp tid o r) st')
      | None => st
      end
  | Go body k =>
      let child := length (threads st) in
      set_threads
        (<[tid := {| t_prog := k; t_defers := t_defers th |}]> (threads st)
           ++ [{| t_prog := body; t_defers := [] |}])
        (log (EvGo tid child) st)
  | Defer body k =>
      set_thread tid {| t_prog := k; t_defers := body :: t_defers th |}
        (log (EvDefer tid) st)
  end.

(** What can happen next: a goroutine is scheduled, a termination signal
    arrives, or the transport task sends on or closes its channel. *)
Inductive Sched : Type :=
| Run (tid : nat)
| Signal
| TransportSend (ch : ErrChan) (err : option error)
| TransportClose (ch : ErrChan).

Definition step (w : World) (x : Sched) (st : State) : State :=
  match exited st with
  | Some _ => st
  | None =>
      match x with
      | Run tid =>
          match threads st !! tid with
          | Some th => step_thread w tid th st
          | None => st
          end
      | Signal => set_signalled true (log EvSignal st)
      | TransportSend ch err =>
          match chans st !! ch with
          | Some c =>
              match buf c, closed c with
              | None, false =>
                  set_chans (<[ch := {| buf := Some err; closed := false |}]> (chans st))
                    (log (EvSend ch err) st)
              | _, _ => st
              end
          | None => st
          end
      | TransportClose ch =>
          match chans st !! ch with
          | Some c =>
              if closed c then st
              else set_chans (<[ch := {| buf := buf c; closed := true |}]> (chans st))
                     (log (EvClose ch) st)
          | None => st
          end
      end
  end.

Definition init : State :=
  {| trace := []; threads := [{| t_prog := main; t_defers := [] |}];
     ticks := 0; store := []; tmpdirs := []; chans := [];
     signalled := false; cancelled := false; exited := None |}.

Definition run_from (w : World) (st : State) (s : list Sched) : State :=
  fold_left (fun st x => step w x st) s st.

Definition run (w : World) (s : list Sched) : State := run_from w init s.

End Machine.

(** ** Reading a trace *)

(** The goroutine an event belongs to; the end of the process belongs to
    [main], the events of the environment to nobody. *)
Definition tid_of (ev : Event) : option nat :=
  match ev with
  | EvOp tid _ _ | EvFatal tid _ | EvGo tid _ | EvDefer tid => Some tid
  | EvExit _ => Some 0%nat
  | EvSignal | EvSend _ _ | EvClose _ => None
  end.

Definition belongs (tid : nat) (ev : Event) : bool :=
  match tid_of ev with
  | Some t => Nat.eqb t tid
  | None => false
  end.

Definition events_of (tid : nat) (tr : list Event) : list Event :=
  List.filter (belongs tid) tr.

Definition main_events (tr : list Event) : list Event := events_of 0 tr.

Definition msg_args (m : Message) : list LogArg :=
  match m with
  | Msg args => args
  | Msgf _ args => args
  end.

Definition msg_format (m : Message) : option string :=
  match m with
  | Msg _ => None
  | Msgf format _ => Some format
  end.

(** The error a call came back with: a non-nil error result, or what the
    non-blocking receive of [exitOnErr] found on the channel. *)
Definition failure (ev : Event) : option (option error) :=
  match ev with
  | EvOp _ o r =>
      match o in op R return R -> option (option error) with
      | io_Close _ | debug_Self | envconfig_Usage _ _
      | pci_UpdateConfig _ _ _ | deviceplugin_StartServers _ _ _
      | os_RemoveAll _ | registry_Register _ _ =>
          fun r => match r with Some err => Some (Some err) | None => None end
      | envconfig_Process _ _ =>
          fun r => match snd r with Some err => Some (Some err) | None => None end
      | sriovconfig_ReadConfig _ =>
          fun r => match r with Failed err => Some (Some err) | Ok _ => None end
      | pci_NewPool _ _ _ _ =>
          fun r => match r with Failed err => Some (Some err) | Ok _ => None end
      | workloadapi_NewX509Source =>
          fun r => match r with Failed err => Some (Some err) | Ok _ => None end
      | GetX509SVID _ =>
          fun r => match r with Failed err => Some (Some err) | Ok _ => None end
      | ioutil_TempDir _ _ =>
          fun r => match r with Failed err => Some (Some err) | Ok _ => None end
      | grpc_DialContext _ _ =>
          fun r => match r with Failed err => Some (Some err) | Ok _ => None end
      | ptypes_TimestampProto _ =>
          fun r => match r with Failed err => Some (Some err) | Ok _ => None end
      | select_recv_default _ => fun r => r
      | _ => fun _ => None
      end r
  | _ => None
  end.

(** The format of an info-level log line. *)
Definition info_format (ev : Event) : option string :=
  match ev with
  | EvOp _ o _ =>
      match o with
      | log_Entry InfoLevel (Msgf format _) => Some format
      | _ => None
      end
  | _ => None
  end.

Definition has_prefix (p : string) (ev : Event) : bool :=
  match info_format ev with
  | Some format => String.prefix p format
  | None => false
  end.

(** A phase starts with its announcement; phase 8 ends with the success
    message. *)
Definition announces (ev : Event) : bool := has_prefix "executing phase " ev.
Definition completes (ev : Event) : bool := has_prefix "Startup completed" ev.

(** The phase a goroutine is in after the events [acc]: 0 before the first
    announcement, 1 to 8 during start-up, 9 once start-up has completed. *)
Definition phase_of (acc : list Event) : nat :=
  length (List.filter (fun ev => announces ev || completes ev) acc).

Definition in_startup (ph : nat) : bool := Nat.leb 1 ph && Nat.leb ph 8.

(** ** Properties of every path of a program *)

Section Paths.
(** The goroutine that runs the program, what must hold of its events and
    of what is left of its body at every point, and what must hold of a
    body it starts with [go]. *)
Variable tid : nat.
Variable P : list Event -> Prog -> Prop.
Variable Q : Prog -> Prop.

(** [K] is what must hold when the body returns, which is where the
    deferred calls run. *)
Fixpoint all_paths (p : Prog) (K : list Event -> Prop) (acc : list Event)
  : Prop :=
  P acc p /\
  match p with
  | Ret => K acc
  | LogFatal m => P (acc ++ [EvFatal tid m]) (LogFatal m)
  | Vis o k => forall r, all_paths (k r) K (acc ++ [EvOp tid o r])
  | Go body k => Q body /\ forall child, all_paths k K (acc ++ [EvGo tid child])
  | Defer body k =>
      all_paths k (fun acc' => all_paths body K acc') (acc ++ [EvDefer tid])
  end.

Fixpoint after_defers (ds : list Prog) (K : list Event -> Prop)
  : list Event -> Prop :=
  match ds with
  | [] => K
  | d :: ds' => fun acc => all_paths d (after_defers ds' K) acc
  end.
End Paths.

(** ** Selecting events *)

(** The first event for which [f] gives something. *)
Fixpoint find_ev {A : Type} (f : Event -> option A) (acc : list Event)
  : option A :=
  match acc with
  | [] => None
  | ev :: rest =>
      match f ev with
      | Some a => Some a
      | None => find_ev f rest
      end
  end.

(** The configuration [envconfig.Process] filled in without error. *)
Definition sel_loaded (ev : Event) : option Config :=
  match ev with
  | EvOp _ o r =>
      match o in op R return R -> option Config with
      | envconfig_Process _ _ =>
          fun r => match snd r with None => Some (fst r) | Some _ => None end
      | _ => fun _ => None
      end r
  | _ => None
  end.

(** What [envconfig.Usage] returned. *)
Definition sel_usage (ev : Event) : option (option error) :=
  match ev with
  | EvOp _ o r =>
      match o in op R return R -> option (option error) with
      | envconfig_Usage _ _ => fun r => Some r
      | _ => fun _ => None
      end r
  | _ => None
  end.

(** What [envconfig.Process] was called with and returned. *)
Definition sel_process (ev : Event)
  : option (string * Config * (Config * option error)) :=
  match ev with
  | EvOp _ o r =>
      match o in op R
        return R -> option (string * Config * (Config * option error)) with
      | envconfig_Process prefix spec => fun r => Some (prefix, spec, r)
      | _ => fun _ => None
      end r
  | _ => None
  end.

(** The record handed to [Register]. *)
Definition sel_register (ev : Event)
  : option registryapi.NetworkServiceEndpoint :=
  match ev with
  | EvOp _ o _ =>
      match o with
      | registry_Register _ nse => Some nse
      | _ => None
      end
  | _ => None
  end.

(** [Register] returned without error. *)
Definition register_ok (ev : Event) : bool :=
  match ev with
  | EvOp _ o r =>
      match o in op R return R -> bool with
      | registry_Register _ _ =>
          fun r => match r with None => true | Some _ => false end
      | _ => fun _ => false
      end r
  | _ => false
  end.

(** The address [ListenAndServe] was given and the channel it returned. *)
Definition sel_listen (ev : Event) : option (url.URL * ErrChan) :=
  match ev with
  | EvOp _ o r =>
      match o in op R return R -> option (url.URL * ErrChan) with
      | grpcutils_ListenAndServe u _ => fun r => Some (u, r)
      | _ => fun _ => None
      end r
  | _ => None
  end.

(** The directory [ioutil.TempDir] made. *)
Definition sel_tmpdir (ev : Event) : option string :=
  match ev with
  | EvOp _ o r =>
      match o in op R return R -> option string with
      | ioutil_TempDir _ _ =>
          fun r => match r with Ok name => Some name | Failed _ => None end
      | _ => fun _ => None
      end r
  | _ => None
  end.

(** A reading of [time.Now()]. *)
Definition sel_now (ev : Event) : option Time :=
  match ev with
  | EvOp _ o r =>
      match o in op R return R -> option Time with
      | time_Now => fun r => Some r
      | _ => fun _ => None
      end r
  | _ => None
  end.

(** The non-blocking receive: its channel and what it found. *)
Definition sel_check (ev : Event) : option (ErrChan * option (option error)) :=
  match ev with
  | EvOp _ o r =>
      match o in op R return R -> option (ErrChan * option (option error)) with
      | select_recv_default ch => fun r => Some (ch, r)
      | _ => fun _ => None
      end r
  | _ => None
  end.

(** The value the non-blocking receive found pending. *)
Definition sel_pending (ev : Event) : option (option error) :=
  match sel_check ev with
  | Some (_, Some v) => Some v
  | _ => None
  end.

(** A blocking receive: its channel and what it received. *)
Definition sel_recv (ev : Event) : option (ErrChan * option error) :=
  match ev with
  | EvOp _ o r =>
      match o in op R return R -> option (ErrChan * option error) with
      | chan_recv ch => fun r => Some (ch, r)
      | _ => fun _ => None
      end r
  | _ => None
  end.

(** The arguments of an error-level log entry. *)
Definition sel_errlog (ev : Event) : option (list LogArg) :=
  match ev with
  | EvOp _ o _ =>
      match o with
      | log_Entry ErrorLevel (Msg args) => Some args
      | _ => None
      end
  | _ => None
  end.

Definition is_cancel (ev : Event) : bool :=
  match ev with
  | EvOp _ o _ => match o with ctx_cancel => true | _ => false end
  | _ => false
  end.

Definition is_done_wait (ev : Event) : bool :=
  match ev with
  | EvOp _ o _ => match o with ctx_Done => true | _ => false end
  | _ => false
  end.

Definition is_go (ev : Event) : bool :=
  match ev with
  | EvGo _ _ => true
  | _ => false
  end.

(** The events that end the process. *)
Definition is_terminal (ev : Event) : bool :=
  match ev with
  | EvFatal _ _ | EvExit _ => true
  | _ => false
  end.

(** An emission of the transport task on a channel. *)
Definition emits_on (ch : ErrChan) (ev : Event) : bool :=
  match ev with
  | EvSend c _ | EvClose c => Nat.eqb c ch
  | _ => false
  end.

(** The error of one of the three calls of phase 8 that can fail. *)
Definition registry_failure (ev : Event) : option error :=
  match ev with
  | EvOp _ o r =>
      match o in op R return R -> option error with
      | grpc_DialContext _ _ =>
          fun r => match r with Failed err => Some err | Ok _ => None end
      | ptypes_TimestampProto _ =>
          fun r => match r with Failed err => Some err | Ok _ => None end
      | registry_Register _ _ => fun r => r
      | _ => fun _ => None
      end r
  | _ => None
  end.

(** Which of the three calls an event is. *)
Inductive RegistryCall : Type := Dial | Convert | Submit.

Definition registry_call (ev : Event) : option RegistryCall :=
  match ev with
  | EvOp _ o _ =>
      match o with
      | grpc_DialContext _ _ => Some Dial
      | ptypes_TimestampProto _ => Some Convert
      | registry_Register _ _ => Some Submit
      | _ => None
      end
  | _ => None
  end.

(** An effect on the store of hardware configurations: a successful read
    allocates the object it returns, a discovery rewrites its argument. *)
Inductive StoreOp : Type :=
| SRead (file : string) (ptr : ConfigPtr)
| SUpdate (pciDevicesPath pciDriversPath : string) (ptr : ConfigPtr)
    (err : option error).

Definition store_op (ev : Event) : option StoreOp :=
  match ev with
  | EvOp _ o r =>
      match o in op R return R -> option StoreOp with
      | sriovconfig_ReadConfig file =>
          fun r => match r with Ok ptr => Some (SRead file ptr) | Failed _ => None end
      | pci_UpdateConfig devs drvs ptr => fun r => Some (SUpdate devs drvs ptr r)
      | _ => fun _ => None
      end r
  | _ => None
  end.

Definition store_ops (acc : list Event) : list StoreOp := omap store_op acc.

(** A call of [sriovconfig.ReadConfig] or [pci.UpdateConfig]. *)
Definition hardware_call (ev : Event) : bool :=
  match ev with
  | EvOp _ o _ =>
      match o with
      | sriovconfig_ReadConfig _ | pci_UpdateConfig _ _ _ => true
      | _ => false
      end
  | _ => false
  end.

(** The elapsed time [time.Since] was asked for and returned. *)
Definition sel_since (ev : Event) : option (Time * Duration) :=
  match ev with
  | EvOp _ o r =>
      match o in op R return R -> option (Time * Duration) with
      | time_Since t => fun r => Some (t, r)
      | _ => fun _ => None
      end r
  | _ => None
  end.

(** The message of a fatal log. *)
Definition sel_fatal (ev : Event) : option Message :=
  match ev with
  | EvFatal _ m => Some m
  | _ => None
  end.

(** The path [os.RemoveAll] was called with. *)
Definition sel_remove (ev : Event) : option string :=
  match ev with
  | EvOp _ o _ =>
      match o with
      | os_RemoveAll path => Some path
      | _ => None
      end
  | _ => None
  end.

(** ** What a goroutine is about to do *)

(** The configuration object a pool constructor is about to be given. *)
Definition pool_ctor (p : Prog) : option ConfigPtr :=
  match p with
  | Vis o _ =>
      match o with
      | token_NewPool cfg => Some cfg
      | pci_NewPool _ _ _ cfg => Some cfg
      | resource_NewPool _ cfg => Some cfg
      | _ => None
      end
  | _ => None
  end.

Definition awaits_check (p : Prog) : option ErrChan :=
  match p with
  | Vis o _ => match o with select_recv_default ch => Some ch | _ => None end
  | _ => None
  end.

Definition awaits_recv (p : Prog) : option ErrChan :=
  match p with
  | Vis o _ => match o with chan_recv ch => Some ch | _ => None end
  | _ => None
  end.

Definition awaits_done (p : Prog) : bool :=
  match p with
  | Vis o _ => match o with ctx_Done => true | _ => false end
  | _ => false
  end.

Definition awaits_since (p : Prog) : option Time :=
  match p with
  | Vis o _ => match o with time_Since t => Some t | _ => None end
  | _ => None
  end.

Definition awaits_log (p : Prog) : option Message :=
  match p with
  | Vis o _ => match o with log_Entry InfoLevel m => Some m | _ => None end
  | _ => None
  end.

Definition awaits_fatal (p : Prog) : option Message :=
  match p with
  | LogFatal m => Some m
  | _ => None
  end.

(** ** Properties of the events of a goroutine *)

Definition next_phase (ph : nat) (ev : Event) : nat :=
  if announces ev || completes ev then S ph else ph.

(** [C ph ev rest] at every event [ev], with [ph] the phase it happens in
    and [rest] the events after it. *)
Fixpoint scan (C : nat -> Event -> list Event -> Prop) (ph : nat)
  (acc : list Event) : Prop :=
  match acc with
  | [] => True
  | ev :: rest => C ph ev rest /\ scan C (next_phase ph ev) rest
  end.

(** [C ph ev] at the last event [ev], with [ph] the phase it happens in. *)
Definition at_end (C : nat -> Event -> Prop) (acc : list Event) : Prop :=
  match last acc with
  | Some ev => C (phase_of (removelast acc)) ev
  | None => True
  end.

(** *** Fail-fast *)

(** A call that fails during start-up is followed by the fatal log of its
    error and by nothing else. *)
Definition fatal_follows (ph : nat) (ev : Event) (rest : list Event) : Prop :=
  if in_startup ph then
    match failure ev with
    | Some v => rest = [] \/ exists m, rest = [EvFatal 0 m] /\ msg_args m = [AErr v]
    | None => True
    end
  else True.

(** After such a failure the goroutine is about to log it fatally. *)
Definition fatal_next (p : Prog) (ph : nat) (ev : Event) : Prop :=
  if in_startup ph then
    match failure ev with
    | Some v => exists m, awaits_fatal p = Some m /\ msg_args m = [AErr v]
    | None => True
    end
  else True.

Definition fails_fast (acc : list Event) (p : Prog) : Prop :=
  scan fatal_follows 0 acc /\ at_end (fatal_next p) acc.

(** *** The check after starting the transport server *)

(** The next thing after [ListenAndServe] is the non-blocking receive on
    the channel it returned. *)
Definition check_follows (ph : nat) (ev : Event) (rest : list Event) : Prop :=
  match sel_listen ev with
  | Some (_, ch) =>
      match rest with
      | [] => True
      | ev' :: _ => exists r, sel_check ev' = Some (ch, r)
      end
  | None => True
  end.

Definition check_next (p : Prog) (ph : nat) (ev : Event) : Prop :=
  match sel_listen ev with
  | Some (_, ch) => awaits_check p = Some ch
  | None => True
  end.

(** Once the check found something, phase 8 is not entered, nothing is
    registered, and the fatal log of what was found is all that remains. *)
Definition pending_is_fatal (acc : list Event) (p : Prog) : Prop :=
  forall v, find_ev sel_pending acc = Some v ->
    phase_of acc = 7%nat /\
    find_ev sel_register acc = None /\
    awaits_fatal p = Some (Msg [AErr v]) /\
    match last acc with
    | Some ev => sel_pending ev = Some v \/ ev = EvFatal 0 (Msg [AErr v])
    | None => False
    end.

Definition checks_first (acc : list Event) (p : Prog) : Prop :=
  scan check_follows 0 acc /\ at_end (check_next p) acc /\
  pending_is_fatal acc p.

(** *** The watcher *)

(** [main] never calls [cancel], starts at most one goroutine, and starts
    it only after the check on the channel of the transport server found
    nothing. *)
Definition spawns_once (acc : list Event) : Prop :=
  forallb (fun ev => negb (is_cancel ev)) acc = true /\
  (length (List.filter is_go acc) <= 1)%nat /\
  (List.filter is_go acc <> [] ->
   exists u ch, find_ev sel_listen acc = Some (u, ch) /\
                find_ev sel_check acc = Some (ch, None)).

(** The goroutine [exitOnErr] starts does three things in this order:
    receive, log what it received as an error, cancel. *)
Definition watcher_shape (acc : list Event) (p : Prog) : Prop :=
  match acc with
  | [] => exists ch, awaits_recv p = Some ch
  | [e1] => exists ch v, sel_recv e1 = Some (ch, v)
  | [e1; e2] =>
      exists ch v, sel_recv e1 = Some (ch, v) /\ sel_errlog e2 = Some [AErr v]
  | [e1; e2; e3] =>
      exists ch v, sel_recv e1 = Some (ch, v) /\ sel_errlog e2 = Some [AErr v] /\
                   is_cancel e3 = true
  | _ => False
  end.

(** *** The registration record *)

Definition unix_URL (path : string) : url.URL :=
  {| url.Scheme := "unix"; url.Opaque := ""; url.Host := "";
     url.Path := path; url.RawQuery := ""; url.Fragment := "" |}.

Definition record_of (config : Config) (target : string) (expireTime : Timestamp)
  : registryapi.NetworkServiceEndpoint :=
  {| registryapi.Name := Name config;
     registryapi.NetworkServiceNames := [NSName config];
     registryapi.Url := target;
     registryapi.ExpirationTime := expireTime |}.

(** The record handed to [Register], in terms of the loaded configuration,
    the address given to [ListenAndServe], and the last clock reading. *)
Definition submits_record (acc : list Event) : Prop :=
  forall nse, find_ev sel_register acc = Some nse ->
    exists config u ch now target expireTime,
      find_ev sel_loaded acc = Some config /\
      find_ev sel_listen acc = Some (u, ch) /\
      find_ev sel_now (rev acc) = Some now /\
      In (EvOp 0 (grpcutils_URLToTarget u) target) acc /\
      In (EvOp 0 (ptypes_TimestampProto (Time_Add now (MaxTokenLifetime config)))
            (Ok expireTime)) acc /\
      nse = record_of config target expireTime.

(** The address given to [ListenAndServe], in terms of the directory that
    [ioutil.TempDir] made. *)
Definition listens_in_tmpdir (acc : list Event) : Prop :=
  forall u ch, find_ev sel_listen acc = Some (u, ch) ->
    exists tmpDir joined,
      find_ev sel_tmpdir acc = Some tmpDir /\
      In (EvOp 0 (ioutil_TempDir "" "sriov-forwarder") (Ok tmpDir)) acc /\
      In (EvOp 0 (path_Join tmpDir "listen_on.io.sock") joined) acc /\
      u = unix_URL joined.

(** *** The failures of phase 8 *)

Definition registry_message (err : error) : Message :=
  Msgf "failed to connect to registry: %+v" [AErr (Some err)].

Definition registry_fatal (ph : nat) (ev : Event) (rest : list Event) : Prop :=
  match registry_call ev with
  | Some _ =>
      ph = 8%nat /\
      match registry_failure ev with
      | Some err => rest = [] \/ rest = [EvFatal 0 (registry_message err)]
      | None => True
      end
  | None =>
      if Nat.eqb ph 8 then failure ev = None else True
  end.

Definition registry_fatal_next (p : Prog) (ph : nat) (ev : Event) : Prop :=
  match registry_failure ev with
  | Some err => awaits_fatal p = Some (registry_message err)
  | None => True
  end.

Definition registry_fails (acc : list Event) (p : Prog) : Prop :=
  scan registry_fatal 0 acc /\ at_end (registry_fatal_next p) acc.

(** *** Running *)

Definition completed_message (since : Duration) : Message :=
  Msgf "Startup completed in %v" [ADuration since].

(** What follows a successful [Register]: the elapsed time since the
    first clock reading [starttime] is read and logged, then the wait for
    the context. *)
Definition running_follows (starttime : option Time) (ph : nat) (ev : Event)
  (rest : list Event) : Prop :=
  if register_ok ev then
    exists t0, starttime = Some t0 /\
    match rest with
    | [] => True
    | e1 :: rest1 =>
        exists since, e1 = EvOp 0 (time_Since t0) since /\
        match rest1 with
        | [] => True
        | e2 :: rest2 =>
            e2 = EvOp 0 (log_Entry InfoLevel (completed_message since)) tt /\
            match rest2 with
            | [] => True
            | e3 :: _ => e3 = EvOp 0 ctx_Done tt
            end
        end
    end
  else True.

(** What [main] is about to do at each of these points. *)
Definition running_next (starttime : option Time) (acc : list Event) (p : Prog)
  : Prop :=
  at_end (fun _ ev =>
            if register_ok ev then
              exists t0, starttime = Some t0 /\ awaits_since p = Some t0
            else True) acc /\
  at_end (fun _ ev =>
            if completes ev then awaits_done p = true else True) acc /\
  match rev acc with
  | e1 :: e0 :: _ =>
      if register_ok e0 then
        exists t0 since, e1 = EvOp 0 (time_Since t0) since /\
                         awaits_log p = Some (completed_message since)
      else True
  | _ => True
  end.

(** The success message is logged at most once, and not before a
    successful [Register]. *)
Definition runs (acc : list Event) (p : Prog) : Prop :=
  scan (running_follows (find_ev sel_now acc)) 0 acc /\
  running_next (find_ev sel_now acc) acc p /\
  (length (List.filter completes acc) <= 1)%nat /\
  (List.filter completes acc <> [] -> List.filter register_ok acc <> []).

(** *** The hardware configuration *)

(** What has happened to the store of hardware configurations: nothing; or
    the configured file was read; or it was read and then discovery was run
    on the object the read returned.  A pool constructor is only reached in
    the last case, after discovery succeeded, and is given that object. *)
Definition hardware_store (acc : list Event) (p : Prog) : Prop :=
  match store_ops acc with
  | [] => pool_ctor p = None
  | [SRead file ptr] =>
      pool_ctor p = None /\
      exists config, find_ev sel_loaded acc = Some config /\
                     file = SRIOVConfigFile config
  | [SRead file ptr; SUpdate devs drvs ptr' err] =>
      (exists config, find_ev sel_loaded acc = Some config /\
                      file = SRIOVConfigFile config /\
                      devs = PCIDevicesPath config /\
                      drvs = PCIDriversPath config) /\
      ptr' = ptr /\
      (forall q, pool_ctor p = Some q ->
                 q = ptr /\ err = None /\ phase_of acc = 3%nat)
  | _ => False
  end.

(** The file is read and discovery is run in phase 2. *)
Definition hardware_phase (ph : nat) (ev : Event) (rest : list Event) : Prop :=
  if hardware_call ev then ph = 2%nat else True.

Definition hardware (acc : list Event) (p : Prog) : Prop :=
  hardware_store acc p /\ scan hardware_phase 0 acc.

(** *** The configuration *)

(** Phase 1 is left only after the usage text was printed and the
    configuration was loaded, both without error; a failure in phase 1 is
    one of these two calls. *)
Definition config_first (ph : nat) (ev : Event) (rest : list Event) : Prop :=
  if Nat.eqb ph 1 then
    match failure ev with
    | Some _ =>
        sel_usage ev <> None \/
        exists r, sel_process ev = Some ("nsm", zero_Config, r)
    | None => True
    end
  else True.

Definition configures (acc : list Event) : Prop :=
  scan config_first 0 acc /\
  (Nat.leb 2 (phase_of acc) = true ->
   find_ev sel_usage acc = Some None /\
   exists config, find_ev sel_loaded acc = Some config /\
     In (EvOp 0 (envconfig_Process "nsm" zero_Config) (config, None)) acc).

(** *** The temporary directory *)

(** [os.RemoveAll] is only called on the directory [ioutil.TempDir] made,
    and not on a path that ends in a fatal log. *)
Definition cleans_up (acc : list Event) : Prop :=
  (forall path, find_ev sel_remove acc = Some path ->
                find_ev sel_tmpdir acc = Some path) /\
  (find_ev sel_fatal acc <> None -> find_ev sel_remove acc = None).

(** *** All of it *)

Definition main_static (acc : list Event) (p : Prog) : Prop :=
  fails_fast acc p /\ checks_first acc p /\ spawns_once acc /\
  submits_record acc /\ listens_in_tmpdir acc /\ registry_fails acc p /\
  runs acc p /\ hardware acc p /\ configures acc /\ cleans_up acc.

(** ** The two kinds of goroutine *)

Section Roles.
(** [Pm] is required of [main], [Pc] of a goroutine started with [go],
    which starts none itself. *)
Variables Pm Pc : list Event -> Prog -> Prop.

Definition child_ok (body : Prog) : Prop :=
  forall tid, all_paths tid Pc (fun _ => False) body (fun _ => True) [].

Definition P_of (i : nat) : list Event -> Prog -> Prop :=
  match i with O => Pm | S _ => Pc end.

Definition Q_of (i : nat) : Prog -> Prop :=
  match i with O => child_ok | S _ => fun _ => False end.

(** When [main] returns the process exits. *)
Definition K_of (i : nat) : list Event -> Prop :=
  match i with
  | O => fun acc => Pm (acc ++ [EvExit 0]) Ret
  | S _ => fun _ => True
  end.

Definition main_ok : Prop := all_paths 0 Pm child_ok main (K_of 0) [].
End Roles.

(** * Invariants, worlds and schedules *)

(** The record of the [default] tags, as Go's [time.ParseDuration] and
    [url.Parse] decode them. *)
Definition default_Config : Config :=
  {| Name := "interpose-nse#sriov-forwarder";
     NSName := "sriovns";
     ConnectTo :=
       {| url.Scheme := "unix"; url.Opaque := ""; url.Host := "";
          url.Path := "/connect.to.socket"; url.RawQuery := "";
          url.Fragment := "" |};
     MaxTokenLifetime := 24 * Hour;
     ResourcePollTimeout := 30 * Second;
     DevicePluginPath := "/var/lib/kubelet/device-plugins/";
     PodResourcesPath := "/var/lib/kubelet/pod-resources/";
     SRIOVConfigFile := "pci.config";
     PCIDevicesPath := "/sys/bus/pci/devices";
     PCIDriversPath := "/sys/bus/pci/drivers";
     CgroupPath := "/host/sys/fs/cgroup/devices";
     VFIOPath := "/host/dev/vfio" |}.

Section Invariants.
Context {SriovConfig : Type}.
Implicit Types (w : @World SriovConfig) (st : @State SriovConfig).

(** What a step can do to a state that has not exited. *)
Inductive Stepped w st : State -> Prop :=
| Stepped_idle : Stepped w st st
| Stepped_op tid th R (o : op R) k r st' :
    threads st !! tid = Some th -> t_prog th = Vis o k ->
    exec w st o = Some (r, st') ->
    Stepped w st
      (set_thread tid {| t_prog := k r; t_defers := t_defers th |}
         (log (EvOp tid o r) st'))
| Stepped_deferred tid th d ds :
    threads st !! tid = Some th -> t_prog th = Ret -> t_defers th = d :: ds ->
    Stepped w st (set_thread tid {| t_prog := d; t_defers := ds |} st)
| Stepped_exit th :
    threads st !! 0%nat = Some th -> t_prog th = Ret -> t_defers th = [] ->
    Stepped w st (set_exited (Some 0) (log (EvExit 0) st))
| Stepped_fatal tid th m :
    threads st !! tid = Some th -> t_prog th = LogFatal m ->
    Stepped w st (set_exited (Some 1) (log (EvFatal tid m) st))
| Stepped_go tid th body k :
    threads st !! tid = Some th -> t_prog th = Go body k ->
    Stepped w st
      (set_threads
         (<[tid := {| t_prog := k; t_defers := t_defers th |}]> (threads st)
            ++ [{| t_prog := body; t_defers := [] |}])
         (log (EvGo tid (length (threads st))) st))
| Stepped_defer tid th body k :
    threads st !! tid = Some th -> t_prog th = Defer body k ->
    Stepped w st
      (set_thread tid {| t_prog := k; t_defers := body :: t_defers th |}
         (log (EvDefer tid) st))
| Stepped_signal : Stepped w st (set_signalled true (log EvSignal st))
| Stepped_send ch c err :
    chans st !! ch = Some c -> buf c = None -> closed c = false ->
    Stepped w st
      (set_chans (<[ch := {| buf := Some err; closed := false |}]> (chans st))
         (log (EvSend ch err) st))
| Stepped_close ch c :
    chans st !! ch = Some c -> closed c = false ->
    Stepped w st
      (set_chans (<[ch := {| buf := buf c; closed := true |}]> (chans st))
         (log (EvClose ch) st)).

Definition alive (tr : list Event) : Prop :=
  Forall (fun ev => is_terminal ev = false) tr.

Definition exit_inv st : Prop :=
  match exited st with
  | None => alive (trace st)
  | Some z =>
      exists tr ev, trace st = tr ++ [ev] /\ alive tr /\
        ((z = 1 /\ exists tid m, ev = EvFatal tid m) \/ (z = 0 /\ ev = EvExit 0))
  end.

(** What a goroutine other than [main] does: receive, log an error, cancel. *)
Definition watcher_event (ev : Event) : bool :=
  match sel_recv ev, sel_errlog ev with
  | Some _, _ | _, Some _ => true
  | None, None => is_cancel ev
  end.

(** The result of a call whose outcome the world fixes. *)
Definition answers w (ev : Event) : Prop :=
  match ev with
  | EvOp _ o r =>
      match o in op R return R -> Prop with
      | debug_Self => fun r => r = w_debug_Self w
      | envconfig_Usage _ _ => fun r => r = w_Usage w
      | envconfig_Process prefix spec => fun r => r = Process w prefix spec
      | ioutil_TempDir dir pattern => fun r => r = w_TempDir w dir pattern
      | path_Join a b => fun r => r = w_path_Join w a b
      | grpcutils_URLToTarget u => fun r => r = w_URLToTarget w u
      | grpc_DialContext target _ => fun r => r = w_DialContext w target
      | ptypes_TimestampProto t => fun r => r = w_TimestampProto w t
      | registry_Register _ nse => fun r => r = w_Register w nse
      | _ => fun _ => True
      end r
  | _ => True
  end.

(** The context is done exactly when a signal arrived or [cancel] was
    called, and a wait on it has only completed when it was done. *)
Definition done_inv st : Prop :=
  (Exists (fun ev => is_done_wait ev = true) (trace st) -> ctx_done st = true) /\
  (ctx_done st = true ->
   Exists (fun ev => ev = EvSignal \/ is_cancel ev = true) (trace st)).

Definition emitted (ch : ErrChan) (tr : list Event) : Prop :=
  Exists (fun ev => emits_on ch ev = true) tr.

Definition listened (ch : ErrChan) (tr : list Event) : Prop :=
  Exists (fun ev => exists u, sel_listen ev = Some (u, ch)) tr.

(** A receive comes after [ListenAndServe] returned its channel and after
    the transport task sent on it or closed it. *)
Definition recv_after (tr : list Event) : Prop :=
  forall pre ev post ch v,
    tr = pre ++ ev :: post -> sel_recv ev = Some (ch, v) ->
    listened ch pre /\ emitted ch pre.

Definition chan_inv st : Prop :=
  (forall ch c, chans st !! ch = Some c -> listened ch (trace st)) /\
  (forall ch c, chans st !! ch = Some c ->
                buf c <> None \/ closed c = true -> emitted ch (trace st)) /\
  recv_after (trace st) /\
  length (threads st) = S (length (List.filter is_go (trace st))).

(** The store after the given effects, when the world can have produced
    them: a read allocates what the world reads from the file at the next
    free pointer, a discovery replaces the object by what the world makes of
    it and returns the world's error. *)
Fixpoint replay w (ops : list StoreOp) (store : list SriovConfig)
  : option (list SriovConfig) :=
  match ops with
  | [] => Some store
  | SRead file ptr :: rest =>
      match w_ReadConfig w file with
      | Ok c =>
          if decide (ptr = length store) then replay w rest (store ++ [c])
          else None
      | Failed _ => None
      end
  | SUpdate devs drvs ptr err :: rest =>
      match store !! ptr with
      | Some c =>
          let updated := w_UpdateConfig w devs drvs c in
          if decide (err = snd updated)
          then replay w rest (<[ptr := fst updated]> store)
          else None
      | None => None
      end
  end.

(** What an event does to the directories that exist. *)
Definition dir_effect w (dirs : list string) (ev : Event) : list string :=
  match sel_tmpdir ev, sel_remove ev with
  | Some name, _ => name :: dirs
  | None, Some path =>
      match w_RemoveAll w path with
      | None => remove_dir path dirs
      | Some _ => dirs
      end
  | None, None => dirs
  end.

Definition dirs_of w (tr : list Event) : list string :=
  fold_left (dir_effect w) tr [].

(** The decoders of the world read the three default tags that are not
    plain text the way Go's do. *)
Definition accepts_defaults w : Prop :=
  time_ParseDuration w "24h" = Ok (24 * Hour) /\
  time_ParseDuration w "30s" = Ok (30 * Second) /\
  url_Parse w "unix:///connect.to.socket" = Ok (ConnectTo default_Config).

(** The variable of a field is set, and its text is not of the type of the
    field. *)
Definition malformed w (prefix : string) (f : Field) (err : error) : Prop :=
  exists value,
    environ w !! envconfig_key w prefix (field_name f) (tag_split_words f)
      = Some value /\
    match field_kind f with
    | KString => False
    | KURL => url_Parse w value = Failed err
    | KDuration => time_ParseDuration w value = Failed err
    end.

End Invariants.

(** ** Example worlds and schedules *)

(** A world over configurations kept as text, in which every call succeeds
    unless one of the arguments says otherwise. *)
Definition example_world (env : gmap string string) (usage : option error)
  (read : result string) (dial : result ClientConn)
  (stamp : Time -> result Timestamp) (register : option error)
  : @World string :=
  {| environ := env;
     clock := fun n => 1000 * Z.of_nat n;
     envconfig_key := fun prefix name _ => (prefix ++ "_" ++ name)%string;
     time_ParseDuration := fun s =>
       if decide (s = "24h") then Ok (24 * Hour)
       else if decide (s = "30s") then Ok (30 * Second)
       else Failed "time: invalid duration";
     url_Parse := fun s =>
       if decide (s = "unix:///connect.to.socket")
       then Ok {| url.Scheme := "unix"; url.Opaque := ""; url.Host := "";
                  url.Path := "/connect.to.socket"; url.RawQuery := "";
                  url.Fragment := "" |}
       else Failed "parse: invalid URL";
     w_path_Join := fun a b => (a ++ "/" ++ b)%string;
     w_URLToTarget := fun u => (url.Scheme u ++ "://" ++ url.Path u)%string;
     w_TimestampProto := stamp;
     w_InitJaeger := fun _ => 0%nat;
     w_Close := fun _ => None;
     w_debug_Self := None;
     w_Usage := usage;
     w_ReadConfig := fun _ => read;
     w_UpdateConfig := fun _ _ c => ((c ++ "+vfs")%string, None);
     w_token_NewPool := fun _ => 1%nat;
     w_pci_NewPool := fun _ _ _ _ => Ok 2%nat;
     w_resource_NewPool := fun _ _ => 3%nat;
     w_NewManager := fun _ _ => 4%nat;
     w_StartServers := fun _ _ _ => None;
     w_NewX509Source := Ok 5%nat;
     w_GetX509SVID := fun _ => Ok {| ID := "spiffe://example.org/forwarder" |};
     w_sriovns_NewServer := fun _ => 6%nat;
     w_TempDir := fun _ pattern => Ok ("/tmp/" ++ pattern ++ "123")%string;
     w_RemoveAll := fun _ => None;
     w_grpc_NewServer := fun _ => 7%nat;
     w_DialContext := fun _ => dial;
     w_NewRegistryClient := fun _ => 9%nat;
     w_Register := fun _ => register |}.

Definition stamp_ok (t : Time) : result Timestamp :=
  Ok {| Seconds := t / 1000000000; Nanos := t mod 1000000000 |}.

(** Every call succeeds. *)
Definition world_ok : @World string :=
  example_world ∅ None (Ok "pfs") (Ok 8%nat) stamp_ok None.

(** The hardware configuration file cannot be read. *)
Definition world_no_file : @World string :=
  example_world ∅ None (Failed "open pci.config: no such file") (Ok 8%nat)
    stamp_ok None.

(** [n] steps of [main]. *)
Definition main_steps (n : nat) : list Sched := replicate n (Run 0%nat).

(** A pending error of the transport server when [main] checks. *)
Definition sched_bind_failure : list Sched :=
  main_steps 49 ++ [TransportSend 0%nat (Some "listen unix: bind: address already in use")]
    ++ main_steps 1.

(** The registry cannot be dialed. *)
Definition world_no_dial : @World string :=
  example_world ∅ None (Ok "pfs") (Failed "context deadline exceeded")
    stamp_ok None.

(** The expiration time cannot be converted. *)
Definition world_bad_stamp : @World string :=
  example_world ∅ None (Ok "pfs") (Ok 8%nat)
    (fun _ => Failed "timestamp: after 10000-01-01") None.

(** The registry refuses the registration. *)
Definition world_no_register : @World string :=
  example_world ∅ None (Ok "pfs") (Ok 8%nat) stamp_ok
    (Some "rpc error: code = Unavailable").

(** The transport server fails after start-up: the watcher receives the
    error, logs it and cancels. *)
Definition sched_late_failure : list Sched :=
  main_steps 62 ++ [TransportSend 0%nat (Some "accept: use of closed network connection")]
    ++ replicate 3 (Run 1%nat).

(** Printing the usage fails: standard output is closed. *)
Definition world_no_usage : @World string :=
  example_world ∅ (Some "write /dev/stdout: bad file descriptor") (Ok "pfs")
    (Ok 8%nat) stamp_ok None.

(** * More of what [main] does *)

(** ** Selecting events *)

(** The closer [jaeger.InitJaeger] returned. *)
Definition sel_jaeger (ev : Event) : option Closer :=
  match ev with
  | EvOp _ o r =>
      match o in op R return R -> option Closer with
      | jaeger_InitJaeger _ => fun r => Some r
      | _ => fun _ => None
      end r
  | _ => None
  end.

(** What [debug.Self] returned. *)
Definition sel_debug (ev : Event) : option (option error) :=
  match ev with
  | EvOp _ o r =>
      match o in op R return R -> option (option error) with
      | debug_Self => fun r => Some r
      | _ => fun _ => None
      end r
  | _ => None
  end.

(** The last argument of a log entry. *)
Definition last_arg (ev : Event) : option LogArg :=
  match ev with
  | EvOp _ o _ =>
      match o with
      | log_Entry _ m => last (msg_args m)
      | _ => None
      end
  | _ => None
  end.

(** The first event that is a call of the given kind. *)
Definition pick (kind : Event -> bool) (ev : Event) : option Event :=
  if kind ev then Some ev else None.

Definition is_pci_pool (ev : Event) : bool :=
  match ev with
  | EvOp _ o _ => match o with pci_NewPool _ _ _ _ => true | _ => false end
  | _ => false
  end.

Definition is_resource_pool (ev : Event) : bool :=
  match ev with
  | EvOp _ o _ => match o with resource_NewPool _ _ => true | _ => false end
  | _ => false
  end.

Definition is_start_servers (ev : Event) : bool :=
  match ev with
  | EvOp _ o _ =>
      match o with deviceplugin_StartServers _ _ _ => true | _ => false end
  | _ => false
  end.

Definition is_endpoint (ev : Event) : bool :=
  match ev with
  | EvOp _ o _ =>
      match o with sriovns_NewServer _ _ _ _ _ _ _ _ _ => true | _ => false end
  | _ => false
  end.

Definition is_serve (ev : Event) : bool :=
  match ev with
  | EvOp _ o _ =>
      match o with grpcutils_ListenAndServe _ _ => true | _ => false end
  | _ => false
  end.

Definition is_dial (ev : Event) : bool :=
  match ev with
  | EvOp _ o _ => match o with grpc_DialContext _ _ => true | _ => false end
  | _ => false
  end.

Definition is_register (ev : Event) : bool :=
  match ev with
  | EvOp _ o _ => match o with registry_Register _ _ => true | _ => false end
  | _ => false
  end.

(** An effect on the temporary directories: a successful [ioutil.TempDir]
    or a call of [os.RemoveAll]. *)
Inductive DirOp : Type :=
| DMake (name : string)
| DRemove (path : string).

Definition dir_op (ev : Event) : option DirOp :=
  match sel_tmpdir ev, sel_remove ev with
  | Some name, _ => Some (DMake name)
  | None, Some path => Some (DRemove path)
  | None, None => None
  end.

Definition dir_ops (acc : list Event) : list DirOp := omap dir_op acc.

(** ** Properties of the events of [main] *)

(** *** Returning *)

(** [main] makes one directory and removes nothing else, once. *)
Definition dirs_shape (acc : list Event) : Prop :=
  match dir_ops acc with
  | [] | [DMake _] => True
  | [DMake name; DRemove path] => path = name
  | _ => False
  end.

(** When [main] has returned, the last things it did are the wait for the
    context and the two deferred calls, the last deferred first: the
    removal of the directory it made, then the close of the tracer. *)
Definition returns (acc : list Event) : Prop :=
  match rev acc with
  | EvExit z :: rest =>
      z = 0 /\
      match rest with
      | e3 :: e2 :: e1 :: _ =>
          e1 = EvOp 0 ctx_Done tt /\
          (exists tmpDir r,
             e2 = EvOp 0 (os_RemoveAll tmpDir) r /\
             dir_ops acc = [DMake tmpDir; DRemove tmpDir]) /\
          (exists closer r,
             e3 = EvOp 0 (io_Close closer) r /\
             find_ev sel_jaeger acc = Some closer)
      | _ => False
      end
  | _ => True
  end.

(** *** Fatal logs *)

(** A fatal log comes right after a call that failed during start-up, and
    logs the error of that call. *)
Definition fatal_caused (acc : list Event) : Prop :=
  match rev acc with
  | EvFatal _ m :: rest =>
      match rest with
      | ev :: pre =>
          in_startup (phase_of (rev pre)) = true /\
          exists v, failure ev = Some v /\ msg_args m = [AErr v]
      | [] => False
      end
  | _ => True
  end.

(** The format [main] logs the failure of a call with; [None] where it
    calls [Fatal] on the error alone. *)
Definition fatal_format (ev : Event) : option string :=
  match ev with
  | EvOp _ o _ =>
      match o with
      | envconfig_Process _ _ => Some "error processing config from env: %+v"
      | sriovconfig_ReadConfig _ =>
          Some "failed to get PCI resources config: %+v"
      | pci_UpdateConfig _ _ _ =>
          Some "failed to update PCI resources config with VFs: %+v"
      | pci_NewPool _ _ _ _ => Some "failed to init PCI pool: %+v"
      | deviceplugin_StartServers _ _ _ =>
          Some "failed to start a device plugin server: %+v"
      | workloadapi_NewX509Source => Some "error getting x509 source: %+v"
      | GetX509SVID _ => Some "error getting x509 svid: %+v"
      | ioutil_TempDir _ _ => Some "error creating tmpDir: %+v"
      | grpc_DialContext _ _ | ptypes_TimestampProto _
      | registry_Register _ _ => Some "failed to connect to registry: %+v"
      | _ => None
      end
  | _ => None
  end.

Definition fatal_message (ev : Event) (v : option error) : Message :=
  match fatal_format ev with
  | Some format => Msgf format [AErr v]
  | None => Msg [AErr v]
  end.

Definition fatal_worded (ph : nat) (ev : Event) (rest : list Event) : Prop :=
  if in_startup ph then
    match failure ev with
    | Some v => rest = [] \/ rest = [EvFatal 0 (fatal_message ev v)]
    | None => True
    end
  else True.

(** *** The log of the phases *)

(** The announcements of the eight phases. *)
Definition phase_formats : list string :=
  [ "executing phase 1: get config from environment (time since start: %s)";
    "executing phase 2: get SR-IOV config from file (time since start: %s)";
    "executing phase 3: init pools (time since start: %s)";
    "executing phase 4: start device plugin server (time since start: %s)";
    "executing phase 5: retrieving svid, check spire agent logs if this is the last line you see (time since start: %s)";
    "executing phase 6: create sriovns network service endpoint (time since start: %s)";
    "executing phase 7: create grpc server and register sriovns (time since start: %s)";
    "executing phase 8: register %s with the registry (time since start: %s)" ].

(** An announcement made in phase [ph] is that of phase [ph + 1]; the
    success message is logged in phase 8. *)
Definition announced_in_order (ph : nat) (ev : Event) (rest : list Event)
  : Prop :=
  (if announces ev then info_format ev = nth_error phase_formats ph else True) /\
  (if completes ev then ph = 8%nat else True).

(** The line that announces a phase or the end of start-up comes right
    after a reading of the time elapsed since the first clock reading, and
    its last argument is that reading. *)
Definition elapsed_logged (starttime : option Time) (ph : nat) (ev : Event)
  (rest : list Event) : Prop :=
  match rest with
  | e' :: _ =>
      if announces e' || completes e' then
        exists t0 d, starttime = Some t0 /\ sel_since ev = Some (t0, d) /\
                     last_arg e' = Some (ADuration d)
      else True
  | [] => True
  end.

Definition timed (acc : list Event) : Prop :=
  scan (elapsed_logged (find_ev sel_now acc)) 0 acc /\
  match acc with
  | ev :: _ => announces ev || completes ev = false
  | [] => True
  end.

(** *** [debug.Self] *)

(** An error of [debug.Self] is logged at info level, and whether it
    failed or not the next thing is the first reading of the clock. *)
Definition debug_logged (ph : nat) (ev : Event) (rest : list Event) : Prop :=
  match sel_debug ev with
  | Some (Some err) =>
      match rest with
      | [] => True
      | e1 :: rest1 =>
          e1 = EvOp 0 (Infof "%s" [AErr (Some err)]) tt /\
          match rest1 with
          | [] => True
          | e2 :: _ => exists t, sel_now e2 = Some t
          end
      end
  | Some None =>
      match rest with
      | [] => True
      | e1 :: _ => exists t, sel_now e1 = Some t
      end
  | None => True
  end.

Definition debug_next (p : Prog) (ph : nat) (ev : Event) : Prop :=
  match sel_debug ev with
  | Some (Some err) => awaits_log p = Some (Msgf "%s" [AErr (Some err)])
  | _ => True
  end.

Definition debugs (acc : list Event) (p : Prog) : Prop :=
  scan debug_logged 0 acc /\ at_end (debug_next p) acc.

(** *** What the calls are given *)

(** The PCI pool is made from the paths of the configuration and the
    object that was read; the resource pool from the token pool; the
    device plugin servers are given the token pool, the poll timeout of the
    configuration, and the manager of its two paths. *)
Definition wires_pools (acc : list Event) : Prop :=
  (forall ev, find_ev (pick is_pci_pool) acc = Some ev ->
     exists config sriovConfig made,
       find_ev sel_loaded acc = Some config /\
       In (EvOp 0 (sriovconfig_ReadConfig (SRIOVConfigFile config))
             (Ok sriovConfig)) acc /\
       ev = EvOp 0 (pci_NewPool (PCIDevicesPath config) (PCIDriversPath config)
                      (VFIOPath config) sriovConfig) made) /\
  (forall ev, find_ev (pick is_resource_pool) acc = Some ev ->
     exists config sriovConfig tokenPool resourcePool,
       find_ev sel_loaded acc = Some config /\
       In (EvOp 0 (sriovconfig_ReadConfig (SRIOVConfigFile config))
             (Ok sriovConfig)) acc /\
       In (EvOp 0 (token_NewPool sriovConfig) tokenPool) acc /\
       ev = EvOp 0 (resource_NewPool tokenPool sriovConfig) resourcePool) /\
  (forall ev, find_ev (pick is_start_servers) acc = Some ev ->
     exists config sriovConfig tokenPool manager err,
       find_ev sel_loaded acc = Some config /\
       In (EvOp 0 (sriovconfig_ReadConfig (SRIOVConfigFile config))
             (Ok sriovConfig)) acc /\
       In (EvOp 0 (token_NewPool sriovConfig) tokenPool) acc /\
       In (EvOp 0 (k8s_NewManager (DevicePluginPath config)
                     (PodResourcesPath config)) manager) acc /\
       ev = EvOp 0 (deviceplugin_StartServers tokenPool
                      (ResourcePollTimeout config) manager) err).

(** The endpoint is made from the configuration, the X.509 source, the two
    pools and the hardware configuration; the server that is started
    serves that endpoint with the credentials of that source. *)
Definition wires_endpoint (acc : list Event) : Prop :=
  (forall ev, find_ev (pick is_endpoint) acc = Some ev ->
     exists config source sriovConfig tokenPool pciPool resourcePool endpoint,
       find_ev sel_loaded acc = Some config /\
       In (EvOp 0 workloadapi_NewX509Source (Ok source)) acc /\
       In (EvOp 0 (sriovconfig_ReadConfig (SRIOVConfigFile config))
             (Ok sriovConfig)) acc /\
       In (EvOp 0 (pci_NewPool (PCIDevicesPath config) (PCIDriversPath config)
                     (VFIOPath config) sriovConfig) (Ok pciPool)) acc /\
       In (EvOp 0 (resource_NewPool tokenPool sriovConfig) resourcePool) acc /\
       ev = EvOp 0 (sriovns_NewServer (Name config) source
                      (MaxTokenLifetime config) pciPool resourcePool sriovConfig
                      (VFIOPath config) (CgroupPath config) (ConnectTo config))
              endpoint) /\
  (forall ev, find_ev (pick is_serve) acc = Some ev ->
     exists source endpoint server u ch,
       In (EvOp 0 workloadapi_NewX509Source (Ok source)) acc /\
       In (EvOp 0 (grpc_NewServer source) server) acc /\
       In (EvOp 0 (Endpoint_Register endpoint server) tt) acc /\
       find_ev (pick is_endpoint) acc <> None /\
       (forall ev', find_ev (pick is_endpoint) acc = Some ev' ->
                    exists name src life pp rp cfg vfio cg ct,
                      ev' = EvOp 0 (sriovns_NewServer name src life pp rp cfg
                                      vfio cg ct) endpoint) /\
       ev = EvOp 0 (grpcutils_ListenAndServe u server) ch).

(** The registry is dialed at the target of [ConnectTo] with the
    credentials of the X.509 source, and the record is submitted on the
    client of that connection. *)
Definition wires_registry (acc : list Event) : Prop :=
  (forall ev, find_ev (pick is_dial) acc = Some ev ->
     exists config source target dialed,
       find_ev sel_loaded acc = Some config /\
       In (EvOp 0 workloadapi_NewX509Source (Ok source)) acc /\
       In (EvOp 0 (grpcutils_URLToTarget (ConnectTo config)) target) acc /\
       ev = EvOp 0 (grpc_DialContext target source) dialed) /\
  (forall ev, find_ev (pick is_register) acc = Some ev ->
     exists config source target registryCC registryClient nse err,
       find_ev sel_loaded acc = Some config /\
       In (EvOp 0 (grpcutils_URLToTarget (ConnectTo config)) target) acc /\
       In (EvOp 0 (grpc_DialContext target source) (Ok registryCC)) acc /\
       In (EvOp 0 (registrychain_NewNetworkServiceEndpointRegistryClient
                     registryCC) registryClient) acc /\
       ev = EvOp 0 (registry_Register registryClient nse) err).

(** Each of these calls is made at most once. *)
Definition calls_once (acc : list Event) : Prop :=
  (length (List.filter is_pci_pool acc) <= 1)%nat /\
  (length (List.filter is_resource_pool acc) <= 1)%nat /\
  (length (List.filter is_start_servers acc) <= 1)%nat /\
  (length (List.filter is_endpoint acc) <= 1)%nat /\
  (length (List.filter is_serve acc) <= 1)%nat /\
  (length (List.filter is_dial acc) <= 1)%nat /\
  (length (List.filter is_register acc) <= 1)%nat.

(** The configuration is what [envconfig.Process] made of the zero record
    under the prefix [nsm]. *)
Definition loads (acc : list Event) : Prop :=
  forall config, find_ev sel_loaded acc = Some config ->
    In (EvOp 0 (envconfig_Process "nsm" zero_Config) (config, None)) acc.

(** *** All of it *)

Definition main_more (acc : list Event) (p : Prog) : Prop :=
  loads acc /\ calls_once acc /\ dirs_shape acc /\ returns acc /\ fatal_caused acc /\
  scan fatal_worded 0 acc /\ scan announced_in_order 0 acc /\ timed acc /\
  debugs acc p /\ wires_pools acc /\ wires_endpoint acc /\ wires_registry acc.

Definition anything (acc : list Event) (p : Prog) : Prop := True.

Section MoreDefs.
Context {SriovConfig : Type}.
Implicit Types (w : @World SriovConfig) (st : @State SriovConfig).

(** What an effect does to the directories that exist. *)
Definition apply_dir_op w (dirs : list string) (d : DirOp) : list string :=
  match d with
  | DMake name => name :: dirs
  | DRemove path =>
      match w_RemoveAll w path with
      | None => remove_dir path dirs
      | Some _ => dirs
      end
  end.
End MoreDefs.

Section LiveDefs.
Context {SriovConfig : Type}.
Implicit Types (w : @World SriovConfig) (st : @State SriovConfig).

(** The calls [main] makes during start-up all succeed, with [config] the
    configuration that is loaded and [tmpDir] the directory that is made.
    Each call is named with the arguments [main] gives it: the device
    plugin servers get the token pool of the discovered hardware
    configuration and the manager of the two configured paths; the
    expiration is the tenth reading of the clock ([time.Now], the eight
    [time.Since], [time.Now]) plus [MaxTokenLifetime]; the record is the
    one of C4. *)
Definition all_succeed w (config : Config) (tmpDir : string) : Prop :=
  w_Usage w = None /\
  Process w "nsm" zero_Config = (config, None) /\
  (exists c,
     w_ReadConfig w (SRIOVConfigFile config) = Ok c /\
     snd (w_UpdateConfig w (PCIDevicesPath config) (PCIDriversPath config) c)
     = None /\
     (exists pciPool,
        w_pci_NewPool w (PCIDevicesPath config) (PCIDriversPath config)
          (VFIOPath config)
          (fst (w_UpdateConfig w (PCIDevicesPath config) (PCIDriversPath config) c))
        = Ok pciPool) /\
     w_StartServers w
       (w_token_NewPool w
          (fst (w_UpdateConfig w (PCIDevicesPath config) (PCIDriversPath config) c)))
       (ResourcePollTimeout config)
       (w_NewManager w (DevicePluginPath config) (PodResourcesPath config))
     = None) /\
  (exists source svid,
     w_NewX509Source w = Ok source /\ w_GetX509SVID w source = Ok svid) /\
  w_TempDir w "" "sriov-forwarder" = Ok tmpDir /\
  (exists registryCC,
     w_DialContext w (w_URLToTarget w (ConnectTo config)) = Ok registryCC) /\
  (exists expireTime,
     w_TimestampProto w (Time_Add (clock w 9) (MaxTokenLifetime config))
     = Ok expireTime /\
     w_Register w
       (record_of config
          (w_URLToTarget w (unix_URL (w_path_Join w tmpDir "listen_on.io.sock")))
          expireTime)
     = None).

(** The state of the machine when start-up has completed and nothing else
    has happened: [main] waits for the context with its two deferred calls
    pending, the watcher waits for the channel of the transport server. *)
Definition running_state w (tr : list Event) (n : nat)
  (store : list SriovConfig) (tmpDir : string) : State :=
  {| trace := tr;
     threads :=
       [ {| t_prog := Vis ctx_Done (fun _ => Ret);
            t_defers :=
              [ Vis (os_RemoveAll tmpDir) (fun _ => Ret);
                Vis (io_Close (w_InitJaeger w "cmd-forwarder-sriov"))
                  (fun _ => Ret) ] |};
         {| t_prog := exitOnErr_func1 0%nat; t_defers := [] |} ];
     ticks := n;
     store := store;
     tmpdirs := [tmpDir];
     chans := [{| buf := None; closed := false |}];
     signalled := false;
     cancelled := false;
     exited := None |}.
End LiveDefs.

(** [debug.Self] fails; everything else succeeds. *)
Definition world_debugged : @World string :=
  {| environ := environ world_ok;
     clock := clock world_ok;
     envconfig_key := envconfig_key world_ok;
     time_ParseDuration := time_ParseDuration world_ok;
     url_Parse := url_Parse world_ok;
     w_path_Join := w_path_Join world_ok;
     w_URLToTarget := w_URLToTarget world_ok;
     w_TimestampProto := w_TimestampProto world_ok;
     w_InitJaeger := w_InitJaeger world_ok;
     w_Close := w_Close world_ok;
     w_debug_Self := Some "dlv: executable not found";
     w_Usage := w_Usage world_ok;
     w_ReadConfig := w_ReadConfig world_ok;
     w_UpdateConfig := w_UpdateConfig world_ok;
     w_token_NewPool := w_token_NewPool world_ok;
     w_pci_NewPool := w_pci_NewPool world_ok;
     w_resource_NewPool := w_resource_NewPool world_ok;
     w_NewManager := w_NewManager world_ok;
     w_StartServers := w_StartServers world_ok;
     w_NewX509Source := w_NewX509Source world_ok;
     w_GetX509SVID := w_GetX509SVID world_ok;
     w_sriovns_NewServer := w_sriovns_NewServer world_ok;
     w_TempDir := w_TempDir world_ok;
     w_RemoveAll := w_RemoveAll world_ok;
     w_grpc_NewServer := w_grpc_NewServer world_ok;
     w_DialContext := w_DialContext world_ok;
     w_NewRegistryClient := w_NewRegistryClient world_ok;
     w_Register := w_Register world_ok |}.

(** The service name is set in the environment. *)
Definition world_named : @World string :=
  example_world {[ "nsm_NSName" := "my-service" ]} None (Ok "pfs") (Ok 8%nat)
    stamp_ok None.

(** A signal arrives when start-up has completed. *)
Definition sched_signal : list Sched := main_steps 62 ++ [Signal] ++ main_steps 6.

(** * Proofs *)

(** ** Every path of a program, soundly *)

Lemma all_paths_here tid P Q p K acc : all_paths tid P Q p K acc -> P acc p.
Proof. destruct p; simpl; tauto. Qed.

Section Soundness.
Context {SriovConfig : Type}.
Variables Pm Pc : list Event -> Prog -> Prop.

Definition thread_inv (st : @State SriovConfig) (i : nat) (th : Thread) : Prop :=
  match exited st with
  | None =>
      all_paths i (P_of Pm Pc i) (Q_of Pc i) (t_prog th)
        (after_defers i (P_of Pm Pc i) (Q_of Pc i) (t_defers th) (K_of Pm i))
        (events_of i (trace st))
  | Some _ => P_of Pm Pc i (events_of i (trace st)) (t_prog th)
  end.

Definition paths_inv (st : @State SriovConfig) : Prop :=
  (forall i th, threads st !! i = Some th -> thread_inv st i th) /\
  (forall i, (length (threads st) <= i)%nat -> events_of i (trace st) = []).

Lemma events_of_app i tr1 tr2 :
  events_of i (tr1 ++ tr2) = events_of i tr1 ++ events_of i tr2.
Proof. apply List.filter_app. Qed.

Lemma events_of_snoc_own i tr ev :
  tid_of ev = Some i -> events_of i (tr ++ [ev]) = events_of i tr ++ [ev].
Proof.
  intros H. rewrite events_of_app. simpl. unfold belongs. rewrite H.
  rewrite Nat.eqb_refl. reflexivity.
Qed.

Lemma events_of_snoc_other i tr ev :
  tid_of ev <> Some i -> events_of i (tr ++ [ev]) = events_of i tr.
Proof.
  intros H. rewrite events_of_app. simpl. unfold belongs.
  destruct (tid_of ev) as [t|]; [|by rewrite app_nil_r].
  destruct (Nat.eqb_spec t i); [congruence|by rewrite app_nil_r].
Qed.

Lemma exec_frame (w : World) (st st' : @State SriovConfig) R (o : op R) r :
  exec w st o = Some (r, st') ->
  trace st' = trace st /\ threads st' = threads st /\ exited st' = exited st.
Proof.
  destruct o; simpl; intros H; repeat case_match; simplify_eq; auto.
Qed.

Lemma paths_inv_step w x st : paths_inv st -> paths_inv (step w x st).
Proof.
  intros [Hth Hfresh]. unfold step.
  destruct (exited st) as [z|] eqn:Hex; [by split|].
  destruct x as [tid| |ch err|ch].
  - destruct (threads st !! tid) as [th|] eqn:Hlook; [|by split].
    pose proof (Hth _ _ Hlook) as Hinv. unfold thread_inv in Hinv.
    rewrite Hex in Hinv.
    assert (Hlt : (tid < length (threads st))%nat) by (eapply lookup_lt_Some; eauto).
    unfold step_thread. destruct th as [p ds]. simpl in *.
    destruct p as [|m|R o k|body k|body k]; simpl in Hinv.
    + destruct ds as [|d ds].
      * case_decide; [|by split]. subst tid. split.
        -- intros i th Hi. simpl in Hi. unfold thread_inv. simpl.
           destruct (decide (i = 0%nat)) as [->|Hne].
           ++ rewrite Hlook in Hi. simplify_eq. simpl.
              rewrite events_of_snoc_own by done. apply Hinv.
           ++ rewrite events_of_snoc_other by (simpl; congruence).
              specialize (Hth _ _ Hi). unfold thread_inv in Hth.
              rewrite Hex in Hth. eapply all_paths_here; eauto.
        -- simpl. intros i Hi. rewrite events_of_snoc_other; [by apply Hfresh|].
           simpl. intros ?; simplify_eq. lia.
      * split; simpl.
        -- intros i th Hi. simpl in Hi. unfold thread_inv. simpl. rewrite Hex.
           destruct (decide (i = tid)) as [->|Hne].
           ++ rewrite list_lookup_insert_eq in Hi by done. simplify_eq. simpl.
              apply Hinv.
           ++ rewrite list_lookup_insert_ne in Hi by done.
              specialize (Hth _ _ Hi). unfold thread_inv in Hth.
              by rewrite Hex in Hth.
        -- intros i Hi. rewrite length_insert in Hi. by apply Hfresh.
    + split; simpl.
      * intros i th Hi. simpl in Hi. unfold thread_inv. simpl.
        destruct (decide (i = tid)) as [->|Hne].
        -- rewrite Hlook in Hi. simplify_eq. simpl.
           rewrite events_of_snoc_own by done. apply Hinv.
        -- rewrite events_of_snoc_other by (simpl; congruence).
           specialize (Hth _ _ Hi). unfold thread_inv in Hth.
           rewrite Hex in Hth. eapply all_paths_here; eauto.
      * intros i Hi. rewrite events_of_snoc_other; [by apply Hfresh|].
        simpl. intros ?; simplify_eq. lia.
    + destruct (exec w st o) as [[r st']|] eqn:Hexec; [|by split].
      destruct (exec_frame _ _ _ _ _ _ Hexec) as (Htr & Hths & Hexd).
      split; simpl.
      * intros i th Hi. simpl in Hi. unfold thread_inv. simpl. rewrite Hexd, Hex, Htr.
        rewrite Hths in Hi.
        destruct (decide (i = tid)) as [->|Hne].
        -- rewrite list_lookup_insert_eq in Hi by done. simplify_eq. simpl.
           rewrite events_of_snoc_own by done. apply Hinv.
        -- rewrite list_lookup_insert_ne in Hi by done.
           rewrite events_of_snoc_other by (simpl; congruence).
           specialize (Hth _ _ Hi). unfold thread_inv in Hth.
           by rewrite Hex in Hth.
      * intros i Hi. rewrite length_insert, Hths in Hi. rewrite Htr.
        rewrite events_of_snoc_other; [by apply Hfresh|].
        simpl. intros ?; simplify_eq. lia.
    + destruct Hinv as (_ & HQ & Hk). split; simpl.
      * intros i th Hi. simpl in Hi. unfold thread_inv. simpl. rewrite Hex.
        destruct (decide (i = length (threads st))) as [->|Hnew].
        -- rewrite lookup_app_r in Hi by (rewrite length_insert; lia).
           rewrite length_insert, Nat.sub_diag in Hi. simpl in Hi. simplify_eq.
           simpl. rewrite events_of_snoc_other by (simpl; intros ?; simplify_eq; lia).
           rewrite Hfresh by lia.
           destruct tid; simpl in HQ; [|done].
           destruct (length (threads st)) as [|n] eqn:Hlen; [lia|].
           simpl. apply HQ.
        -- assert (Hi' : (i < length (threads st))%nat).
           { apply lookup_lt_Some in Hi. rewrite length_app, length_insert in Hi.
             simpl in Hi. lia. }
           rewrite lookup_app_l in Hi by (rewrite length_insert; lia).
           destruct (decide (i = tid)) as [->|Hne].
           ++ rewrite list_lookup_insert_eq in Hi by done. simplify_eq. simpl.
              rewrite events_of_snoc_own by done. apply Hk.
           ++ rewrite list_lookup_insert_ne in Hi by done.
              rewrite events_of_snoc_other by (simpl; congruence).
              specialize (Hth _ _ Hi). unfold thread_inv in Hth.
              by rewrite Hex in Hth.
      * intros i Hi. rewrite length_app, length_insert in Hi. simpl in Hi.
        rewrite events_of_snoc_other; [apply Hfresh; lia|].
        simpl. intros ?; simplify_eq. lia.
    + destruct Hinv as (_ & Hk). split; simpl.
      * intros i th Hi. simpl in Hi. unfold thread_inv. simpl. rewrite Hex.
        destruct (decide (i = tid)) as [->|Hne].
        -- rewrite list_lookup_insert_eq in Hi by done. simplify_eq. simpl.
           rewrite events_of_snoc_own by done. apply Hk.
        -- rewrite list_lookup_insert_ne in Hi by done.
           rewrite events_of_snoc_other by (simpl; congruence).
           specialize (Hth _ _ Hi). unfold thread_inv in Hth.
           by rewrite Hex in Hth.
      * intros i Hi. rewrite length_insert in Hi.
        rewrite events_of_snoc_other; [by apply Hfresh|].
        simpl. intros ?; simplify_eq. lia.
  - split; simpl.
    + intros i th Hi. simpl in Hi. unfold thread_inv. simpl. rewrite Hex.
      rewrite events_of_snoc_other by done.
      specialize (Hth _ _ Hi). unfold thread_inv in Hth. by rewrite Hex in Hth.
    + intros i Hi. rewrite events_of_snoc_other by done. by apply Hfresh.
  - destruct (chans st !! ch) as [c|]; [|by split].
    destruct (buf c); [by split|]. destruct (closed c); [by split|].
    split; simpl.
    + intros i th Hi. simpl in Hi. unfold thread_inv. simpl. rewrite Hex.
      rewrite events_of_snoc_other by done.
      specialize (Hth _ _ Hi). unfold thread_inv in Hth. by rewrite Hex in Hth.
    + intros i Hi. rewrite events_of_snoc_other by done. by apply Hfresh.
  - destruct (chans st !! ch) as [c|]; [|by split].
    destruct (closed c); [by split|].
    split; simpl.
    + intros i th Hi. simpl in Hi. unfold thread_inv. simpl. rewrite Hex.
      rewrite events_of_snoc_other by done.
      specialize (Hth _ _ Hi). unfold thread_inv in Hth. by rewrite Hex in Hth.
    + intros i Hi. rewrite events_of_snoc_other by done. by apply Hfresh.
Qed.

Lemma run_snoc (w : @World SriovConfig) s x : run w (s ++ [x]) = step w x (run w s).
Proof. unfold run, run_from. by rewrite fold_left_app. Qed.

Lemma paths_inv_run (w : @World SriovConfig) s : main_ok Pm Pc -> paths_inv (run w s).
Proof.
  intros Hok. induction s as [|x s IH] using rev_ind.
  - split.
    + intros [|i] th Hi; simpl in Hi; simplify_eq. unfold thread_inv. simpl. apply Hok.
    + done.
  - rewrite run_snoc. by apply paths_inv_step.
Qed.
End Soundness.

Section Rules.
Variable tid : nat.
Variable P : list Event -> Prog -> Prop.
Variable Q : Prog -> Prop.
Lemma ap_ret K acc : P acc Ret -> K acc -> all_paths tid P Q Ret K acc.
Proof. by split. Qed.
Lemma ap_fatal m K acc :
    P acc (LogFatal m) -> P (acc ++ [EvFatal tid m]) (LogFatal m) ->
    all_paths tid P Q (LogFatal m) K acc.
Proof. by split. Qed.
Lemma ap_vis R (o : op R) k K acc :
    P acc (Vis o k) -> (forall r, all_paths tid P Q (k r) K (acc ++ [EvOp tid o r])) ->
    all_paths tid P Q (Vis o k) K acc.
Proof. by split. Qed.
Lemma ap_go body k K acc :
    P acc (Go body k) -> Q body ->
    (forall child, all_paths tid P Q k K (acc ++ [EvGo tid child])) ->
    all_paths tid P Q (Go body k) K acc.
Proof. by split. Qed.
Lemma ap_defer body k K acc :
    P acc (Defer body k) ->
    all_paths tid P Q k (fun acc' => all_paths tid P Q body K acc') (acc ++ [EvDefer tid]) ->
    all_paths tid P Q (Defer body k) K acc.
Proof. by split. Qed.
End Rules.

Ltac explore_step solveP :=
  cbn [seq];
  lazymatch goal with
  | |- forall _, _ => intro
  | |- all_paths _ _ _ Ret _ _ => apply ap_ret; [solveP | cbn beta; cbn [app]; try solveP]
  | |- all_paths _ _ _ (LogFatal _) _ _ => apply ap_fatal; [solveP | cbn [app]; solveP]
  | |- all_paths _ _ _ (Vis _ _) _ _ =>
      apply ap_vis;
      [solveP
      | let r := fresh "r" in
        intros r;
        lazymatch type of r with unit => destruct r | _ => idtac end;
        cbn beta; cbn [app]]
  | |- all_paths _ _ _ (Go _ _) _ _ =>
      apply ap_go; [solveP | | intros ?child; cbn [app]]
  | |- all_paths _ _ _ (Defer _ _) _ _ => apply ap_defer; [solveP | cbn [app]]
  | |- all_paths _ _ _ (match snd ?r with _ => _ end) _ _ =>
      let c := fresh "config" in let e := fresh "err" in
      destruct r as [c [e|]]; cbn [fst snd]
  | |- all_paths _ _ _ (match ?r with _ => _ end) _ _ => destruct r
  | |- all_paths _ _ _ (seq (match ?r with _ => _ end) _) _ _ => destruct r
  end.

(** ** Every path of [main] *)

(** The format strings are long; they are named before the paths are
    walked so that the goals stay small. *)
Ltac hide_formats :=
  repeat match goal with
  | |- context [Msgf ?s] =>
      lazymatch s with
      | String _ _ => let x := fresh "format" in set (x := s) in *
      end
  end.
Ltac head_of t := lazymatch t with ?f _ => head_of f | _ => t end.
Ltac in_list :=
  lazymatch goal with
  | |- In (EvOp _ ?o _) (EvOp _ ?o' _ :: _) =>
      let h := head_of o in let h' := head_of o' in
      first [constr_eq h h'; left; reflexivity | right; in_list]
  | |- In _ (_ :: _) => right; in_list
  end.

Ltac finish :=
  repeat match goal with
  | |- True => exact I
  | |- _ /\ _ => split
  | |- _ = _ => reflexivity
  | |- _ <> _ => discriminate
  | |- (_ <= _)%nat => vm_compute; lia
  | |- _ \/ _ => first [left; solve [finish] | right; solve [finish]]
  | |- exists _, _ => eexists
  | |- In _ _ => solve [in_list]
  | H : _ = _ |- _ => discriminate H
  | H : _ = _ |- _ => progress simplify_eq
  | |- forall _, _ => intro
  end.

Ltac solve_fails_fast := split; vm_compute; finish.
Ltac solve_checks_first :=
  split; [vm_compute; finish | split; [vm_compute; finish |]];
  let v := fresh "v" in let H := fresh "H" in
  intros v H; vm_compute in H;
  first [discriminate H | injection H as <-; vm_compute; finish].
Ltac solve_spawns_once :=
  split; [vm_compute; reflexivity | split; [vm_compute; lia |]];
  let H := fresh "H" in
  intros H; vm_compute in H;
  first [exfalso; apply H; reflexivity | do 2 eexists; split; reflexivity].
Ltac solve_submits :=
  let nse := fresh "nse" in let H := fresh "H" in
  intros nse H; vm_compute in H;
  first [discriminate H
        | injection H as <-; do 6 eexists;
          split; [reflexivity|]; split; [reflexivity|]; split; [reflexivity|];
          split; [in_list|]; split; [in_list|]; reflexivity].
Ltac solve_listens :=
  let u := fresh "u" in let ch := fresh "ch" in let H := fresh "H" in
  intros u ch H; vm_compute in H;
  first [discriminate H
        | injection H as <- <-; do 2 eexists;
          split; [reflexivity|]; split; [in_list|]; split; [in_list|]; reflexivity].
Ltac solve_registry := split; vm_compute; finish.
Ltac solve_runs :=
  split; [vm_compute; finish|];
  split; [split; [vm_compute; finish | split; vm_compute; finish]|];
  split; [vm_compute; lia|];
  let H := fresh "H" in
  intros H; vm_compute in H; vm_compute;
  first [exfalso; apply H; reflexivity | discriminate].
Ltac solve_hardware := split; vm_compute; finish.
Ltac solve_cleans_up :=
  split;
  [ let path := fresh "path" in let H := fresh "H" in
    intros path H; vm_compute in H;
    first [discriminate H | injection H as <-; reflexivity]
  | let H := fresh "H" in
    intros H; vm_compute in H; vm_compute;
    first [reflexivity | exfalso; apply H; reflexivity] ].
Ltac solve_configures :=
  split; [vm_compute; finish|];
  let H := fresh "H" in
  intros H; vm_compute in H;
  first [discriminate H
        | split; [reflexivity|]; eexists; split; [reflexivity | in_list]].

Ltac solve_static :=
  idtac;
  lazymatch goal with
  | |- True => exact I
  | |- main_static _ _ =>
      split; [solve_fails_fast|];
      split; [solve_checks_first|];
      split; [solve_spawns_once|];
      split; [solve_submits|];
      split; [solve_listens|];
      split; [solve_registry|];
      split; [solve_runs|];
      split; [solve_hardware|];
      split; [solve_configures|];
      solve_cleans_up
  | |- watcher_shape _ _ => vm_compute; finish
  end.

(** [main_static] holds along every path of [main], and [watcher_shape]
    along every path of the goroutine it starts. *)
Lemma main_paths : main_ok main_static watcher_shape.
Proof.
  unfold main_ok, main, exitOnErr, exitOnErr_func1, Fatal, Fatalf, Infof,
    Error, K_of, child_ok.
  hide_formats.
  repeat explore_step solve_static.
Qed.

(** ** The steps of the machine, and failing fast *)

Section Steps.
Context {SriovConfig : Type}.
Implicit Types (w : @World SriovConfig) (st : @State SriovConfig).

Lemma step_cases w x st :
  step w x st = st \/ (exited st = None /\ Stepped w st (step w x st)).
Proof.
  unfold step. destruct (exited st) eqn:Hex; [by left|]. right. split; [done|].
  destruct x as [tid| |ch err|ch].
  - destruct (threads st !! tid) as [th|] eqn:Hth; [|constructor].
    unfold step_thread. destruct (t_prog th) eqn:Hp.
    + destruct (t_defers th) eqn:Hd.
      * case_decide; [subst; eapply Stepped_exit; eauto | constructor].
      * eapply Stepped_deferred; eauto.
    + eapply Stepped_fatal; eauto.
    + destruct (exec w st o) as [[r st']|] eqn:He; [|constructor].
      eapply Stepped_op; eauto.
    + eapply Stepped_go; eauto.
    + eapply Stepped_defer; eauto.
  - constructor.
  - destruct (chans st !! ch) as [c|] eqn:Hc; [|constructor].
    destruct (buf c) eqn:Hb; [constructor|].
    destruct (closed c) eqn:Hcl; [constructor|].
    eapply Stepped_send; eauto.
  - destruct (chans st !! ch) as [c|] eqn:Hc; [|constructor].
    destruct (closed c) eqn:Hcl; [constructor|].
    eapply Stepped_close; eauto.
Qed.

(** Induction over the states a schedule reaches. *)
Lemma run_ind w (I : State -> Prop) :
  I init ->
  (forall st st', I st -> exited st = None -> Stepped w st st' -> I st') ->
  forall s, I (run w s).
Proof.
  intros Hinit Hstep s. induction s as [|x s IH] using rev_ind; [done|].
  rewrite run_snoc. destruct (step_cases w x (run w s)) as [->|[Hex Hs]]; eauto.
Qed.

Lemma exit_inv_run w s : exit_inv (run w s).
Proof.
  apply (run_ind w exit_inv); [by constructor|].
  intros st st' Hinv Hex Hstep. unfold exit_inv in *. rewrite Hex in Hinv.
  destruct Hstep
    as [ |tid th R o k r st1 Hth Hp He|tid th d ds Hth Hp Hd|th Hth Hp Hd
        |tid th m Hth Hp|tid th body k Hth Hp|tid th body k Hth Hp|
        |ch c err Hc Hb Hcl|ch c Hc Hcl];
    simpl; rewrite ?Hex; try done.
  - destruct (exec_frame _ _ _ _ _ _ He) as (-> & _ & ->). rewrite Hex.
    apply Forall_app. split; [done|]. by repeat constructor.
  - exists (trace st), (EvExit 0). eauto.
  - exists (trace st), (EvFatal tid m). split; [done|]. split; [done|].
    left. eauto.
  - apply Forall_app. split; [done|]. by repeat constructor.
  - apply Forall_app. split; [done|]. by repeat constructor.
  - apply Forall_app. split; [done|]. by repeat constructor.
  - apply Forall_app. split; [done|]. by repeat constructor.
  - apply Forall_app. split; [done|]. by repeat constructor.
Qed.

Lemma main_thread w s : exists th, threads (run w s) !! 0%nat = Some th.
Proof.
  apply lookup_lt_is_Some.
  apply (run_ind w (fun st => (0 < length (threads st))%nat)); [simpl; lia|].
  intros st st' Hinv Hex Hstep.
  destruct Hstep
    as [ |tid th R o k r st1 Hth Hp He|tid th d ds Hth Hp Hd|th Hth Hp Hd
        |tid th m Hth Hp|tid th body k Hth Hp|tid th body k Hth Hp|
        |ch c err Hc Hb Hcl|ch c Hc Hcl];
    simpl; rewrite ?length_app, ?length_insert; try lia.
  destruct (exec_frame _ _ _ _ _ _ He) as (_ & -> & _). lia.
Qed.

(** The static properties hold in every state a schedule reaches. *)
Lemma main_facts w s :
  exists th, threads (run w s) !! 0%nat = Some th /\
             main_static (main_events (trace (run w s))) (t_prog th).
Proof.
  destruct (main_thread w s) as [th Hth]. exists th. split; [done|].
  destruct (paths_inv_run main_static watcher_shape w s main_paths) as [Hinv _].
  specialize (Hinv _ _ Hth). unfold thread_inv in Hinv.
  destruct (exited (run w s)); [done|]. eapply all_paths_here; eauto.
Qed.

Lemma child_facts w s i th :
  i <> 0%nat -> threads (run w s) !! i = Some th ->
  watcher_shape (events_of i (trace (run w s))) (t_prog th).
Proof.
  intros Hi Hth.
  destruct (paths_inv_run main_static watcher_shape w s main_paths) as [Hinv _].
  specialize (Hinv _ _ Hth). unfold thread_inv in Hinv.
  destruct i as [|i]; [done|]. simpl in Hinv.
  destruct (exited (run w s)); [done|]. eapply all_paths_here; eauto.
Qed.

Lemma no_thread_no_events w s i :
  threads (run w s) !! i = None -> events_of i (trace (run w s)) = [].
Proof.
  intros Hnone.
  destruct (paths_inv_run main_static watcher_shape w s main_paths) as [_ Hfresh].
  apply Hfresh. by apply lookup_ge_None.
Qed.

Lemma watcher_shape_events acc p :
  watcher_shape acc p -> Forall (fun ev => watcher_event ev = true) acc.
Proof.
  unfold watcher_shape.
  destruct acc as [|e1 [|e2 [|e3 [|e4 acc]]]]; intros H; try done.
  - destruct H as (ch & v & H1). repeat constructor.
    unfold watcher_event. by rewrite H1.
  - destruct H as (ch & v & H1 & H2). repeat constructor; unfold watcher_event.
    + by rewrite H1.
    + rewrite H2. by destruct (sel_recv e2).
  - destruct H as (ch & v & H1 & H2 & H3). repeat constructor; unfold watcher_event.
    + by rewrite H1.
    + rewrite H2. by destruct (sel_recv e2).
    + rewrite H3. by destruct (sel_recv e3), (sel_errlog e3).
Qed.

Lemma events_of_In i ev tr :
  In ev (events_of i tr) <-> In ev tr /\ tid_of ev = Some i.
Proof.
  unfold events_of. rewrite List.filter_In. unfold belongs.
  destruct (tid_of ev) as [t|]; [|intuition discriminate].
  destruct (Nat.eqb_spec t i); subst; intuition congruence.
Qed.

Lemma child_event w s ev i :
  In ev (trace (run w s)) -> tid_of ev = Some i -> i <> 0%nat ->
  watcher_event ev = true.
Proof.
  intros Hin Htid Hi.
  assert (Hin' : In ev (events_of i (trace (run w s)))) by by apply events_of_In.
  destruct (threads (run w s) !! i) as [th|] eqn:Hth.
  - pose proof (child_facts w s i th Hi Hth) as Hshape.
    apply watcher_shape_events in Hshape.
    rewrite List.Forall_forall in Hshape. by apply Hshape.
  - rewrite (no_thread_no_events w s i Hth) in Hin'. destruct Hin'.
Qed.

(** When the process has ended, the last thing [main] did is the fatal log
    (status 1) or the return (status 0). *)
Lemma exit_by_main w s z :
  exited (run w s) = Some z ->
  exists pre ev, main_events (trace (run w s)) = pre ++ [ev] /\
    ((z = 1 /\ exists m, ev = EvFatal 0 m) \/ (z = 0 /\ ev = EvExit 0)).
Proof.
  intros Hex. pose proof (exit_inv_run w s) as Hinv. unfold exit_inv in Hinv.
  rewrite Hex in Hinv. destruct Hinv as (tr & ev & Htr & _ & Hev).
  exists (main_events tr), ev.
  assert (Htid : tid_of ev = Some 0%nat).
  { destruct Hev as [(_ & tid & m & ->)|(_ & ->)]; [|done].
    destruct (decide (tid = 0%nat)) as [->|Hne]; [done|].
    assert (Hin : In (EvFatal tid m) (trace (run w s))).
    { rewrite Htr. apply in_app_iff. right. by left. }
    by pose proof (child_event w s _ tid Hin eq_refl Hne). }
  split.
  - unfold main_events. rewrite Htr. by apply events_of_snoc_own.
  - destruct Hev as [(-> & tid & m & ->)|(-> & ->)]; [left|right]; split; try done.
    simpl in Htid. simplify_eq. eauto.
Qed.

(** While the last thing [main] did does not end the process, it runs. *)
Lemma alive_by_main w s pre ev :
  main_events (trace (run w s)) = pre ++ [ev] -> is_terminal ev = false ->
  exited (run w s) = None.
Proof.
  intros Hacc Hev. destruct (exited (run w s)) as [z|] eqn:Hex; [|done].
  destruct (exit_by_main w s z Hex) as (pre' & ev' & Hacc' & Hz).
  rewrite Hacc in Hacc'. apply app_inj_tail in Hacc' as [_ <-].
  destruct Hz as [(_ & m & ->)|(_ & ->)]; discriminate.
Qed.

Lemma phase_of_app a b : phase_of (a ++ b) = (phase_of a + phase_of b)%nat.
Proof. unfold phase_of. by rewrite List.filter_app, length_app. Qed.

Lemma next_phase_spec ph ev : next_phase ph ev = (ph + phase_of [ev])%nat.
Proof.
  unfold next_phase, phase_of. simpl.
  destruct (announces ev || completes ev); simpl; lia.
Qed.

Lemma scan_spec C ph acc pre ev post :
  scan C ph acc -> acc = pre ++ ev :: post -> C (ph + phase_of pre)%nat ev post.
Proof.
  revert ph acc. induction pre as [|e pre IH]; intros ph acc Hscan ->.
  - destruct Hscan as [HC _]. by rewrite Nat.add_0_r.
  - destruct Hscan as [_ Hscan]. specialize (IH _ _ Hscan eq_refl).
    rewrite next_phase_spec in IH. change (e :: pre) with ([e] ++ pre).
    by rewrite phase_of_app, Nat.add_assoc.
Qed.

Lemma at_end_spec C pre ev : at_end C (pre ++ [ev]) -> C (phase_of pre) ev.
Proof. unfold at_end. by rewrite last_snoc, removelast_last. Qed.

Lemma awaits_fatal_spec p m : awaits_fatal p = Some m -> p = LogFatal m.
Proof. destruct p; simpl; congruence. Qed.

Lemma failure_not_terminal ev v : failure ev = Some v -> is_terminal ev = false.
Proof. by destruct ev. Qed.

(** A step of [main] when it is about to log fatally. *)
Lemma step_main_fatal w s th m :
  exited (run w s) = None -> threads (run w s) !! 0%nat = Some th ->
  t_prog th = LogFatal m ->
  let st' := run w (s ++ [Run 0]) in
  exited st' = Some 1 /\ trace st' = trace (run w s) ++ [EvFatal 0 m].
Proof.
  intros Hex Hth Hp. simpl. rewrite run_snoc. unfold step, step_thread.
  rewrite Hex, Hth, Hp. by simpl.
Qed.

Lemma terminal_exited w s ev :
  In ev (trace (run w s)) -> is_terminal ev = true -> exited (run w s) <> None.
Proof.
  intros Hin Hev Hex. pose proof (exit_inv_run w s) as Hinv.
  unfold exit_inv in Hinv. rewrite Hex in Hinv.
  unfold alive in Hinv. rewrite List.Forall_forall in Hinv.
  specialize (Hinv _ Hin). congruence.
Qed.

(** C1 (fail-fast phase sequencing).  In every run, when a call of [main]
    comes back with an error during one of the phases 1 to 8, the only
    thing [main] does afterwards is to log that error fatally: no later
    call and no later phase happens.  Once the fatal log is written the
    process has exit status 1, and as long as it is not written the next
    step of [main] writes it and ends the process with status 1. *)
Theorem C1_fail_fast w s pre ev post v :
  let st := run w s in
  main_events (trace st) = pre ++ ev :: post ->
  failure ev = Some v ->
  in_startup (phase_of pre) = true ->
  (post = [] \/ exists m, post = [EvFatal 0 m] /\ msg_args m = [AErr v]) /\
  (post <> [] -> exited st = Some 1) /\
  (post = [] ->
   let st' := run w (s ++ [Run 0]) in
   exited st' = Some 1 /\
   exists m, msg_args m = [AErr v] /\ trace st' = trace st ++ [EvFatal 0 m]).
Proof.
  intros st Hacc Hfail Hph.
  destruct (main_facts w s) as (th & Hth & Hstatic).
  destruct Hstatic as ((Hscan & Hend) & _).
  fold st in Hth, Hscan, Hend.
  pose proof (scan_spec _ _ _ _ _ _ Hscan Hacc) as Hff.
  unfold fatal_follows in Hff. simpl in Hff. rewrite Hph, Hfail in Hff.
  split; [done|]. split.
  - intros Hpost. destruct Hff as [->|(m & -> & _)]; [done|].
    destruct (exited st) as [z|] eqn:Hex.
    + destruct (exit_by_main w s z Hex) as (pre' & ev' & Hacc' & Hz).
      fold st in Hacc'. rewrite Hacc in Hacc'.
      change (pre ++ [ev; EvFatal 0 m]) with (pre ++ [ev] ++ [EvFatal 0 m]) in Hacc'.
      rewrite app_assoc in Hacc'. apply app_inj_tail in Hacc' as [_ <-].
      by destruct Hz as [(-> & _)|(_ & ?)].
    + exfalso. eapply (terminal_exited w s (EvFatal 0 m)); [|done|done].
      apply (events_of_In 0). fold (main_events (trace (run w s))).
      fold st. rewrite Hacc. apply in_app_iff. right. right. by left.
  - intros ->. rewrite Hacc in Hend. apply at_end_spec in Hend.
    unfold fatal_next in Hend. rewrite Hph, Hfail in Hend.
    destruct Hend as (m & Hm & Hargs). apply awaits_fatal_spec in Hm.
    assert (Hex : exited st = None).
    { eapply alive_by_main; [exact Hacc|]. by eapply failure_not_terminal. }
    destruct (step_main_fatal w s th m Hex Hth Hm) as [He Htr].
    split; [done|]. eauto.
Qed.

End Steps.

Lemma C1_fail_fast_witness :
  let st := run world_no_file (main_steps 23) in
  let ev := EvOp 0 (sriovconfig_ReadConfig "pci.config")
              (Failed "open pci.config: no such file") in
  main_events (trace st) = removelast (main_events (trace st)) ++ [ev] /\
  exited (run world_no_file (main_steps 23 ++ [Run 0%nat])) = Some 1.
Proof.
  split; [vm_compute; reflexivity|].
  refine (proj1 (proj2 (proj2
    (C1_fail_fast world_no_file (main_steps 23)
       (removelast (main_events (trace (run world_no_file (main_steps 23)))))
       (EvOp 0 (sriovconfig_ReadConfig "pci.config")
          (Failed "open pci.config: no such file"))
       [] (Some "open pci.config: no such file") _ _ _)) _));
    vm_compute; reflexivity.
Defined.

(** ** What the world answers, and who does what *)

Section Answers.
Context {SriovConfig : Type}.
Implicit Types (w : @World SriovConfig) (st : @State SriovConfig).

Lemma answers_run w s : Forall (answers w) (trace (run w s)).
Proof.
  apply (run_ind w (fun st => Forall (answers w) (trace st))); [constructor|].
  intros st st' Hinv Hex Hstep.
  destruct Hstep
    as [ |tid th R o k r st1 Hth Hp He|tid th d ds Hth Hp Hd|th Hth Hp Hd
        |tid th m Hth Hp|tid th body k Hth Hp|tid th body k Hth Hp|
        |ch c err Hc Hb Hcl|ch c Hc Hcl];
    simpl; try done;
    try (apply Forall_app; split; [done|]; by repeat constructor).
  destruct (exec_frame _ _ _ _ _ _ He) as (-> & _ & _).
  apply Forall_app. split; [done|]. repeat constructor.
  destruct o; simpl in *; repeat case_match; by simplify_eq.
Qed.

Lemma answered w s ev : In ev (trace (run w s)) -> answers w ev.
Proof.
  intros Hin. pose proof (answers_run w s) as H.
  rewrite List.Forall_forall in H. by apply H.
Qed.

Lemma main_event_in tr ev : In ev (main_events tr) -> In ev tr.
Proof. intros H. by apply (events_of_In 0) in H as [? _]. Qed.

(** An event that is not of [main] is of the environment or one of the
    three things the watcher does. *)
Lemma other_event w s ev :
  In ev (trace (run w s)) -> tid_of ev <> Some 0%nat ->
  tid_of ev = None \/ watcher_event ev = true.
Proof.
  intros Hin Hne. destruct (tid_of ev) as [i|] eqn:Htid; [right|by left].
  eapply child_event; eauto.
Qed.

Lemma omap_main {A} (f : Event -> option A) tr :
  (forall ev, In ev tr -> tid_of ev <> Some 0%nat -> f ev = None) ->
  omap f tr = omap f (main_events tr).
Proof.
  induction tr as [|e tr IH]; intros H; [done|].
  assert (IH' : omap f tr = omap f (main_events tr)).
  { apply IH. intros ev Hin. apply H. by right. }
  unfold main_events, events_of in *. cbn [List.filter omap list_omap].
  unfold belongs at 1.
  destruct (tid_of e) as [[|i]|] eqn:Htid; cbn [Nat.eqb omap list_omap].
  - by rewrite IH'.
  - rewrite (H e); [done|by left|congruence].
  - rewrite (H e); [done|by left|congruence].
Qed.

Lemma filter_main (f : Event -> bool) tr :
  (forall ev, In ev tr -> tid_of ev <> Some 0%nat -> f ev = false) ->
  List.filter f tr = List.filter f (main_events tr).
Proof.
  induction tr as [|e tr IH]; intros H; [done|].
  assert (IH' : List.filter f tr = List.filter f (main_events tr)).
  { apply IH. intros ev Hin. apply H. by right. }
  unfold main_events, events_of in *. cbn [List.filter].
  unfold belongs at 1.
  destruct (tid_of e) as [[|i]|] eqn:Htid; cbn [Nat.eqb List.filter].
  - by rewrite IH'.
  - rewrite (H e); [done|by left|congruence].
  - rewrite (H e); [done|by left|congruence].
Qed.

Lemma find_ev_none {A} (f : Event -> option A) acc :
  find_ev f acc = None <-> Forall (fun ev => f ev = None) acc.
Proof.
  induction acc as [|e acc IH]; simpl; [by split; [constructor|]|].
  destruct (f e) eqn:He.
  - split; [done|]. intros H. apply Forall_cons in H as [H _]. congruence.
  - rewrite IH. split; [by constructor|]. intros H. by apply Forall_cons in H as [_ H].
Qed.

Lemma find_ev_some {A} (f : Event -> option A) acc a :
  find_ev f acc = Some a ->
  exists pre ev post, acc = pre ++ ev :: post /\ f ev = Some a /\
                      Forall (fun ev => f ev = None) pre.
Proof.
  induction acc as [|e acc IH]; simpl; [done|].
  destruct (f e) eqn:He.
  - intros [= ->]. exists [], e, acc. by repeat split.
  - intros H. destruct (IH H) as (pre & ev & post & -> & Hev & Hpre).
    exists (e :: pre), ev, post. repeat split; [done|]. by constructor.
Qed.

(** What only [main] does is not found in the rest of the trace. *)
Lemma none_outside_main {A} (f : Event -> option A) w s :
  (forall ev, tid_of ev = None -> f ev = None) ->
  (forall ev, watcher_event ev = true -> f ev = None) ->
  find_ev f (main_events (trace (run w s))) = None ->
  Forall (fun ev => f ev = None) (trace (run w s)).
Proof.
  intros Henv Hchild Hmain. apply find_ev_none in Hmain.
  rewrite List.Forall_forall in *. intros ev Hin.
  destruct (decide (tid_of ev = Some 0%nat)) as [Htid|Htid].
  - apply Hmain. by apply events_of_In.
  - destruct (other_event w s ev Hin Htid); eauto.
Qed.

End Answers.

(** ** The check after start, the record and the address *)

Section Claims.
Context {SriovConfig : Type}.
Implicit Types (w : @World SriovConfig) (st : @State SriovConfig).

(** A step of a goroutine that is about to make a call that can proceed. *)
Lemma step_op w s tid th R (o : op R) k r st' :
  exited (run w s) = None -> threads (run w s) !! tid = Some th ->
  t_prog th = Vis o k -> exec w (run w s) o = Some (r, st') ->
  let st1 := run w (s ++ [Run tid]) in
  trace st1 = trace (run w s) ++ [EvOp tid o r] /\
  exited st1 = None /\
  threads st1 !! tid = Some {| t_prog := k r; t_defers := t_defers th |}.
Proof.
  intros Hex Hth Hp He. simpl. rewrite run_snoc. unfold step, step_thread.
  rewrite Hex, Hth, Hp, He. simpl.
  destruct (exec_frame _ _ _ _ _ _ He) as (-> & -> & ->).
  repeat split; [done|]. apply list_lookup_insert_eq. by eapply lookup_lt_Some.
Qed.

(** A step of a goroutine that is about to make a call that cannot proceed. *)
Lemma step_blocked w st tid th R (o : op R) k :
  threads st !! tid = Some th -> t_prog th = Vis o k -> exec w st o = None ->
  step w (Run tid) st = st.
Proof.
  intros Hth Hp He. unfold step, step_thread.
  destruct (exited st); [done|]. by rewrite Hth, Hp, He.
Qed.

Lemma awaits_check_spec p ch :
  awaits_check p = Some ch -> exists k, p = Vis (select_recv_default ch) k.
Proof.
  destruct p as [| |R o k| |]; try done.
  destruct o; simpl; intros [= ->]. eauto.
Qed.

(** The non-blocking receive always proceeds, and finds what is buffered. *)
Lemma exec_check w st ch :
  exists r st', exec w st (select_recv_default ch) = Some (r, st') /\
    forall c v, chans st !! ch = Some c -> buf c = Some v -> r = Some v.
Proof.
  simpl. destruct (chans st !! ch) as [c|] eqn:Hc.
  - unfold chan_take. destruct (buf c) as [v|] eqn:Hb.
    + eexists _, _. split; [done|]. intros c' v' [= <-] Hb'. congruence.
    + destruct (closed c); eexists _, _; (split; [done|]);
        intros c' v' [= <-] Hb'; congruence.
  - eexists _, _. split; [done|]. intros c v [=].
Qed.

Lemma main_events_snoc_own tr ev :
  tid_of ev = Some 0%nat -> main_events (tr ++ [ev]) = main_events tr ++ [ev].
Proof. apply events_of_snoc_own. Qed.

(** C2 (non-blocking post-start check).  In every run: (a) the first thing
    [main] does after [ListenAndServe] returned a channel is the
    non-blocking receive on that channel; (b) that receive never waits, and
    when a value is buffered on the channel it finds it; (c) once it has
    found a value, [main] is still in phase 7, nothing in the whole trace
    is a call of [Register], and the next step of [main] (if it has not
    been taken yet) logs the value fatally and ends the process with
    status 1. *)
Theorem C2_pending_error_is_fatal w s :
  let st := run w s in
  let acc := main_events (trace st) in
  (forall pre ev post u ch,
     acc = pre ++ ev :: post -> sel_listen ev = Some (u, ch) ->
     match post with
     | [] => exists th, threads st !! 0%nat = Some th /\
                        awaits_check (t_prog th) = Some ch
     | ev' :: _ => exists r, sel_check ev' = Some (ch, r)
     end) /\
  (forall th ch,
     exited st = None -> threads st !! 0%nat = Some th ->
     awaits_check (t_prog th) = Some ch ->
     exists r,
       trace (run w (s ++ [Run 0])) = trace st ++ [EvOp 0 (select_recv_default ch) r] /\
       forall c v, chans st !! ch = Some c -> buf c = Some v -> r = Some v) /\
  (forall v,
     find_ev sel_pending acc = Some v ->
     phase_of acc = 7%nat /\
     Forall (fun ev => sel_register ev = None) (trace st) /\
     let st' := run w (s ++ [Run 0]) in
     exited st' = Some 1 /\ In (EvFatal 0 (Msg [AErr v])) (trace st')).
Proof.
  intros st acc.
  destruct (main_facts w s) as (th & Hth & Hstatic).
  destruct Hstatic as (_ & (Hscan & Hend & Hpending) & _).
  fold st in Hth. fold st acc in Hscan, Hend, Hpending.
  split; [|split].
  - intros pre ev post u ch Hacc Hlisten.
    destruct post as [|ev' post].
    + exists th. split; [done|]. rewrite Hacc in Hend.
      apply at_end_spec in Hend. unfold check_next in Hend.
      by rewrite Hlisten in Hend.
    + pose proof (scan_spec _ _ _ _ _ _ Hscan Hacc) as H.
      unfold check_follows in H. by rewrite Hlisten in H.
  - intros th' ch Hex Hth' Hch.
    apply awaits_check_spec in Hch as [k Hp].
    destruct (exec_check w st ch) as (r & st' & He & Hr).
    exists r. split; [|done].
    by destruct (step_op w s 0 th' _ _ k r st' Hex Hth' Hp He) as (? & _).
  - intros v Hv. destruct (Hpending v Hv) as (Hph & Hreg & Hp & Hlast).
    split; [done|]. split.
    { apply none_outside_main; [by intros []| |done].
      intros ev Hev. destruct ev as [tid R o r| | | | | | |]; try done.
      by destruct o. }
    apply awaits_fatal_spec in Hp.
    destruct (last acc) as [ev|] eqn:Hl; [|done].
    apply last_Some in Hl as [pre Hacc].
    destruct (exited st) as [z|] eqn:Hex.
    + simpl. rewrite run_snoc. unfold step. fold st. rewrite Hex.
      destruct (exit_by_main w s z Hex) as (pre' & ev' & Hacc' & Hz).
      fold st acc in Hacc'. rewrite Hacc in Hacc'.
      apply app_inj_tail in Hacc' as [_ <-].
      destruct Hlast as [Hsel| ->].
      * destruct Hz as [(_ & m & ->)|(_ & ->)]; discriminate.
      * destruct Hz as [(-> & _)|(_ & ?)]; [|done]. split; [done|].
        apply (main_event_in (trace st)). fold acc. rewrite Hacc.
        apply in_app_iff. right. by left.
    + destruct (step_main_fatal w s th _ Hex Hth Hp) as [He Htr].
      split; [done|]. simpl. rewrite Htr. apply in_app_iff. right. by left.
Qed.

Lemma In_answered w s ev :
  In ev (main_events (trace (run w s))) -> answers w ev.
Proof. intros H. eapply answered. by eapply main_event_in. Qed.

(** [Register] is called in phase 8, when the configuration is loaded. *)
Lemma registered_after_loading w s nse :
  let acc := main_events (trace (run w s)) in
  find_ev sel_register acc = Some nse ->
  exists config, find_ev sel_loaded acc = Some config /\
                 config = fst (Process w "nsm" zero_Config).
Proof.
  intros acc Hreg.
  destruct (main_facts w s) as (th & Hth & Hstatic).
  destruct Hstatic as (_ & _ & _ & _ & _ & (Hscan & _) & _ & _ & (_ & Hcfg) & _).
  fold acc in Hscan, Hcfg.
  destruct (find_ev_some _ _ _ Hreg) as (pre & ev & post & Hacc & Hev & _).
  pose proof (scan_spec _ _ _ _ _ _ Hscan Hacc) as H.
  unfold registry_fatal in H.
  assert (Hcall : registry_call ev = Some Submit).
  { destruct ev as [tid R o r| | | | | | |]; try done. by destruct o. }
  rewrite Hcall in H. destruct H as [Hph _]. simpl in Hph.
  destruct Hcfg as (_ & config & Hloaded & Hin).
  { rewrite Hacc, phase_of_app, Hph. done. }
  exists config. split; [done|].
  apply In_answered in Hin. simpl in Hin. by rewrite <- Hin.
Qed.

(** C4 (registration payload).  In every run, the record [main] hands to
    [Register] has the name of the loaded configuration, exactly one
    served service name, the NSName of that configuration, as url the
    target string of the address [ListenAndServe] was given, and as
    expiration the timestamp of the last clock reading plus the
    MaxTokenLifetime of the configuration. *)
Theorem C4_registration_record w s nse :
  let acc := main_events (trace (run w s)) in
  find_ev sel_register acc = Some nse ->
  exists config u ch now expireTime,
    find_ev sel_loaded acc = Some config /\
    config = fst (Process w "nsm" zero_Config) /\
    find_ev sel_listen acc = Some (u, ch) /\
    find_ev sel_now (rev acc) = Some now /\
    w_TimestampProto w (Time_Add now (MaxTokenLifetime config)) = Ok expireTime /\
    nse = {| registryapi.Name := Name config;
             registryapi.NetworkServiceNames := [NSName config];
             registryapi.Url := w_URLToTarget w u;
             registryapi.ExpirationTime := expireTime |}.
Proof.
  intros acc Hreg.
  destruct (main_facts w s) as (th & Hth & Hstatic).
  destruct Hstatic as (_ & _ & _ & Hrecord & _).
  destruct (Hrecord nse Hreg)
    as (config & u & ch & now & target & expireTime
        & Hloaded & Hlisten & Hnow & Htarget & Hstamp & ->).
  destruct (registered_after_loading w s _ Hreg) as (config' & Hloaded' & Hcfg).
  fold acc in Hloaded, Hloaded'. rewrite Hloaded in Hloaded'.
  injection Hloaded' as <-.
  apply In_answered in Htarget, Hstamp. simpl in Htarget, Hstamp.
  exists config, u, ch, now, expireTime. subst target. by repeat split.
Qed.

(** C9 (the listening address is fixed).  In every run, whatever the
    configuration, the address [ListenAndServe] is given is the unix URL
    whose path joins the directory that [ioutil.TempDir] made in this run
    with [listen_on.io.sock], and the url of a record handed to [Register]
    is the target string of that same URL. *)
Theorem C9_listen_address w s u ch :
  let acc := main_events (trace (run w s)) in
  find_ev sel_listen acc = Some (u, ch) ->
  exists tmpDir,
    w_TempDir w "" "sriov-forwarder" = Ok tmpDir /\
    find_ev sel_tmpdir acc = Some tmpDir /\
    u = {| url.Scheme := "unix"; url.Opaque := ""; url.Host := "";
           url.Path := w_path_Join w tmpDir "listen_on.io.sock";
           url.RawQuery := ""; url.Fragment := "" |} /\
    forall nse, find_ev sel_register acc = Some nse ->
                registryapi.Url nse = w_URLToTarget w u.
Proof.
  intros acc Hlisten.
  destruct (main_facts w s) as (th & Hth & Hstatic).
  destruct Hstatic as (_ & _ & _ & Hrecord & Hdir & _).
  destruct (Hdir u ch Hlisten) as (tmpDir & joined & Htmp & Hmade & Hjoin & ->).
  apply In_answered in Hmade, Hjoin. simpl in Hmade, Hjoin. subst joined.
  exists tmpDir. repeat split; [done|done|].
  intros nse Hreg.
  destruct (Hrecord nse Hreg)
    as (config & u' & ch' & now & target & expireTime
        & _ & Hlisten' & _ & Htarget & _ & ->).
  fold acc in Hlisten'. rewrite Hlisten in Hlisten'. injection Hlisten' as <- <-.
  apply In_answered in Htarget. simpl in Htarget. by subst target.
Qed.

End Claims.

Lemma C2_pending_error_is_fatal_witness :
  find_ev sel_pending (main_events (trace (run world_ok sched_bind_failure)))
  = Some (Some "listen unix: bind: address already in use") /\
  exited (run world_ok (sched_bind_failure ++ [Run 0%nat])) = Some 1.
Proof.
  split; [vm_compute; reflexivity|].
  refine (proj1 (proj2 (proj2
    (proj2 (proj2 (C2_pending_error_is_fatal world_ok sched_bind_failure))
       (Some "listen unix: bind: address already in use") _))));
    vm_compute; reflexivity.
Defined.

Lemma C4_registration_record_witness :
  exists config u ch now expireTime,
    let acc := main_events (trace (run world_ok (main_steps 60))) in
    find_ev sel_loaded acc = Some config /\
    config = fst (Process world_ok "nsm" zero_Config) /\
    find_ev sel_listen acc = Some (u, ch) /\
    find_ev sel_now (rev acc) = Some now /\
    w_TimestampProto world_ok (Time_Add now (MaxTokenLifetime config))
    = Ok expireTime /\
    {| registryapi.Name := "interpose-nse#sriov-forwarder";
       registryapi.NetworkServiceNames := ["sriovns"];
       registryapi.Url := "unix:///tmp/sriov-forwarder123/listen_on.io.sock";
       registryapi.ExpirationTime :=
         {| Seconds := 86400; Nanos := 9000 |} |}
    = {| registryapi.Name := Name config;
         registryapi.NetworkServiceNames := [NSName config];
         registryapi.Url := w_URLToTarget world_ok u;
         registryapi.ExpirationTime := expireTime |}.
Proof.
  apply (C4_registration_record world_ok (main_steps 60)).
  vm_compute. reflexivity.
Defined.

Lemma C9_listen_address_witness :
  exists tmpDir,
    let acc := main_events (trace (run world_ok (main_steps 60))) in
    w_TempDir world_ok "" "sriov-forwarder" = Ok tmpDir /\
    find_ev sel_tmpdir acc = Some tmpDir /\
    unix_URL "/tmp/sriov-forwarder123/listen_on.io.sock"
    = {| url.Scheme := "unix"; url.Opaque := ""; url.Host := "";
         url.Path := w_path_Join world_ok tmpDir "listen_on.io.sock";
         url.RawQuery := ""; url.Fragment := "" |} /\
    forall nse, find_ev sel_register acc = Some nse ->
      registryapi.Url nse
      = w_URLToTarget world_ok (unix_URL "/tmp/sriov-forwarder123/listen_on.io.sock").
Proof.
  apply (C9_listen_address world_ok (main_steps 60) _ 0%nat).
  vm_compute. reflexivity.
Defined.

(** ** The registry *)

Section Registry.
Context {SriovConfig : Type}.
Implicit Types (w : @World SriovConfig) (st : @State SriovConfig).

Lemma registry_failure_is_failure ev err :
  registry_failure ev = Some err -> failure ev = Some (Some err).
Proof.
  destruct ev as [tid R o r| | | | | | |]; try done.
  destruct o; try done; simpl; try (destruct r; congruence).
Qed.

Lemma registry_failure_call ev err :
  registry_failure ev = Some err -> exists c, registry_call ev = Some c.
Proof.
  destruct ev as [tid R o r| | | | | | |]; try done.
  destruct o; try done; simpl; eauto.
Qed.

(** A failure of one of the three calls of phase 8 is followed by the one
    fatal message of that phase, and every failure in phase 8 is of one of
    the three. *)
Lemma registry_failures_fatal w s pre ev post :
  main_events (trace (run w s)) = pre ++ ev :: post ->
  (forall err, registry_failure ev = Some err ->
     phase_of pre = 8%nat /\
     (post = [] \/ post = [EvFatal 0 (registry_message err)]) /\
     (post = [] ->
      let st' := run w (s ++ [Run 0]) in
      exited st' = Some 1 /\
      trace st' = trace (run w s) ++ [EvFatal 0 (registry_message err)])) /\
  (forall v, phase_of pre = 8%nat -> failure ev = Some v ->
     exists c, registry_call ev = Some c).
Proof.
  intros Hacc.
  destruct (main_facts w s) as (th & Hth & Hstatic).
  destruct Hstatic as (_ & _ & _ & _ & _ & (Hscan & Hend) & _).
  pose proof (scan_spec _ _ _ _ _ _ Hscan Hacc) as H.
  unfold registry_fatal in H. simpl in H. split.
  - intros err Herr. destruct (registry_failure_call _ _ Herr) as [c Hc].
    rewrite Hc, Herr in H. destruct H as [Hph Hpost].
    split; [done|]. split; [done|]. intros ->.
    rewrite Hacc in Hend. apply at_end_spec in Hend.
    unfold registry_fatal_next in Hend. rewrite Herr in Hend.
    apply awaits_fatal_spec in Hend.
    assert (Hex : exited (run w s) = None).
    { eapply alive_by_main; [exact Hacc|].
      eapply failure_not_terminal. by apply registry_failure_is_failure. }
    by apply (step_main_fatal w s th).
  - intros v Hph Hv. destruct (registry_call ev) as [c|]; [eauto|].
    rewrite Hph in H. simpl in H. congruence.
Qed.

End Registry.

(** C10 (the three fatal failure points of phase 8).  In every run, a
    failure of the dial, of the conversion of the expiration time or of
    [Register] happens in phase 8 and is followed by nothing but the fatal
    log [failed to connect to registry: %+v] of its error, after which the
    process has ended with status 1; any call that fails in phase 8 is one
    of these three; and each of the three can fail in some run. *)
Theorem C10_registry_failures :
  (forall (SriovConfig : Type) (w : @World SriovConfig) s pre ev post err,
     main_events (trace (run w s)) = pre ++ ev :: post ->
     registry_failure ev = Some err ->
     phase_of pre = 8%nat /\
     (post = [] \/
      post = [EvFatal 0 (Msgf "failed to connect to registry: %+v"
                           [AErr (Some err)])]) /\
     (post = [] ->
      let st' := run w (s ++ [Run 0%nat]) in
      exited st' = Some 1 /\
      trace st' = trace (run w s)
                  ++ [EvFatal 0 (Msgf "failed to connect to registry: %+v"
                                   [AErr (Some err)])])) /\
  (forall (SriovConfig : Type) (w : @World SriovConfig) s pre ev post v,
     main_events (trace (run w s)) = pre ++ ev :: post ->
     phase_of pre = 8%nat -> failure ev = Some v ->
     exists c, registry_call ev = Some c) /\
  (forall c : RegistryCall,
     exists (w : @World string) s ev err,
       In ev (main_events (trace (run w s))) /\
       registry_call ev = Some c /\ registry_failure ev = Some err).
Proof.
  split; [|split].
  - intros SriovConfig w s pre ev post err Hacc Herr.
    by apply (proj1 (registry_failures_fatal w s pre ev post Hacc)).
  - intros SriovConfig w s pre ev post v Hacc Hph Hv.
    by apply (proj2 (registry_failures_fatal w s pre ev post Hacc) v).
  - intros [| |].
    + exists world_no_dial, (main_steps 55),
        (EvOp 0 (grpc_DialContext "unix:///connect.to.socket" 5%nat)
           (Failed "context deadline exceeded")),
        "context deadline exceeded".
      split; [|done]. vm_compute. do 54 right. by left.
    + exists world_bad_stamp, (main_steps 58),
        (EvOp 0 (ptypes_TimestampProto 86400000009000)
           (Failed "timestamp: after 10000-01-01")),
        "timestamp: after 10000-01-01".
      split; [|done]. vm_compute. do 57 right. by left.
    + exists world_no_register, (main_steps 60),
        (EvOp 0 (registry_Register 9%nat
                   (record_of (fst (Process world_ok "nsm" zero_Config))
                      "unix:///tmp/sriov-forwarder123/listen_on.io.sock"
                      {| Seconds := 86400; Nanos := 9000 |}))
           (Some "rpc error: code = Unavailable")),
        "rpc error: code = Unavailable".
      split; [|done]. vm_compute. do 59 right. by left.
Qed.

(** ** Running *)

Section Running.
Context {SriovConfig : Type}.
Implicit Types (w : @World SriovConfig) (st : @State SriovConfig).

Lemma done_inv_run w s : done_inv (run w s).
Proof.
  apply (run_ind w done_inv).
  { split; [by intros ?%Exists_nil|done]. }
  intros st st' [Hwait Hdone] Hex Hstep. unfold done_inv, ctx_done in *.
  assert (Hkeep : forall ev (tr : list Event),
            is_done_wait ev = false ->
            (Exists (fun ev => is_done_wait ev = true) (trace st ++ [ev]) ->
             signalled st || cancelled st = true) /\
            (signalled st || cancelled st = true ->
             Exists (fun ev => ev = EvSignal \/ is_cancel ev = true)
               (trace st ++ [ev]))).
  { intros ev _ Hev. split.
    - intros [HE|HE]%Exists_app; [by apply Hwait|].
      apply Exists_cons in HE as [HE|HE%Exists_nil]; [congruence|done].
    - intros HE. apply Exists_app. left. by apply Hdone. }
  destruct Hstep
    as [ |tid th R o k r st1 Hth Hp He|tid th d ds Hth Hp Hd|th Hth Hp Hd
        |tid th m Hth Hp|tid th body k Hth Hp|tid th body k Hth Hp|
        |ch c err Hc Hb Hcl|ch c Hc Hcl];
    simpl; try done; try (by apply (Hkeep _ [])).
  - destruct (exec_frame _ _ _ _ _ _ He) as (Htr & _ & _). rewrite Htr.
    destruct o; simpl in He; repeat case_match; simplify_eq; simpl;
      try (by apply (Hkeep _ [])).
    + split.
      * intros _. by destruct (signalled st).
      * intros _. apply Exists_app. right. constructor. by right.
    + split; [done|]. intros HE. apply Exists_app. left. by apply Hdone.
  - split.
    + done.
    + intros _. apply Exists_app. right. constructor. by left.
Qed.

Lemma awaits_since_spec p t :
  awaits_since p = Some t -> exists k, p = Vis (time_Since t) k.
Proof.
  destruct p as [| |R o k| |]; try done.
  destruct o; simpl; intros [= ->]. eauto.
Qed.

Lemma awaits_log_spec p m :
  awaits_log p = Some m -> exists k, p = Vis (log_Entry InfoLevel m) k.
Proof.
  destruct p as [| |R o k| |]; try done.
  destruct o as [| | | | |lvl m'| | | | | | | | | | | | | | | | | | | | | | | | | | |];
    try done.
  destruct lvl; simpl; intros [= ->]; eauto.
Qed.

Lemma awaits_done_spec p :
  awaits_done p = true -> exists k, p = Vis ctx_Done k.
Proof.
  destruct p as [| |R o k| |]; try done.
  destruct o; simpl; try done. eauto.
Qed.

Lemma register_ok_not_terminal ev : register_ok ev = true -> is_terminal ev = false.
Proof. by destruct ev. Qed.

(** While the context is not done, steps of [main] at its wait change
    nothing. *)
Lemma main_blocked w s th k n :
  threads (run w s) !! 0%nat = Some th -> t_prog th = Vis ctx_Done k ->
  ctx_done (run w s) = false ->
  run w (s ++ main_steps n) = run w s.
Proof.
  intros Hth Hp Hdone. induction n as [|n IH]; simpl.
  - by rewrite app_nil_r.
  - unfold main_steps in *. rewrite replicate_S_end, app_assoc, run_snoc, IH.
    eapply step_blocked; eauto. simpl. by rewrite Hdone.
Qed.

(** C6 (Running).  In every run: (a) after [Register] returned without
    error, [main] reads the time elapsed since its first clock reading,
    logs it as [Startup completed in %v], and then waits for the context,
    in this order and with nothing in between; (b) when the successful
    [Register] is the last thing [main] did, its next two steps read and
    log that duration; (c) the success message is logged at most once, and
    only after a successful [Register]; (d) when the success message is
    the last thing [main] did and the context is not done, steps of [main]
    change nothing; (e) the wait has only completed when the context was
    done, which needs a signal or a call of [cancel]. *)
Theorem C6_running w s :
  let st := run w s in
  let acc := main_events (trace st) in
  (forall pre ev post,
     acc = pre ++ ev :: post -> register_ok ev = true ->
     exists starttime, find_ev sel_now acc = Some starttime /\
       match post with
       | [] => True
       | e1 :: rest1 =>
           exists since, e1 = EvOp 0 (time_Since starttime) since /\
             match rest1 with
             | [] => True
             | e2 :: rest2 =>
                 e2 = EvOp 0 (log_Entry InfoLevel
                                (Msgf "Startup completed in %v" [ADuration since])) tt /\
                 match rest2 with
                 | [] => True
                 | e3 :: _ => e3 = EvOp 0 ctx_Done tt
                 end
             end
       end) /\
  (forall pre ev,
     acc = pre ++ [ev] -> register_ok ev = true ->
     exists starttime since,
       find_ev sel_now acc = Some starttime /\
       trace (run w (s ++ [Run 0; Run 0]))
       = trace st ++ [EvOp 0 (time_Since starttime) since;
                      EvOp 0 (log_Entry InfoLevel
                                (Msgf "Startup completed in %v" [ADuration since])) tt]) /\
  ((length (List.filter completes acc) <= 1)%nat /\
   (List.filter completes acc <> [] -> List.filter register_ok acc <> [])) /\
  (forall pre ev n,
     acc = pre ++ [ev] -> completes ev = true -> ctx_done st = false ->
     run w (s ++ main_steps n) = st) /\
  (Exists (fun ev => is_done_wait ev = true) acc -> ctx_done st = true) /\
  (ctx_done st = true ->
   Exists (fun ev => ev = EvSignal \/ is_cancel ev = true) (trace st)).
Proof.
  intros st acc.
  destruct (main_facts w s) as (th & Hth & Hstatic).
  destruct Hstatic as (_ & _ & _ & _ & _ & _ & (Hscan & Hnext & Honce & Hafter) & _).
  fold st in Hth. fold st acc in Hscan, Hnext, Honce, Hafter.
  destruct Hnext as (Hsince & Hwait & Hlog).
  destruct (done_inv_run w s) as [Hdone1 Hdone2]. fold st in Hdone1, Hdone2.
  repeat split; try done.
  - intros pre ev post Hacc Hok.
    pose proof (scan_spec _ _ _ _ _ _ Hscan Hacc) as H.
    unfold running_follows in H. rewrite Hok in H.
    destruct H as (t0 & Ht0 & H). exists t0. split; [done|].
    destruct post as [|e1 [|e2 [|e3 post]]]; try done.
  - intros pre ev Hacc Hok.
    assert (Hex : exited st = None).
    { eapply alive_by_main; [exact Hacc|]. by apply register_ok_not_terminal. }
    rewrite Hacc in Hsince. apply at_end_spec in Hsince. rewrite Hok in Hsince.
    destruct Hsince as (t0 & Ht0 & Hp). rewrite <- Hacc in Ht0.
    apply awaits_since_spec in Hp as [k Hp].
    destruct (step_op w s 0 th _ (time_Since t0) k
                (Time_Sub (clock w (ticks st)) t0)
                (set_ticks (S (ticks st)) st) Hex Hth Hp eq_refl)
      as (Htr1 & Hex1 & Hth1).
    destruct (main_facts w (s ++ [Run 0%nat])) as (th1 & Hth1' & Hstatic1).
    rewrite Hth1 in Hth1'. injection Hth1' as <-.
    destruct Hstatic1 as (_ & _ & _ & _ & _ & _ & (_ & (_ & _ & Hlog1) & _) & _).
    rewrite Htr1 in Hlog1. rewrite main_events_snoc_own in Hlog1 by done.
    fold st acc in Hlog1. rewrite Hacc in Hlog1.
    rewrite !rev_app_distr in Hlog1. simpl in Hlog1. rewrite Hok in Hlog1.
    destruct Hlog1 as (t0' & since & Heq & Hp1).
    apply awaits_log_spec in Hp1 as [k1 Hp1]. simpl in Hp1.
    destruct (step_op w (s ++ [Run 0%nat]) 0 _ _ _ k1 tt (run w (s ++ [Run 0%nat]))
                Hex1 Hth1 Hp1 eq_refl) as (Htr2 & _ & _).
    rewrite <- app_assoc in Htr2. simpl in Htr2.
    exists t0, (Time_Sub (clock w (ticks st)) t0). split; [done|].
    rewrite Htr2, Htr1, <- app_assoc. simpl. do 3 f_equal.
    assert (Hs : sel_since (EvOp 0 (time_Since t0) (Time_Sub (clock w (ticks st)) t0))
                 = sel_since (EvOp 0 (time_Since t0') since)) by by rewrite Heq.
    simpl in Hs. by injection Hs as <- <-.
  - intros pre ev n Hacc Hev Hnot.
    rewrite Hacc in Hwait. apply at_end_spec in Hwait. rewrite Hev in Hwait.
    apply awaits_done_spec in Hwait as [k Hp].
    by eapply main_blocked.
  - intros H. apply Hdone1.
    apply List.Exists_exists in H as (ev & Hin & Hev). apply List.Exists_exists.
    exists ev. split; [|done]. by eapply main_event_in.
Qed.

End Running.

Lemma C6_running_witness :
  register_ok
    (List.last (main_events (trace (run world_ok (main_steps 60)))) EvSignal)
  = true /\
  (exists starttime since,
     find_ev sel_now (main_events (trace (run world_ok (main_steps 60))))
     = Some starttime /\
     trace (run world_ok (main_steps 60 ++ [Run 0%nat; Run 0%nat]))
     = trace (run world_ok (main_steps 60))
       ++ [EvOp 0 (time_Since starttime) since;
           EvOp 0 (log_Entry InfoLevel
                     (Msgf "Startup completed in %v" [ADuration since])) tt]) /\
  completes
    (List.last (main_events (trace (run world_ok (main_steps 62)))) EvSignal)
  = true /\
  exited (run world_ok (main_steps 62)) = None /\
  run world_ok (main_steps 62 ++ main_steps 5) = run world_ok (main_steps 62).
Proof.
  split; [vm_compute; reflexivity|]. split.
  - refine (proj1 (proj2 (C6_running world_ok (main_steps 60)))
              (removelast (main_events (trace (run world_ok (main_steps 60)))))
              (List.last (main_events (trace (run world_ok (main_steps 60))))
                 EvSignal) _ _);
      vm_compute; reflexivity.
  - split; [vm_compute; reflexivity|]. split; [vm_compute; reflexivity|].
    refine (proj1 (proj2 (proj2 (proj2 (C6_running world_ok (main_steps 62)))))
              (removelast (main_events (trace (run world_ok (main_steps 62)))))
              (List.last (main_events (trace (run world_ok (main_steps 62))))
                 EvSignal) 5%nat _ _ _);
      vm_compute; reflexivity.
Defined.

(** ** The watcher *)

Section Watcher.
Context {SriovConfig : Type}.
Implicit Types (w : @World SriovConfig) (st : @State SriovConfig).

Lemma chan_take_spec c v c' :
  chan_take c = Some (v, c') ->
  (buf c <> None \/ closed c = true) /\ buf c' = None /\ closed c' = closed c.
Proof.
  unfold chan_take. destruct (buf c) eqn:Hb.
  - intros [= <- <-]. simpl. split; [by left|done].
  - destruct (closed c) eqn:Hc; [|done]. intros [= <- <-].
    split; [by right|done].
Qed.

Lemma exec_chans w st R (o : op R) r st1 tid :
  exec w st o = Some (r, st1) ->
  let ev := EvOp tid o r in
  (chans st1 = chans st /\ sel_recv ev = None) \/
  (exists u, sel_listen ev = Some (u, length (chans st)) /\
             chans st1 = chans st ++ [{| buf := None; closed := false |}] /\
             sel_recv ev = None) \/
  (exists ch c v c', chans st !! ch = Some c /\ chan_take c = Some (v, c') /\
                     chans st1 = <[ch := c']> (chans st) /\
                     (sel_recv ev = None \/ sel_recv ev = Some (ch, v))).
Proof.
  intros He. destruct o; simpl in He; repeat case_match; simplify_eq; simpl;
    try (by left); try (right; left; by eauto).
  - right. right. eexists _, _, _, _. repeat split; eauto.
  - right. right. eexists _, _, _, _. repeat split; eauto.
Qed.

Lemma snoc_split {A} (tr pre post : list A) e ev :
  tr ++ [e] = pre ++ ev :: post ->
  (post = [] /\ pre = tr /\ ev = e) \/
  (exists post', post = post' ++ [e] /\ tr = pre ++ ev :: post').
Proof.
  induction post as [|x post _] using rev_ind; intros H.
  - apply app_inj_tail in H as [-> ->]. by left.
  - right. exists post. change (pre ++ ev :: post ++ [x]) with (pre ++ (ev :: post) ++ [x]) in H.
    rewrite app_assoc in H. apply app_inj_tail in H as [-> ->]. done.
Qed.

Lemma recv_after_snoc tr e :
  recv_after tr ->
  (forall ch v, sel_recv e = Some (ch, v) -> listened ch tr /\ emitted ch tr) ->
  recv_after (tr ++ [e]).
Proof.
  intros Hold Hnew pre ev post ch v Hsplit Hev.
  apply snoc_split in Hsplit as [(-> & -> & ->)|(post' & -> & ->)].
  - by apply (Hnew ch v).
  - by eapply Hold.
Qed.

Lemma chan_inv_run w s : chan_inv (run w s).
Proof.
  apply (run_ind w chan_inv).
  { split; [by intros ch c [=]|]. split; [by intros ch c [=]|]. split; [|done].
    intros pre ev post ch v Hnil. by destruct pre. }
  intros st st' (Hlisten & Hemit & Hrecv & Hlen) Hex Hstep.
  assert (Hmono : forall ev,
            (forall ch c, chans st !! ch = Some c -> listened ch (trace st ++ [ev])) /\
            (forall ch c, chans st !! ch = Some c ->
                          buf c <> None \/ closed c = true ->
                          emitted ch (trace st ++ [ev]))).
  { intros ev. split; intros ch c Hc.
    - apply Exists_app. left. by eapply Hlisten.
    - intros Hb. apply Exists_app. left. by eapply Hemit. }
  assert (Hquiet : forall ev,
            sel_recv ev = None -> recv_after (trace st ++ [ev])).
  { intros ev Hev. apply recv_after_snoc; [done|]. intros ch v Hv. congruence. }
  destruct Hstep
    as [ |tid th R o k r st1 Hth Hp He|tid th d ds Hth Hp Hd|th Hth Hp Hd
        |tid th m Hth Hp|tid th body k Hth Hp|tid th body k Hth Hp|
        |ch c err Hc Hb Hcl|ch c Hc Hcl];
    unfold chan_inv; simpl;
    rewrite ?List.filter_app, ?length_app, ?length_insert; simpl;
    rewrite ?Nat.add_0_r.
  - done.
  - destruct (exec_frame _ _ _ _ _ _ He) as (Htr & Hths & _).
    rewrite Htr, Hths.
    destruct (exec_chans w st R o r st1 tid He)
      as [(Hch & Hnr)|[(u & Hl & Hch & Hnr)|(ch & c & v & c' & Hc & Htake & Hch & Hr)]];
      rewrite Hch.
    + destruct (Hmono (EvOp tid o r)) as [H1 H2].
      split; [done|]. split; [done|]. split; [by apply Hquiet|done].
    + split; [|split; [|split; [by apply Hquiet|done]]].
      * intros ch c Hc. destruct (decide (ch = length (chans st))) as [->|Hne].
        -- apply Exists_app. right. constructor. eauto.
        -- rewrite lookup_app_l in Hc.
           2:{ apply lookup_lt_Some in Hc. rewrite length_app in Hc.
               simpl in Hc. lia. }
           apply Exists_app. left. by eapply Hlisten.
      * intros ch c Hc Hb. destruct (decide (ch = length (chans st))) as [->|Hne].
        -- rewrite lookup_app_r, Nat.sub_diag in Hc by lia. simpl in Hc.
           simplify_eq. simpl in Hb. by destruct Hb.
        -- rewrite lookup_app_l in Hc.
           2:{ apply lookup_lt_Some in Hc. rewrite length_app in Hc.
               simpl in Hc. lia. }
           apply Exists_app. left. by eapply Hemit.
    + destruct (chan_take_spec _ _ _ Htake) as (Hfull & Hb' & Hcl').
      split; [|split; [|split; [|done]]].
      * intros ch0 c0 Hc0. apply Exists_app. left.
        destruct (decide (ch0 = ch)) as [->|Hne]; [by eapply Hlisten|].
        rewrite list_lookup_insert_ne in Hc0 by done. by eapply Hlisten.
      * intros ch0 c0 Hc0 Hb0. apply Exists_app. left.
        destruct (decide (ch0 = ch)) as [->|Hne].
        -- by eapply Hemit.
        -- rewrite list_lookup_insert_ne in Hc0 by done. by eapply Hemit.
      * apply recv_after_snoc; [done|]. intros ch0 v0 Hv.
        destruct Hr as [Hr|Hr]; [congruence|]. rewrite Hr in Hv.
        injection Hv as <- <-. split; [by eapply Hlisten|by eapply Hemit].
  - done.
  - destruct (Hmono (EvExit 0)) as [H1 H2].
    split; [done|]. split; [done|]. split; [by apply Hquiet|done].
  - destruct (Hmono (EvFatal tid m)) as [H1 H2].
    split; [done|]. split; [done|]. split; [by apply Hquiet|done].
  - destruct (Hmono (EvGo tid (length (threads st)))) as [H1 H2].
    split; [done|]. split; [done|]. split; [by apply Hquiet|lia].
  - destruct (Hmono (EvDefer tid)) as [H1 H2].
    split; [done|]. split; [done|]. split; [by apply Hquiet|done].
  - destruct (Hmono EvSignal) as [H1 H2].
    split; [done|]. split; [done|]. split; [by apply Hquiet|done].
  - split; [|split; [|split; [by apply Hquiet|done]]].
    + intros ch0 c0 Hc0. apply Exists_app. left.
      destruct (decide (ch0 = ch)) as [->|Hne]; [by eapply Hlisten|].
      rewrite list_lookup_insert_ne in Hc0 by done. by eapply Hlisten.
    + intros ch0 c0 Hc0 Hb0. apply Exists_app.
      destruct (decide (ch0 = ch)) as [->|Hne].
      * right. constructor. simpl. apply Nat.eqb_refl.
      * left. rewrite list_lookup_insert_ne in Hc0 by done. by eapply Hemit.
  - split; [|split; [|split; [by apply Hquiet|done]]].
    + intros ch0 c0 Hc0. apply Exists_app. left.
      destruct (decide (ch0 = ch)) as [->|Hne]; [by eapply Hlisten|].
      rewrite list_lookup_insert_ne in Hc0 by done. by eapply Hlisten.
    + intros ch0 c0 Hc0 Hb0. apply Exists_app.
      destruct (decide (ch0 = ch)) as [->|Hne].
      * right. constructor. simpl. apply Nat.eqb_refl.
      * left. rewrite list_lookup_insert_ne in Hc0 by done. by eapply Hemit.
Qed.

Lemma awaits_recv_spec p ch :
  awaits_recv p = Some ch -> exists k, p = Vis (chan_recv ch) k.
Proof.
  destruct p as [| |R o k| |]; try done.
  destruct o; simpl; intros [= ->]. eauto.
Qed.

Lemma cancel_is_op ev :
  is_cancel ev = true ->
  exists tid, tid_of ev = Some tid /\ sel_recv ev = None /\ sel_errlog ev = None.
Proof.
  destruct ev as [tid R o r| | | | | | |]; try done.
  destruct o; try done. eauto.
Qed.

Lemma go_outside_main w s ev :
  In ev (trace (run w s)) -> tid_of ev <> Some 0%nat -> is_go ev = false.
Proof.
  intros Hin Hne. destruct (other_event w s ev Hin Hne) as [H|H].
  - by destruct ev.
  - by destruct ev.
Qed.

Lemma filter_events_of (f : Event -> bool) i tr :
  (forall ev, In ev tr -> f ev = true -> tid_of ev = Some i) ->
  List.filter f tr = List.filter f (events_of i tr).
Proof.
  induction tr as [|e tr IH]; intros H; [done|].
  assert (IH' : List.filter f tr = List.filter f (events_of i tr)).
  { apply IH. intros ev Hin. apply H. by right. }
  unfold events_of in *. cbn [List.filter]. unfold belongs at 1.
  destruct (f e) eqn:Hf.
  - rewrite (H e); [|by left|done]. rewrite Nat.eqb_refl. cbn [List.filter].
    by rewrite Hf, IH'.
  - destruct (tid_of e) as [t|]; [|done].
    destruct (Nat.eqb t i); [|done]. cbn [List.filter]. by rewrite Hf.
Qed.

Lemma watcher_cancels_once acc p :
  watcher_shape acc p -> (length (List.filter is_cancel acc) <= 1)%nat.
Proof.
  unfold watcher_shape.
  destruct acc as [|e1 [|e2 [|e3 [|e4 acc]]]]; intros H; try done; simpl.
  - lia.
  - destruct H as (ch & v & H1). destruct (is_cancel e1) eqn:Hc; simpl; [|lia].
    apply cancel_is_op in Hc as (? & _ & ? & _). congruence.
  - destruct H as (ch & v & H1 & H2).
    destruct (is_cancel e1) eqn:Hc1.
    { apply cancel_is_op in Hc1 as (? & _ & ? & _). congruence. }
    destruct (is_cancel e2) eqn:Hc2; simpl; [|lia].
    apply cancel_is_op in Hc2 as (? & _ & _ & ?). congruence.
  - destruct H as (ch & v & H1 & H2 & H3).
    destruct (is_cancel e1) eqn:Hc1.
    { apply cancel_is_op in Hc1 as (? & _ & ? & _). congruence. }
    destruct (is_cancel e2) eqn:Hc2.
    { apply cancel_is_op in Hc2 as (? & _ & _ & ?). congruence. }
    destruct (is_cancel e3); simpl; lia.
Qed.

Lemma watcher_shape_first e1 l p :
  watcher_shape (e1 :: l) p -> exists ch v, sel_recv e1 = Some (ch, v).
Proof.
  unfold watcher_shape. destruct l as [|e2 [|e3 [|e4 l]]]; try done.
  - intros (ch & v & H & _). eauto.
  - intros (ch & v & H & _). eauto.
Qed.

Lemma watcher_shape_second e1 e2 l p :
  watcher_shape (e1 :: e2 :: l) p -> sel_errlog e2 <> None.
Proof.
  unfold watcher_shape. destruct l as [|e3 [|e4 l]]; try done.
  - intros (ch & v & _ & H). congruence.
  - intros (ch & v & _ & H & _). congruence.
Qed.

Lemma watcher_shape_length l p : watcher_shape l p -> (length l <= 3)%nat.
Proof.
  unfold watcher_shape. destruct l as [|e1 [|e2 [|e3 [|e4 l]]]]; simpl; try done; lia.
Qed.

(** Who cancels is a goroutine other than [main]. *)
Lemma cancel_by_child w s ev :
  In ev (trace (run w s)) -> is_cancel ev = true ->
  exists tid th, tid_of ev = Some tid /\ tid <> 0%nat /\
                 threads (run w s) !! tid = Some th.
Proof.
  intros Hin Hc. destruct (cancel_is_op ev Hc) as (tid & Htid & _).
  exists tid.
  assert (Hin' : In ev (events_of tid (trace (run w s)))) by by apply events_of_In.
  assert (Hne : tid <> 0%nat).
  { intros ->. destruct (main_facts w s) as (th & _ & Hstatic).
    destruct Hstatic as (_ & _ & (Hnone & _) & _).
    rewrite forallb_forall in Hnone. specialize (Hnone ev Hin').
    by rewrite Hc in Hnone. }
  destruct (threads (run w s) !! tid) as [th|] eqn:Hth; [by eauto|].
  rewrite (no_thread_no_events w s tid Hth) in Hin'. destruct Hin'.
Qed.

(** C3 (watcher protocol).  In every run: (a) at most one goroutine is
    started, and only after the non-blocking check on the channel that
    [ListenAndServe] returned found nothing; (b) a goroutine other than
    [main] that has not done anything yet is about to receive from a
    channel, and while that channel is empty and open its steps change
    nothing; (c) every call of [cancel] is made by a goroutine other than
    [main] that has received from a channel before, and that receive came
    after [ListenAndServe] returned the channel and after the transport
    task sent on it or closed it; (d) [cancel] is called at most once.  A
    signal may mark the context done at any time; it is not a call of
    [cancel]. *)
Theorem C3_watcher_protocol w s :
  let st := run w s in
  let tr := trace st in
  ((length (List.filter is_go tr) <= 1)%nat /\
   (List.filter is_go tr <> [] ->
    exists u ch, find_ev sel_listen (main_events tr) = Some (u, ch) /\
                 find_ev sel_check (main_events tr) = Some (ch, None))) /\
  (forall tid th,
     tid <> 0%nat -> threads st !! tid = Some th -> events_of tid tr = [] ->
     exists ch, awaits_recv (t_prog th) = Some ch /\
       forall c, chans st !! ch = Some c -> buf c = None -> closed c = false ->
                 step w (Run tid) st = st) /\
  (forall pre ev post,
     tr = pre ++ ev :: post -> is_cancel ev = true ->
     exists tid, tid_of ev = Some tid /\ tid <> 0%nat /\
       exists pre1 rcv pre2 ch v,
         pre = pre1 ++ rcv :: pre2 /\ tid_of rcv = Some tid /\
         sel_recv rcv = Some (ch, v) /\ listened ch pre1 /\ emitted ch pre1) /\
  (length (List.filter is_cancel tr) <= 1)%nat.
Proof.
  intros st tr. subst tr st.
  destruct (main_facts w s) as (th0 & Hth0 & Hstatic).
  destruct Hstatic as (_ & _ & (Hnocancel & Hgo1 & Hgo2) & _).
  destruct (chan_inv_run w s) as (_ & _ & Hrecv & Hlen).
  assert (Hgo : List.filter is_go (trace (run w s)) = List.filter is_go (main_events (trace (run w s)))).
  { apply filter_main. intros ev Hin Hne. by eapply go_outside_main. }
  split; [|split; [|split]].
  - rewrite Hgo. by split.
  - intros tid th Hne Hth Hnone.
    pose proof (child_facts w s tid th Hne Hth) as Hshape.
    rewrite Hnone in Hshape. destruct Hshape as [ch Hch].
    exists ch. split; [done|]. intros c Hc Hb Hcl.
    apply awaits_recv_spec in Hch as [k Hp].
    eapply step_blocked; eauto. simpl. rewrite Hc. unfold chan_take.
    by rewrite Hb, Hcl.
  - intros pre ev post Htr Hc.
    assert (Hin : In ev (trace (run w s))).
    { rewrite Htr. apply in_app_iff. right. by left. }
    destruct (cancel_by_child w s ev Hin Hc) as (tid & th & Htid & Hne & Hth).
    exists tid. split; [done|]. split; [done|].
    pose proof (child_facts w s tid th Hne Hth) as Hshape.
    rewrite Htr, events_of_app in Hshape.
    unfold events_of at 2 in Hshape. cbn [List.filter] in Hshape.
    unfold belongs at 1 in Hshape. rewrite Htid, Nat.eqb_refl in Hshape.
    fold (events_of tid post) in Hshape.
    destruct (cancel_is_op ev Hc) as (tid' & _ & Hnr & Hnl).
    destruct (events_of tid pre) as [|e1 [|e2 [|e3 l]]] eqn:Hpre;
      cbn [app] in Hshape.
    + destruct (watcher_shape_first _ _ _ Hshape) as (ch & v & Hr). congruence.
    + by pose proof (watcher_shape_second _ _ _ _ Hshape).
    + destruct (watcher_shape_first _ _ _ Hshape) as (ch & v & Hr).
      assert (Hin1 : In e1 (events_of tid pre)) by (rewrite Hpre; by left).
      apply events_of_In in Hin1 as [Hin1 Htid1].
      apply in_split in Hin1 as (pre1 & pre2 & ->).
      exists pre1, e1, pre2, ch, v. split; [done|]. split; [done|].
      split; [done|]. eapply Hrecv; [|exact Hr].
      rewrite Htr, <- app_assoc. reflexivity.
    + pose proof (watcher_shape_length _ _ Hshape) as Hl. simpl in Hl.
      rewrite length_app in Hl. simpl in Hl. lia.
  - assert (Hall : forall ev, In ev (trace (run w s)) -> is_cancel ev = true ->
                              tid_of ev = Some 1%nat).
    { intros ev Hin Hc.
      destruct (cancel_by_child w s ev Hin Hc) as (tid & th & Htid & Hne & Hth).
      apply lookup_lt_Some in Hth. rewrite Hlen, Hgo in Hth.
      rewrite Htid. f_equal. lia. }
    rewrite (filter_events_of _ 1 _ Hall).
    destruct (threads (run w s) !! 1%nat) as [th|] eqn:Hth.
    + eapply watcher_cancels_once. by apply (child_facts w s 1 th).
    + rewrite (no_thread_no_events w s 1 Hth). simpl. lia.
Qed.

End Watcher.

Lemma C3_watcher_protocol_witness :
  trace (run world_ok sched_late_failure)
  = removelast (trace (run world_ok sched_late_failure)) ++ [EvOp 1 ctx_cancel tt] /\
  cancelled (run world_ok sched_late_failure) = true /\
  (length (List.filter is_cancel (trace (run world_ok sched_late_failure))) <= 1)%nat.
Proof.
  split; [vm_compute; reflexivity|]. split; [vm_compute; reflexivity|].
  apply (C3_watcher_protocol world_ok sched_late_failure).
Defined.

(** ** The hardware configuration and the temporary directory *)

Section Hardware.
Context {SriovConfig : Type}.
Implicit Types (w : @World SriovConfig) (st : @State SriovConfig).

Lemma replay_app w a b store :
  replay w (a ++ b) store
  = match replay w a store with
    | Some store' => replay w b store'
    | None => None
    end.
Proof.
  revert store. induction a as [|[file ptr|devs drvs ptr err] a IH];
    intros store; simpl; [done| |].
  - destruct (w_ReadConfig w file); [|done]. by case_decide.
  - destruct (store !! ptr); [|done]. by case_decide.
Qed.

Lemma exec_store w st R (o : op R) r st1 tid :
  exec w st o = Some (r, st1) ->
  match store_op (EvOp tid o r) with
  | Some sop => replay w [sop] (store st) = Some (store st1)
  | None => store st1 = store st
  end.
Proof.
  intros He. destruct o; simpl in He;
    try (repeat case_match; simplify_eq; simpl; done).
  - destruct (w_ReadConfig w file) as [c|err] eqn:Hr; simplify_eq; simpl;
      [|done].
    rewrite Hr. by rewrite decide_True.
  - destruct (store st !! cfg) as [c|] eqn:Hc; simplify_eq; simpl.
    rewrite Hc. by rewrite decide_True.
Qed.

Lemma store_ops_snoc tr ev :
  store_ops (tr ++ [ev])
  = store_ops tr ++ match store_op ev with Some sop => [sop] | None => [] end.
Proof. unfold store_ops. rewrite omap_app. simpl. by destruct (store_op ev). Qed.

Lemma store_inv_run w s :
  replay w (store_ops (trace (run w s))) [] = Some (store (run w s)).
Proof.
  apply (run_ind w (fun st => replay w (store_ops (trace st)) [] = Some (store st)));
    [done|].
  intros st st' Hinv Hex Hstep.
  destruct Hstep
    as [ |tid th R o k r st1 Hth Hp He|tid th d ds Hth Hp Hd|th Hth Hp Hd
        |tid th m Hth Hp|tid th body k Hth Hp|tid th body k Hth Hp|
        |ch c err Hc Hb Hcl|ch c Hc Hcl];
    cbn [trace store set_thread set_threads set_exited set_signalled
         set_chans set_trace log];
    rewrite ?store_ops_snoc, ?replay_app; try by rewrite Hinv.
  destruct (exec_frame _ _ _ _ _ _ He) as (Htr & _ & _). rewrite Htr, Hinv.
  pose proof (exec_store w st R o r st1 tid He) as Hs.
  destruct (store_op (EvOp tid o r)); [done|]. simpl. by rewrite Hs.
Qed.

Lemma store_ops_main w s :
  store_ops (trace (run w s)) = store_ops (main_events (trace (run w s))).
Proof.
  apply omap_main. intros ev Hin Hne.
  destruct (other_event w s ev Hin Hne) as [H|H].
  - by destruct ev.
  - destruct ev as [tid R o r| | | | | | |]; try done. by destruct o.
Qed.

Lemma store_ops_app a b : store_ops (a ++ b) = store_ops a ++ store_ops b.
Proof. apply omap_app. Qed.

Lemma hardware_call_store ev sop : store_op ev = Some sop -> hardware_call ev = true.
Proof.
  destruct ev as [tid R o r| | | | | | |]; try done. by destruct o.
Qed.

(** C8 (phase 2).  In every run: (a) when discovery is run, the only
    effect on the store before it is the read of the configured file, and
    discovery is given the object that read returned and the configured
    device and driver paths; (b) the read and the discovery happen in phase
    2, and when either fails nothing follows but the fatal log of its
    error; (c) when [main] is about to construct a pool, it is in phase 3
    and the store holds one object, the one the constructor is given: what
    discovery, which returned no error, made of what was read from the
    configured file. *)
Theorem C8_hardware_configuration w s :
  let st := run w s in
  let acc := main_events (trace st) in
  (forall pre ev post devs drvs ptr err,
     acc = pre ++ ev :: post ->
     store_op ev = Some (SUpdate devs drvs ptr err) ->
     exists config,
       find_ev sel_loaded acc = Some config /\
       store_ops pre = [SRead (SRIOVConfigFile config) ptr] /\
       devs = PCIDevicesPath config /\ drvs = PCIDriversPath config) /\
  (forall pre ev post,
     acc = pre ++ ev :: post -> hardware_call ev = true ->
     phase_of pre = 2%nat /\
     forall v, failure ev = Some v ->
       post = [] \/ exists m, post = [EvFatal 0 m] /\ msg_args m = [AErr v]) /\
  (forall th q,
     threads st !! 0%nat = Some th -> pool_ctor (t_prog th) = Some q ->
     phase_of acc = 3%nat /\
     exists config c,
       find_ev sel_loaded acc = Some config /\
       w_ReadConfig w (SRIOVConfigFile config) = Ok c /\
       let updated :=
         w_UpdateConfig w (PCIDevicesPath config) (PCIDriversPath config) c in
       snd updated = None /\ store st = [fst updated] /\ q = 0%nat).
Proof.
  intros st acc. subst acc st.
  destruct (main_facts w s) as (th & Hth & Hstatic).
  destruct Hstatic as ((Hff & _) & _ & _ & _ & _ & _ & _ & (Hstore & Hphase) & _).
  split; [|split].
  - intros pre ev post devs drvs ptr err Hacc Hev.
    unfold hardware_store in Hstore. rewrite Hacc in Hstore.
    rewrite store_ops_app in Hstore. unfold store_ops at 2 in Hstore.
    cbn [omap list_omap] in Hstore. rewrite Hev in Hstore.
    fold (store_ops post) in Hstore. rewrite <- Hacc in Hstore.
    destruct (store_ops pre) as [|[file p1|? ? ? ?] [|sop l]];
      simpl in Hstore; try done.
    + destruct (store_ops post); [|done].
      destruct Hstore as ((config & Hl & -> & -> & ->) & -> & _).
      exists config. by repeat split.
    + by destruct sop, l.
  - intros pre ev post Hacc Hcall.
    pose proof (scan_spec _ _ _ _ _ _ Hphase Hacc) as Hph.
    unfold hardware_phase in Hph. rewrite Hcall in Hph. simpl in Hph.
    split; [done|]. intros v Hv.
    pose proof (scan_spec _ _ _ _ _ _ Hff Hacc) as H.
    unfold fatal_follows in H. simpl in H. by rewrite Hph, Hv in H.
  - intros th' q Hth' Hq. rewrite Hth in Hth'. injection Hth' as <-.
    pose proof (store_inv_run w s) as Hreplay.
    rewrite store_ops_main in Hreplay.
    unfold hardware_store in Hstore.
    destruct (store_ops (main_events (trace (run w s))))
      as [|[file p1|? ? ? ?] [|[?|devs drvs p2 err] [|? ?]]];
      try done; try congruence; try (destruct Hstore; congruence).
    destruct Hstore as ((config & Hl & -> & -> & ->) & -> & Hpool).
    destruct (Hpool q Hq) as (-> & -> & Hph). split; [done|].
    simpl in Hreplay.
    destruct (w_ReadConfig w (SRIOVConfigFile config)) as [c|] eqn:Hread;
      [|done].
    case_decide; [|done]. subst p1. simpl in Hreplay.
    case_decide; [|done]. simpl in Hreplay. injection Hreplay as <-.
    exists config, c. cbv zeta. by repeat split.
Qed.

Lemma dirs_inv_run w s : tmpdirs (run w s) = dirs_of w (trace (run w s)).
Proof.
  apply (run_ind w (fun st => tmpdirs st = dirs_of w (trace st))); [done|].
  intros st st' Hinv Hex Hstep. unfold dirs_of in *.
  destruct Hstep
    as [ |tid th R o k r st1 Hth Hp He|tid th d ds Hth Hp Hd|th Hth Hp Hd
        |tid th m Hth Hp|tid th body k Hth Hp|tid th body k Hth Hp|
        |ch c err Hc Hb Hcl|ch c Hc Hcl];
    cbn [trace tmpdirs set_thread set_threads set_exited set_signalled
         set_chans set_trace log];
    rewrite ?fold_left_app; try by rewrite <- Hinv.
  destruct (exec_frame _ _ _ _ _ _ He) as (Htr & _ & _). rewrite Htr.
  cbn [fold_left]. rewrite <- Hinv. unfold dir_effect.
  destruct o; simpl in He;
    try (repeat case_match; simplify_eq; simpl; done).
  - destruct (w_TempDir w dir pattern); by simplify_eq.
  - simpl. destruct (w_RemoveAll w path); by simplify_eq.
Qed.

Lemma dirs_kept w tr dir :
  Forall (fun ev => sel_remove ev = None) tr ->
  Exists (fun ev => sel_tmpdir ev = Some dir) tr ->
  In dir (dirs_of w tr).
Proof.
  unfold dirs_of. induction tr as [|ev tr IH] using rev_ind; intros Hrm Hmk.
  - by apply Exists_nil in Hmk.
  - apply Forall_app in Hrm as [Hrm Hev]. apply Forall_cons in Hev as [Hev _].
    rewrite fold_left_app. simpl. unfold dir_effect at 1. rewrite Hev.
    apply Exists_app in Hmk as [Hmk|Hmk].
    + specialize (IH Hrm Hmk). destruct (sel_tmpdir ev); [by right|done].
    + apply Exists_cons in Hmk as [Hmk|Hmk%Exists_nil]; [|done].
      rewrite Hmk. by left.
Qed.

(** C5 (the temporary directory), as the code has it: in every run in which
    [ioutil.TempDir] made a directory and the process has ended with status
    1, that is through a fatal log, the directory still exists: the
    deferred [os.RemoveAll] has not run. *)
Theorem C5_directory_left_on_fatal w s dir :
  let st := run w s in
  find_ev sel_tmpdir (main_events (trace st)) = Some dir ->
  exited st = Some 1 ->
  In dir (tmpdirs st) /\
  Forall (fun ev => sel_remove ev = None) (trace st).
Proof.
  intros st Hdir Hex. subst st.
  destruct (main_facts w s) as (th & Hth & Hstatic).
  destruct Hstatic as (_ & _ & _ & _ & _ & _ & _ & _ & _ & (_ & Hclean)).
  destruct (exit_by_main w s 1 Hex) as (pre & ev & Hacc & Hz).
  destruct Hz as [(_ & m & ->)|(? & _)]; [|done].
  assert (Hnone : Forall (fun ev => sel_remove ev = None) (trace (run w s))).
  { apply none_outside_main.
    - by intros [].
    - intros ev Hev. destruct ev as [tid R o r| | | | | | |]; try done.
      by destruct o.
    - apply Hclean. rewrite Hacc. intros Hf. apply find_ev_none in Hf.
      apply Forall_app in Hf as [_ Hf]. by apply Forall_cons in Hf as [Hf _]. }
  split; [|done]. rewrite dirs_inv_run. apply dirs_kept; [done|].
  destruct (find_ev_some _ _ _ Hdir) as (pre' & ev' & post' & Hacc' & Hev' & _).
  apply List.Exists_exists. exists ev'. split; [|done].
  apply (main_event_in (trace (run w s))). rewrite Hacc'.
  apply in_app_iff. right. by left.
Qed.

End Hardware.

Lemma C5_directory_left_on_fatal_witness :
  let st := run world_ok (sched_bind_failure ++ [Run 0%nat]) in
  exited st = Some 1 /\
  tmpdirs st = ["/tmp/sriov-forwarder123"] /\
  In "/tmp/sriov-forwarder123" (tmpdirs st) /\
  let st' := run world_ok (main_steps 62 ++ [Signal] ++ main_steps 6) in
  exited st' = Some 0 /\ tmpdirs st' = [].
Proof.
  split; [vm_compute; reflexivity|]. split; [vm_compute; reflexivity|].
  split; [|split; vm_compute; reflexivity].
  refine (proj1 (C5_directory_left_on_fatal world_ok
                   (sched_bind_failure ++ [Run 0%nat])
                   "/tmp/sriov-forwarder123" _ _)); vm_compute; reflexivity.
Defined.

Lemma C8_hardware_configuration_witness :
  let st := run world_ok (main_steps 26) in
  pool_ctor <$> (t_prog <$> threads st !! 0%nat) = Some (Some 0%nat) /\
  store st = ["pfs+vfs"] /\
  phase_of (main_events (trace st)) = 3%nat.
Proof.
  split; [vm_compute; reflexivity|]. split; [vm_compute; reflexivity|].
  refine (proj1 (proj2 (proj2 (C8_hardware_configuration world_ok (main_steps 26)))
                   _ 0%nat _ _)); vm_compute; reflexivity.
Defined.

(** ** Loading the configuration *)

Section Loading.
Context {SriovConfig : Type}.
Implicit Types (w : @World SriovConfig) (st : @State SriovConfig).

Lemma process_fields_default w prefix f rest c c' :
  environ w = ∅ -> tag_default f <> "" ->
  processField w (tag_default f) f c = Ok c' ->
  process_fields w prefix (f :: rest) c = process_fields w prefix rest c'.
Proof.
  intros Henv Hne Hok. cbn [process_fields]. unfold field_value.
  rewrite Henv, lookup_empty, decide_False by done. by rewrite Hok.
Qed.

Lemma Process_defaults w :
  environ w = ∅ -> accepts_defaults w ->
  Process w "nsm" zero_Config = (default_Config, None).
Proof.
  intros Henv (H24 & H30 & Hurl). unfold Process, Config_fields.
  repeat (erewrite process_fields_default;
          [ | done | done
            | unfold processField; cbn [field_kind tag_default];
              rewrite ?H24, ?H30, ?Hurl; reflexivity ]).
  cbn [process_fields]. vm_compute. reflexivity.
Qed.

Lemma default_decodes w f c :
  accepts_defaults w ->
  tag_default f <> "" /\ exists c', processField w (tag_default f) f c = Ok c'.
Proof.
  intros (H24 & H30 & Hurl). unfold processField.
  destruct f; simpl; rewrite ?H24, ?H30, ?Hurl; (split; [done|eauto]).
Qed.

Lemma process_fields_error w prefix fs c err :
  accepts_defaults w ->
  snd (process_fields w prefix fs c) = Some err ->
  exists f, In f fs /\ malformed w prefix f err.
Proof.
  intros Hdef. revert c. induction fs as [|f fs IH]; intros c; simpl; [done|].
  destruct (default_decodes w f c Hdef) as (Hne & c' & Hok).
  unfold field_value.
  destruct (environ w !! envconfig_key w prefix (field_name f) (tag_split_words f))
    as [value|] eqn:Hlook.
  - destruct (processField w value f c) as [c1|e] eqn:Hp.
    + intros H. destruct (IH _ H) as (g & Hin & Hg). exists g. split; [by right|done].
    + simpl. intros [= ->]. exists f. split; [by left|]. exists value.
      split; [done|]. unfold processField in Hp.
      destruct (field_kind f); [done| |].
      * by destruct (url_Parse w value); simplify_eq.
      * by destruct (time_ParseDuration w value); simplify_eq.
  - rewrite decide_False by done. rewrite Hok.
    intros H. destruct (IH _ H) as (g & Hin & Hg). exists g. split; [by right|done].
Qed.

Lemma run_from_cons w st x s :
  run_from w st (x :: s) = run_from w (step w x st) s.
Proof. done. Qed.

Lemma step_vis w st tid th R (o : op R) k r st' :
  exited st = None -> threads st !! tid = Some th -> t_prog th = Vis o k ->
  exec w st o = Some (r, st') ->
  step w (Run tid) st
  = set_thread tid {| t_prog := k r; t_defers := t_defers th |}
      (log (EvOp tid o r) st').
Proof.
  intros Hex Hth Hp He. unfold step, step_thread. by rewrite Hex, Hth, Hp, He.
Qed.

Ltac run_step :=
  rewrite run_from_cons;
  match goal with
  | |- context [run_from ?w (step ?w ?x ?st) ?rest] =>
      let st' := eval cbv -[Process zero_Config Time_Sub Time_Add] in (step w x st) in
      replace (step w x st) with st' by reflexivity
  end.

Ltac run_process H :=
  rewrite run_from_cons;
  erewrite step_vis;
    [ | reflexivity | reflexivity | reflexivity
      | cbn [exec]; rewrite H; reflexivity ].

Lemma phase1_completes w config :
  w_Usage w = None -> Process w "nsm" zero_Config = (config, None) ->
  exists n,
    let st := run w (main_steps n) in
    phase_of (main_events (trace st)) = 2%nat /\
    find_ev sel_loaded (main_events (trace st)) = Some config /\
    exited st = None.
Proof.
  intros Husage Hproc.
  destruct (w_debug_Self w) as [err|] eqn:Hself.
  - exists 23%nat. destruct w. cbn in Husage, Hself. subst.
    unfold run, main_steps. cbv zeta. cbn [replicate]. unfold init.
    do 19 run_step. run_process Hproc.
    do 3 run_step.
    unfold run_from. cbn [fold_left]. vm_compute. done.
  - exists 22%nat. destruct w. cbn in Husage, Hself. subst.
    unfold run, main_steps. cbv zeta. cbn [replicate]. unfold init.
    do 18 run_step. run_process Hproc.
    do 3 run_step.
    unfold run_from. cbn [fold_left]. vm_compute. done.
Qed.

Lemma usage_answer w s :
  find_ev sel_usage (main_events (trace (run w s))) = Some None ->
  w_Usage w = None.
Proof.
  intros H. destruct (find_ev_some _ _ _ H) as (pre & ev & post & Hacc & Hev & _).
  assert (Hin : In ev (main_events (trace (run w s)))).
  { rewrite Hacc. apply in_app_iff. right. by left. }
  pose proof (In_answered w s ev Hin) as Hans.
  destruct ev as [tid R o r| | | | | | |]; try done.
  destruct o; try done. simpl in Hev, Hans. congruence.
Qed.

(** While printing the usage fails, phase 1 is not left. *)
Lemma usage_failure_stops w s err :
  w_Usage w = Some err ->
  (phase_of (main_events (trace (run w s))) <= 1)%nat.
Proof.
  intros Hu. destruct (main_facts w s) as (th & _ & Hstatic).
  destruct Hstatic as (_ & _ & _ & _ & _ & _ & _ & _ & (_ & Hcfg) & _).
  destruct (Nat.leb 2 (phase_of (main_events (trace (run w s))))) eqn:Hph.
  - destruct (Hcfg eq_refl) as (Hus & _). apply usage_answer in Hus. congruence.
  - apply Nat.leb_gt in Hph. lia.
Qed.

(** C7 (loading the configuration), amended: in a world whose decoders
    read the default tags as Go's do and in which printing the usage
    succeeds, (a) with no variable set [envconfig.Process] returns the
    record of the defaults without error, and [main], run on its own,
    reaches phase 2 with that record; (b) in every run, a failure in phase 1
    is the error of [envconfig.Process], and there is a field whose
    variable is set to a text its decoder rejects with that error; (c) in
    every run that has left phase 1, the configuration is the one
    [envconfig.Process] made of the zero record, without error. *)
Theorem C7_configuration_loading w :
  accepts_defaults w -> w_Usage w = None ->
  (environ w = ∅ ->
     Process w "nsm" zero_Config = (default_Config, None) /\
     exists n,
       let st := run w (main_steps n) in
       phase_of (main_events (trace st)) = 2%nat /\
       find_ev sel_loaded (main_events (trace st)) = Some default_Config /\
       exited st = None) /\
  (forall s pre ev post v,
     main_events (trace (run w s)) = pre ++ ev :: post ->
     phase_of pre = 1%nat -> failure ev = Some v ->
     exists err f,
       v = Some err /\ snd (Process w "nsm" zero_Config) = Some err /\
       In f Config_fields /\ malformed w "nsm" f err) /\
  (forall s config,
     let acc := main_events (trace (run w s)) in
     Nat.leb 2 (phase_of acc) = true ->
     find_ev sel_loaded acc = Some config ->
     Process w "nsm" zero_Config = (config, None)).
Proof.
  intros Hdef Husage. split; [|split].
  - intros Henv. pose proof (Process_defaults w Henv Hdef) as Hp.
    split; [done|]. by apply phase1_completes.
  - intros s pre ev post v Hacc Hph Hv.
    destruct (main_facts w s) as (th & _ & Hstatic).
    destruct Hstatic as (_ & _ & _ & _ & _ & _ & _ & _ & (Hscan & _) & _).
    pose proof (scan_spec _ _ _ _ _ _ Hscan Hacc) as H.
    unfold config_first in H. simpl in H. rewrite Hph, Hv in H. simpl in H.
    assert (Hin : In ev (main_events (trace (run w s)))).
    { rewrite Hacc. apply in_app_iff. right. by left. }
    pose proof (In_answered w s ev Hin) as Hans.
    destruct ev as [tid R o r| | | | | | |]; try done.
    destruct H as [H|(r' & H)].
    + destruct o; try done. simpl in Hans, Hv. subst r. by rewrite Husage in Hv.
    + destruct o; try done. simpl in H, Hans, Hv. simplify_eq.
      destruct (snd (Process w "nsm" zero_Config)) as [err|] eqn:Herr; [|done].
      simplify_eq. destruct (process_fields_error _ _ _ _ _ Hdef Herr) as (f & Hin' & Hf).
      by exists err, f.
  - intros s config acc Hph Hl. subst acc.
    destruct (main_facts w s) as (th & _ & Hstatic).
    destruct Hstatic as (_ & _ & _ & _ & _ & _ & _ & _ & (_ & Hcfg) & _).
    destruct (Hcfg Hph) as (_ & config' & Hl' & Hin).
    rewrite Hl in Hl'. injection Hl' as <-.
    by pose proof (In_answered w s _ Hin) as Hans.
Qed.

End Loading.

Lemma world_ok_accepts : accepts_defaults world_ok.
Proof. by repeat split. Qed.

Lemma C7_configuration_loading_witness :
  environ world_ok = ∅ /\
  Process world_ok "nsm" zero_Config = (default_Config, None) /\
  MaxTokenLifetime default_Config = 86400000000000 /\
  ResourcePollTimeout default_Config = 30000000000 /\
  NSName default_Config = "sriovns".
Proof.
  split; [reflexivity|]. split; [|by vm_compute].
  refine (proj1 (proj1 (C7_configuration_loading world_ok _ _) _));
    [by repeat split|reflexivity|reflexivity].
Defined.

Lemma C7_usage_failure_counterexample :
  let w := world_no_usage in
  environ w = ∅ /\ accepts_defaults w /\
  Process w "nsm" zero_Config = (default_Config, None) /\
  (forall s, (phase_of (main_events (trace (run w s))) <= 1)%nat) /\
  let st := run w (main_steps 19) in
  exited st = Some 1 /\
  last (trace st)
  = Some (EvFatal 0 (Msg [AErr (Some "write /dev/stdout: bad file descriptor")])).
Proof.
  split; [reflexivity|]. split; [by repeat split|].
  split; [by vm_compute|]. split; [|by vm_compute].
  intros s. by eapply usage_failure_stops.
Qed.

(** * More of what [main] does: proofs *)

Ltac in_nth_from l0 l k :=
  lazymatch l with
  | EvOp _ ?o' _ :: ?rest =>
      lazymatch goal with
      | |- In (EvOp _ ?o _) _ =>
          let h := head_of o in let h' := head_of o' in
          first [ constr_eq h h'; apply (nth_error_In l0 k); reflexivity
                | in_nth_from l0 rest (S k) ]
      end
  | _ :: ?rest => in_nth_from l0 rest (S k)
  end.
Ltac in_nth :=
  lazymatch goal with
  | |- In _ ?l => in_nth_from l l O
  end.

Ltac solve_wire :=
  let ev := fresh "ev" in let H := fresh "H" in
  intros ev H; vm_compute in H;
  first [discriminate H
        | injection H as <-;
          repeat lazymatch goal with |- exists _, _ => eexists end;
          repeat match goal with
                 | |- _ /\ _ => split
                 | |- In _ _ => solve [in_nth]
                 | |- _ <> _ => discriminate
                 | |- forall _, _ => solve_wire
                 | |- _ = _ => reflexivity
                 end ].

Ltac solve_loads :=
  let config := fresh "config" in let H := fresh "H" in
  intros config H; vm_compute in H;
  first [discriminate H | injection H as <-; in_nth].

Ltac solve_more :=
  idtac;
  lazymatch goal with
  | |- True => exact I
  | |- anything _ _ => exact I
  | |- main_more _ _ =>
      split; [solve_loads|];
      split; [repeat split; vm_compute; lia|];
      split; [vm_compute; finish|];
      split; [vm_compute; finish|];
      split; [vm_compute; finish|];
      split; [vm_compute; finish|];
      split; [vm_compute; finish|];
      split; [split; vm_compute; finish|];
      split; [split; vm_compute; finish|];
      split; [split; [solve_wire | split; [solve_wire | solve_wire]]|];
      split; [split; [solve_wire | solve_wire]|];
      split; [solve_wire | solve_wire]
  end.

Lemma main_paths_more : main_ok main_more anything.
Proof.
  unfold main_ok, main, exitOnErr, exitOnErr_func1, Fatal, Fatalf, Infof,
    Error, K_of, child_ok.
  hide_formats.
  repeat explore_step solve_more.
Qed.

Section More.
Context {SriovConfig : Type}.
Implicit Types (w : @World SriovConfig) (st : @State SriovConfig).

Lemma more_facts w s :
  exists th, threads (run w s) !! 0%nat = Some th /\
             main_more (main_events (trace (run w s))) (t_prog th).
Proof.
  destruct (main_thread w s) as [th Hth]. exists th. split; [done|].
  destruct (paths_inv_run main_more anything w s main_paths_more) as [Hinv _].
  specialize (Hinv _ _ Hth). unfold thread_inv in Hinv.
  destruct (exited (run w s)); [done|]. eapply all_paths_here; eauto.
Qed.

Lemma main_tid tr ev : In ev (main_events tr) -> tid_of ev = Some 0%nat.
Proof. intros H. by apply (events_of_In 0) in H as [_ ?]. Qed.

Lemma In_middle {A} (pre : list A) ev post : In ev (pre ++ ev :: post).
Proof. apply in_app_iff. right. by left. Qed.

Lemma loaded_is_processed w s config :
  find_ev sel_loaded (main_events (trace (run w s))) = Some config ->
  Process w "nsm" zero_Config = (config, None).
Proof.
  intros Hl. destruct (more_facts w s) as (th & _ & Hload & _).
  by pose proof (In_answered w s _ (Hload _ Hl)) as Hans.
Qed.

(** ** Returning *)

Lemma dir_effect_op w dirs ev :
  dir_effect w dirs ev
  = match dir_op ev with Some d => apply_dir_op w dirs d | None => dirs end.
Proof.
  unfold dir_effect, dir_op.
  destruct (sel_tmpdir ev); [done|]. by destruct (sel_remove ev).
Qed.

Lemma dirs_of_ops w tr :
  dirs_of w tr = fold_left (apply_dir_op w) (dir_ops tr) [].
Proof.
  unfold dirs_of, dir_ops. generalize (@nil string).
  induction tr as [|ev tr IH]; intros dirs; [done|].
  cbn [fold_left omap list_omap]. rewrite IH, dir_effect_op.
  by destruct (dir_op ev).
Qed.

Lemma dir_ops_main w s :
  dir_ops (trace (run w s)) = dir_ops (main_events (trace (run w s))).
Proof.
  apply omap_main. intros ev Hin Hne.
  destruct (other_event w s ev Hin Hne) as [H|H].
  - by destruct ev.
  - destruct ev as [tid R o r| | | | | | |]; try done. by destruct o.
Qed.

Lemma dir_ops_made acc name rest :
  dir_ops acc = DMake name :: rest -> find_ev sel_tmpdir acc = Some name.
Proof.
  induction acc as [|ev acc IH]; [done|]. unfold dir_ops in *.
  cbn [omap list_omap find_ev]. unfold dir_op at 1.
  destruct (sel_tmpdir ev) as [n|]; [by intros [= ->]|].
  destruct (sel_remove ev); [done|]. apply IH.
Qed.

(** X1 (returning).  In every run that has ended with status 0, the last
    things [main] did are the wait for the context, which was done, and the
    two deferred calls in the reverse order of their [defer]: the removal of
    the directory [ioutil.TempDir] made, then the close of the tracer that
    [InitJaeger] returned.  The results of the two calls are ignored, and
    the directory is gone unless [os.RemoveAll] failed. *)
Theorem exit_zero_after_cleanup w s :
  let st := run w s in
  exited st = Some 0 ->
  exists pre tmpDir closer r1 r2,
    main_events (trace st)
    = pre ++ [EvOp 0 ctx_Done tt; EvOp 0 (os_RemoveAll tmpDir) r1;
              EvOp 0 (io_Close closer) r2; EvExit 0] /\
    find_ev sel_tmpdir (main_events (trace st)) = Some tmpDir /\
    find_ev sel_jaeger (main_events (trace st)) = Some closer /\
    ctx_done st = true /\
    tmpdirs st = match w_RemoveAll w tmpDir with
                 | None => []
                 | Some _ => [tmpDir]
                 end.
Proof.
  intros st Hex. subst st.
  destruct (exit_by_main w s 0 Hex) as (pre0 & ev & Hacc & Hz).
  destruct Hz as [(? & _)|(_ & ->)]; [done|].
  destruct (more_facts w s) as (th & _ & _ & _ & _ & Hret & _).
  assert (Hr : rev (main_events (trace (run w s))) = EvExit 0 :: rev pre0).
  { by rewrite Hacc, rev_app_distr. }
  unfold returns in Hret. rewrite Hr in Hret. destruct Hret as (_ & Hret).
  destruct (rev pre0) as [|e3 [|e2 [|e1 rest]]] eqn:Hrev; try done.
  destruct Hret as (-> & (tmpDir & r1 & -> & Hops) & (closer & r2 & -> & Hj)).
  assert (Hpre : pre0 = rev rest ++ [EvOp 0 ctx_Done tt;
                                     EvOp 0 (os_RemoveAll tmpDir) r1;
                                     EvOp 0 (io_Close closer) r2]).
  { rewrite <- (rev_involutive pre0), Hrev. cbn [rev]. by rewrite <- !app_assoc. }
  exists (rev rest), tmpDir, closer, r1, r2.
  split; [by rewrite Hacc, Hpre, <- app_assoc|].
  split; [by eapply dir_ops_made|]. split; [done|]. split.
  - apply (proj1 (done_inv_run w s)). apply List.Exists_exists.
    exists (EvOp 0 ctx_Done tt). split; [|done].
    apply (main_event_in (trace (run w s))). rewrite Hacc, Hpre.
    apply in_app_iff. left. apply in_app_iff. right. by left.
  - rewrite dirs_inv_run, dirs_of_ops, dir_ops_main, Hops. simpl.
    destruct (w_RemoveAll w tmpDir); [done|].
    unfold remove_dir. rewrite filter_cons_False; [done|]. by intros H.
Qed.

(** ** Fatal logs *)

(** X2 (what ends the process with status 1).  In every run that has ended
    with status 1, the last two things [main] did are a call that failed
    during one of the phases 1 to 8 and the fatal log of its error, worded
    as the source words it for that call.  So no failure before phase 1 or
    after start-up has completed ends the process with status 1. *)
Theorem exit_one_has_cause w s :
  let st := run w s in
  exited st = Some 1 ->
  exists pre ev v,
    main_events (trace st) = pre ++ [ev; EvFatal 0 (fatal_message ev v)] /\
    failure ev = Some v /\ in_startup (phase_of pre) = true.
Proof.
  intros st Hex. subst st.
  destruct (exit_by_main w s 1 Hex) as (pre0 & ev0 & Hacc & Hz).
  destruct Hz as [(_ & m & ->)|(? & _)]; [|done].
  destruct (more_facts w s) as (th & _ & _ & _ & _ & _ & Hcaused & Hworded & _).
  assert (Hr : rev (main_events (trace (run w s))) = EvFatal 0 m :: rev pre0).
  { by rewrite Hacc, rev_app_distr. }
  unfold fatal_caused in Hcaused. rewrite Hr in Hcaused.
  destruct (rev pre0) as [|ev pre'] eqn:Hrev; [done|].
  destruct Hcaused as (Hph & v & Hv & Hm).
  assert (Hpre : pre0 = rev pre' ++ [ev]).
  { by rewrite <- (rev_involutive pre0), Hrev. }
  assert (Hacc' : main_events (trace (run w s))
                  = rev pre' ++ ev :: [EvFatal 0 m]).
  { by rewrite Hacc, Hpre, <- app_assoc. }
  pose proof (scan_spec _ _ _ _ _ _ Hworded Hacc') as H.
  unfold fatal_worded in H. simpl in H. rewrite Hph, Hv in H.
  destruct H as [H|H]; [done|]. injection H as ->.
  exists (rev pre'), ev, v. by rewrite Hacc'.
Qed.

(** X3 (the wording of a fatal log).  In every run, a call of [main] that
    fails during one of the phases 1 to 8 is followed by the fatal log with
    the format the source gives for that call, or without format for
    [envconfig.Usage] and the check of the error channel; while that log is
    not written, the next step of [main] writes it. *)
Theorem failure_logged_as_worded w s pre ev post v :
  let st := run w s in
  main_events (trace st) = pre ++ ev :: post ->
  failure ev = Some v -> in_startup (phase_of pre) = true ->
  (post = [] \/ post = [EvFatal 0 (fatal_message ev v)]) /\
  (post = [] ->
   trace (run w (s ++ [Run 0%nat]))
   = trace st ++ [EvFatal 0 (fatal_message ev v)]).
Proof.
  intros st Hacc Hv Hph. subst st.
  assert (Hforall : forall s' post',
            main_events (trace (run w s')) = pre ++ ev :: post' ->
            post' = [] \/ post' = [EvFatal 0 (fatal_message ev v)]).
  { intros s' post' Hacc'.
    destruct (more_facts w s') as (th & _ & _ & _ & _ & _ & _ & Hworded & _).
    pose proof (scan_spec _ _ _ _ _ _ Hworded Hacc') as H.
    unfold fatal_worded in H. simpl in H. by rewrite Hph, Hv in H. }
  split; [by eapply Hforall|]. intros ->.
  destruct (main_facts w s) as (th & Hth & (_ & Hend) & _).
  rewrite Hacc in Hend. apply at_end_spec in Hend. unfold fatal_next in Hend.
  rewrite Hph, Hv in Hend. destruct Hend as (m & Hm & _).
  apply awaits_fatal_spec in Hm.
  assert (Halive : exited (run w s) = None).
  { eapply alive_by_main; eauto. by eapply failure_not_terminal. }
  destruct (step_main_fatal w s th m Halive Hth Hm) as (_ & Htr).
  assert (Hacc' : main_events (trace (run w (s ++ [Run 0%nat])))
                  = pre ++ ev :: [EvFatal 0 m]).
  { rewrite Htr, main_events_snoc_own by done. by rewrite Hacc, <- app_assoc. }
  destruct (Hforall _ _ Hacc') as [H|H]; [done|]. injection H as ->. done.
Qed.

(** ** The log of the phases *)

Lemma snoc_or_nil {A} (l : list A) : l = [] \/ exists l' x, l = l' ++ [x].
Proof. induction l using rev_ind; eauto. Qed.

(** X4 (the phases are announced in order).  In every run, the k-th
    announcement [main] logs is the announcement of phase k as the source
    words it, the success message is logged in phase 8, and each of these
    lines comes right after a reading of the time elapsed since the first
    reading of the clock and carries that reading as its last argument. *)
Theorem phases_announced_in_order w s pre ev post :
  let acc := main_events (trace (run w s)) in
  acc = pre ++ ev :: post -> announces ev || completes ev = true ->
  (announces ev = true ->
   info_format ev = nth_error phase_formats (phase_of pre)) /\
  (completes ev = true -> phase_of pre = 8%nat) /\
  exists pre' e starttime d,
    pre = pre' ++ [e] /\ sel_since e = Some (starttime, d) /\
    find_ev sel_now acc = Some starttime /\ last_arg ev = Some (ADuration d).
Proof.
  intros acc Hacc Hev. subst acc.
  destruct (more_facts w s)
    as (th & _ & _ & _ & _ & _ & _ & _ & Hord & (Htimed & Hhead) & _).
  pose proof (scan_spec _ _ _ _ _ _ Hord Hacc) as [Ha Hc].
  cbn [Nat.add] in Ha, Hc.
  split; [intros H; by rewrite H in Ha|]. split; [intros H; by rewrite H in Hc|].
  destruct (snoc_or_nil pre) as [->|(pre' & e & ->)].
  - rewrite Hacc in Hhead. simpl in Hhead. congruence.
  - rewrite <- app_assoc in Hacc. cbn [app] in Hacc.
    pose proof (scan_spec _ _ _ _ _ _ Htimed Hacc) as H.
    unfold elapsed_logged in H. rewrite Hev in H.
    destruct H as (t0 & d & Ht0 & Hs & Hl). by exists pre', e, t0, d.
Qed.

(** ** [debug.Self] *)

(** X5 (an error of [debug.Self] is not fatal).  In every run in which
    [debug.Self] returns an error, the next thing [main] does is to log
    that error at info level, and after that it reads the clock to start
    the phases; the process goes on. *)
Theorem debug_error_is_logged w s pre ev post err :
  let st := run w s in
  main_events (trace st) = pre ++ ev :: post ->
  sel_debug ev = Some (Some err) ->
  w_debug_Self w = Some err /\
  match post with
  | [] =>
      let st' := run w (s ++ [Run 0%nat]) in
      exited st' = None /\
      trace st' = trace st ++ [EvOp 0 (Infof "%s" [AErr (Some err)]) tt]
  | e1 :: rest1 =>
      e1 = EvOp 0 (Infof "%s" [AErr (Some err)]) tt /\
      match rest1 with
      | [] => True
      | e2 :: _ => exists t, sel_now e2 = Some t
      end
  end.
Proof.
  intros st Hacc Hev. subst st. split.
  - assert (Hin : In ev (main_events (trace (run w s)))).
    { rewrite Hacc. apply In_middle. }
    pose proof (In_answered w s ev Hin) as Hans.
    destruct ev as [tid R o r| | | | | | |]; try done.
    destruct o; try done. simpl in Hev, Hans. congruence.
  - destruct (more_facts w s)
      as (th & Hth & _ & _ & _ & _ & _ & _ & _ & _ & (Hscan & Hend) & _).
    destruct post as [|e1 rest1].
    + rewrite Hacc in Hend. apply at_end_spec in Hend. unfold debug_next in Hend.
      rewrite Hev in Hend. apply awaits_log_spec in Hend as [k Hk].
      assert (Halive : exited (run w s) = None).
      { eapply alive_by_main; eauto.
        destruct ev as [tid R o r| | | | | | |]; done. }
      destruct (step_op w s 0%nat th _ _ k tt (run w s) Halive Hth Hk eq_refl)
        as (Htr & Hex & _).
      by split.
    + pose proof (scan_spec _ _ _ _ _ _ Hscan Hacc) as H.
      unfold debug_logged in H. by rewrite Hev in H.
Qed.

(** ** What the calls are given *)

Lemma find_pick_first kind acc ev :
  find_ev (pick kind) acc = Some ev -> In ev acc /\ kind ev = true.
Proof.
  intros H. destruct (find_ev_some _ _ _ H) as (pre & e & post & -> & He & _).
  unfold pick in He. destruct (kind e) eqn:Hk; [|done]. injection He as ->.
  split; [apply In_middle|done].
Qed.

Lemma find_pick_unique kind acc ev :
  (length (List.filter kind acc) <= 1)%nat -> In ev acc -> kind ev = true ->
  find_ev (pick kind) acc = Some ev.
Proof.
  induction acc as [|e acc IH]; [done|]. cbn [List.filter find_ev].
  unfold pick at 1. destruct (kind e) eqn:Hk.
  - cbn [length]. intros Hlen [->|Hin] Hev; [done|].
    assert (Hf : In ev (List.filter kind acc)) by (apply List.filter_In; eauto).
    destruct (List.filter kind acc); [done|]. simpl in Hlen. lia.
  - intros Hlen [->|Hin] Hev; [congruence|]. by apply IH.
Qed.

(** X6 (pools and device plugin).  In every run, [pci.NewPool],
    [resource.NewPool] and [deviceplugin.StartServers] are each called at
    most once, and: the PCI pool is made from [PCIDevicesPath],
    [PCIDriversPath] and [VFIOPath] of the loaded configuration and the
    object [ReadConfig] returned for its [SRIOVConfigFile]; the resource
    pool is made from the token pool that [token.NewPool] made of that same
    object, and that object; the device plugin servers are started with
    that token pool, [ResourcePollTimeout] of the configuration and the
    manager of its [DevicePluginPath] and [PodResourcesPath]. *)
Theorem pools_and_device_plugin_wiring w s :
  let acc := main_events (trace (run w s)) in
  ((length (List.filter is_pci_pool acc) <= 1)%nat /\
   (length (List.filter is_resource_pool acc) <= 1)%nat /\
   (length (List.filter is_start_servers acc) <= 1)%nat) /\
  forall ev, In ev acc ->
  (is_pci_pool ev = true ->
   exists config sriovConfig made,
     Process w "nsm" zero_Config = (config, None) /\
     In (EvOp 0 (sriovconfig_ReadConfig (SRIOVConfigFile config))
           (Ok sriovConfig)) acc /\
     ev = EvOp 0 (pci_NewPool (PCIDevicesPath config) (PCIDriversPath config)
                    (VFIOPath config) sriovConfig) made) /\
  (is_resource_pool ev = true ->
   exists config sriovConfig tokenPool resourcePool,
     Process w "nsm" zero_Config = (config, None) /\
     In (EvOp 0 (sriovconfig_ReadConfig (SRIOVConfigFile config))
           (Ok sriovConfig)) acc /\
     In (EvOp 0 (token_NewPool sriovConfig) tokenPool) acc /\
     ev = EvOp 0 (resource_NewPool tokenPool sriovConfig) resourcePool) /\
  (is_start_servers ev = true ->
   exists config sriovConfig tokenPool manager err,
     Process w "nsm" zero_Config = (config, None) /\
     In (EvOp 0 (sriovconfig_ReadConfig (SRIOVConfigFile config))
           (Ok sriovConfig)) acc /\
     In (EvOp 0 (token_NewPool sriovConfig) tokenPool) acc /\
     In (EvOp 0 (k8s_NewManager (DevicePluginPath config)
                   (PodResourcesPath config)) manager) acc /\
     ev = EvOp 0 (deviceplugin_StartServers tokenPool
                    (ResourcePollTimeout config) manager) err).
Proof.
  intros acc. subst acc.
  destruct (more_facts w s)
    as (th & _ & _ & Honce & _ & _ & _ & _ & _ & _ & _ & (H1 & H2 & H3) & _).
  destruct Honce as (O1 & O2 & O3 & _).
  split; [done|]. intros ev Hin.
  split; [|split]; intros Hk.
  - destruct (H1 ev (find_pick_unique _ _ _ O1 Hin Hk))
      as (config & ptr & made & Hl & Hr & ->).
    exists config, ptr, made. split; [by eapply loaded_is_processed|done].
  - destruct (H2 ev (find_pick_unique _ _ _ O2 Hin Hk))
      as (config & ptr & tp & rp & Hl & Hr & Ht & ->).
    exists config, ptr, tp, rp. split; [by eapply loaded_is_processed|done].
  - destruct (H3 ev (find_pick_unique _ _ _ O3 Hin Hk))
      as (config & ptr & tp & mgr & err & Hl & Hr & Ht & Hm & ->).
    exists config, ptr, tp, mgr, err.
    split; [by eapply loaded_is_processed|done].
Qed.

(** X7 (endpoint and server).  In every run: the endpoint is made from
    [Name], [MaxTokenLifetime], [VFIOPath], [CgroupPath] and [ConnectTo] of
    the loaded configuration, the X.509 source, the PCI pool and the
    resource pool made before, and the hardware configuration that was
    read; the server given to [ListenAndServe] was made with the
    credentials of the same source, and the endpoint registered on it is
    that endpoint. *)
Theorem endpoint_and_server_wiring w s ev :
  let acc := main_events (trace (run w s)) in
  In ev acc ->
  (is_endpoint ev = true ->
   exists config source sriovConfig tokenPool pciPool resourcePool endpoint,
     Process w "nsm" zero_Config = (config, None) /\
     In (EvOp 0 workloadapi_NewX509Source (Ok source)) acc /\
     In (EvOp 0 (sriovconfig_ReadConfig (SRIOVConfigFile config))
           (Ok sriovConfig)) acc /\
     In (EvOp 0 (pci_NewPool (PCIDevicesPath config) (PCIDriversPath config)
                   (VFIOPath config) sriovConfig) (Ok pciPool)) acc /\
     In (EvOp 0 (resource_NewPool tokenPool sriovConfig) resourcePool) acc /\
     ev = EvOp 0 (sriovns_NewServer (Name config) source
                    (MaxTokenLifetime config) pciPool resourcePool sriovConfig
                    (VFIOPath config) (CgroupPath config) (ConnectTo config))
            endpoint) /\
  (is_serve ev = true ->
   exists source endpoint server u ch made,
     In (EvOp 0 workloadapi_NewX509Source (Ok source)) acc /\
     In (EvOp 0 (grpc_NewServer source) server) acc /\
     In (EvOp 0 (Endpoint_Register endpoint server) tt) acc /\
     In made acc /\ is_endpoint made = true /\
     (exists name src life pp rp cfg vfio cg ct,
        made = EvOp 0 (sriovns_NewServer name src life pp rp cfg vfio cg ct)
                 endpoint) /\
     ev = EvOp 0 (grpcutils_ListenAndServe u server) ch).
Proof.
  intros acc Hin. subst acc.
  destruct (more_facts w s)
    as (th & _ & _ & Honce & _ & _ & _ & _ & _ & _ & _ & _ & (H1 & H2) & _).
  destruct Honce as (_ & _ & _ & O4 & O5 & _).
  split; intros Hk.
  - destruct (H1 ev (find_pick_unique _ _ _ O4 Hin Hk))
      as (config & source & ptr & tp & pp & rp & ep & Hl & Hs & Hr & Hp & Hrp & ->).
    exists config, source, ptr, tp, pp, rp, ep.
    split; [by eapply loaded_is_processed|done].
  - destruct (H2 ev (find_pick_unique _ _ _ O5 Hin Hk))
      as (source & ep & server & u & ch & Hs & Hn & Hr & Hne & Hep & ->).
    destruct (find_ev (pick is_endpoint) (main_events (trace (run w s))))
      as [made|] eqn:Hmade; [|done].
    destruct (find_pick_first _ _ _ Hmade) as [Hin' Hk'].
    exists source, ep, server, u, ch, made. repeat split; try done.
    by apply Hep.
Qed.

(** X8 (the registry connection).  In every run, [grpc.DialContext] and
    [Register] are each called at most once, and: the registry is dialed at
    the target string of [ConnectTo] of the loaded configuration, with the
    credentials of the X.509 source; the record is submitted on the client
    made of the connection that this dial, at that target, returned. *)
Theorem registry_wiring w s :
  let acc := main_events (trace (run w s)) in
  ((length (List.filter is_dial acc) <= 1)%nat /\
   (length (List.filter is_register acc) <= 1)%nat) /\
  forall ev, In ev acc ->
  (is_dial ev = true ->
   exists config source dialed,
     Process w "nsm" zero_Config = (config, None) /\
     In (EvOp 0 workloadapi_NewX509Source (Ok source)) acc /\
     dialed = w_DialContext w (w_URLToTarget w (ConnectTo config)) /\
     ev = EvOp 0 (grpc_DialContext (w_URLToTarget w (ConnectTo config)) source)
            dialed) /\
  (is_register ev = true ->
   exists config source registryCC registryClient nse err,
     Process w "nsm" zero_Config = (config, None) /\
     w_DialContext w (w_URLToTarget w (ConnectTo config)) = Ok registryCC /\
     In (EvOp 0 (grpc_DialContext (w_URLToTarget w (ConnectTo config)) source)
           (Ok registryCC)) acc /\
     In (EvOp 0 (registrychain_NewNetworkServiceEndpointRegistryClient
                   registryCC) registryClient) acc /\
     ev = EvOp 0 (registry_Register registryClient nse) err).
Proof.
  intros acc. subst acc.
  destruct (more_facts w s)
    as (th & _ & _ & Honce & _ & _ & _ & _ & _ & _ & _ & _ & _ & (H1 & H2)).
  destruct Honce as (_ & _ & _ & _ & _ & O6 & O7).
  split; [done|]. intros ev Hin.
  split; intros Hk.
  - destruct (H1 ev (find_pick_unique _ _ _ O6 Hin Hk))
      as (config & source & target & dialed & Hl & Hs & Ht & ->).
    pose proof (In_answered w s _ Ht) as Hans. simpl in Hans. subst target.
    pose proof (In_answered w s _ Hin) as Hans. simpl in Hans. subst dialed.
    exists config, source, (w_DialContext w (w_URLToTarget w (ConnectTo config))).
    split; [by eapply loaded_is_processed|done].
  - destruct (H2 ev (find_pick_unique _ _ _ O7 Hin Hk))
      as (config & source & target & cc & client & nse & err
          & Hl & Ht & Hd & Hc & ->).
    pose proof (In_answered w s _ Ht) as Hans. simpl in Hans. subst target.
    pose proof (In_answered w s _ Hd) as Hans. simpl in Hans.
    exists config, source, cc, client, nse, err.
    split; [by eapply loaded_is_processed|]. by split.
Qed.

(** ** The watcher *)

Lemma sel_recv_inv ev ch v :
  sel_recv ev = Some (ch, v) -> exists tid, ev = EvOp tid (chan_recv ch) v.
Proof.
  destruct ev as [tid R o r| | | | | | |]; try done.
  destruct o; try done. simpl. intros [= -> ->]. eauto.
Qed.

Lemma sel_errlog_inv ev args :
  sel_errlog ev = Some args -> exists tid, ev = EvOp tid (Error args) tt.
Proof.
  destruct ev as [tid R o r| | | | | | |]; try done.
  destruct o; try done. destruct lvl; [done|]. destruct m; [|done].
  destruct r. simpl. intros [= ->]. eauto.
Qed.

Lemma is_cancel_inv ev :
  is_cancel ev = true -> exists tid, ev = EvOp tid ctx_cancel tt.
Proof.
  destruct ev as [tid R o r| | | | | | |]; try done.
  destruct o; try done. destruct r. eauto.
Qed.

(** X9 (all the watcher does).  In every run, what a goroutine other than
    [main] has done is a beginning of: receive a value from a channel, log
    that value at error level, call [cancel].  It never logs fatally and
    never ends the process. *)
Theorem watcher_does_three_things w s tid :
  tid <> 0%nat ->
  exists ch v n,
    events_of tid (trace (run w s))
    = firstn n [EvOp tid (chan_recv ch) v; EvOp tid (Error [AErr v]) tt;
                EvOp tid ctx_cancel tt].
Proof.
  intros Htid.
  destruct (threads (run w s) !! tid) as [th|] eqn:Hth.
  - pose proof (child_facts w s tid th Htid Hth) as Hshape.
    assert (Hown : forall e, In e (events_of tid (trace (run w s))) ->
                             tid_of e = Some tid).
    { intros e He. by apply events_of_In in He as [_ ?]. }
    destruct (events_of tid (trace (run w s))) as [|e1 [|e2 [|e3 [|e4 l]]]];
      simpl in Hshape.
    + by exists 0%nat, None, 0%nat.
    + destruct Hshape as (ch & v & H1).
      apply sel_recv_inv in H1 as [t1 ->].
      pose proof (Hown _ (or_introl eq_refl)) as [= ->].
      by exists ch, v, 1%nat.
    + destruct Hshape as (ch & v & H1 & H2).
      apply sel_recv_inv in H1 as [t1 ->]. apply sel_errlog_inv in H2 as [t2 ->].
      pose proof (Hown _ (or_introl eq_refl)) as [= ->].
      pose proof (Hown _ (or_intror (or_introl eq_refl))) as [= ->].
      by exists ch, v, 2%nat.
    + destruct Hshape as (ch & v & H1 & H2 & H3).
      apply sel_recv_inv in H1 as [t1 ->]. apply sel_errlog_inv in H2 as [t2 ->].
      apply is_cancel_inv in H3 as [t3 ->].
      pose proof (Hown _ (or_introl eq_refl)) as [= ->].
      pose proof (Hown _ (or_intror (or_introl eq_refl))) as [= ->].
      pose proof (Hown _ (or_intror (or_intror (or_introl eq_refl)))) as [= ->].
      by exists ch, v, 3%nat.
    + done.
  - rewrite (no_thread_no_events w s tid Hth). by exists 0%nat, None, 0%nat.
Qed.

End More.

Section Fields.
Context {SriovConfig : Type}.
Implicit Types (w : @World SriovConfig) (st : @State SriovConfig).

(** ** The fields of the configuration *)

Lemma Config_fields_NoDup : List.NoDup Config_fields.
Proof. repeat constructor; simpl; intuition discriminate. Qed.

Lemma Config_fields_all f : In f Config_fields.
Proof. destruct f; simpl; tauto. Qed.

Lemma field_value_some w prefix f : exists text, field_value w prefix f = Some text.
Proof.
  unfold field_value.
  destruct (environ w !! _) as [v|]; [eauto|]. destruct f; simpl; eauto.
Qed.

Lemma processField_idem w text f c c' :
  processField w text f c = Ok c' -> processField w text f c' = Ok c'.
Proof.
  unfold processField. destruct f; simpl;
    repeat case_match; intros; simplify_eq; done.
Qed.

Lemma processField_other w text f c t' g c' :
  f <> g -> processField w text f c = Ok c ->
  processField w t' g c = Ok c' -> processField w text f c' = Ok c'.
Proof.
  intros Hne. unfold processField. destruct c.
  destruct f, g; try done; simpl;
    repeat case_match; intros; simplify_eq; done.
Qed.

Lemma processField_failed w text f c c' err :
  processField w text f c = Failed err -> processField w text f c' = Failed err.
Proof.
  unfold processField. destruct (field_kind f); [done| |];
    repeat case_match; intros; simplify_eq; done.
Qed.

Lemma processField_ok w text f c c1 c' :
  processField w text f c = Ok c1 -> exists c1', processField w text f c' = Ok c1'.
Proof.
  unfold processField. destruct (field_kind f); [eauto| |];
    repeat case_match; intros; simplify_eq; eauto.
Qed.

Lemma process_fields_assigns w prefix fs c0 c :
  List.NoDup fs -> process_fields w prefix fs c0 = (c, None) ->
  (forall f, In f fs ->
     exists text, field_value w prefix f = Some text /\
                  processField w text f c = Ok c) /\
  (forall f text, ~ In f fs -> processField w text f c0 = Ok c0 ->
                  processField w text f c = Ok c).
Proof.
  intros Hnd. revert c0. induction Hnd as [|g rest Hg Hnd IH]; intros c0.
  - simpl. intros [= ->]. split; [done|auto].
  - cbn [process_fields].
    destruct (field_value_some w prefix g) as [text Htext]. rewrite Htext.
    destruct (processField w text g c0) as [c1|err] eqn:Hp; [|done].
    intros Hrest. destruct (IH _ Hrest) as [Hin Hout]. split.
    + intros f [<-|Hf]; [|by apply Hin].
      exists text. split; [done|]. apply Hout; [done|].
      by eapply processField_idem.
    + intros f t Hf Hc0. apply Hout; [intros ?; apply Hf; by right|].
      eapply processField_other; eauto. intros ->. apply Hf. by left.
Qed.

(** X10 (every field is assigned).  When [envconfig.Process] returns
    without error, every field of the record it returns holds what its
    decoder makes of the text of the field, which is the value of its
    variable when the variable is set, even to the empty text, and the
    default tag otherwise: assigning the field once more from that text
    changes nothing. *)
Theorem Process_assigns_every_field w prefix spec c :
  Process w prefix spec = (c, None) ->
  forall f, exists text,
    field_value w prefix f = Some text /\
    (forall v, environ w !! envconfig_key w prefix (field_name f)
                 (tag_split_words f) = Some v -> text = v) /\
    (environ w !! envconfig_key w prefix (field_name f) (tag_split_words f)
     = None -> text = tag_default f) /\
    processField w text f c = Ok c.
Proof.
  intros Hp f.
  destruct (process_fields_assigns w prefix _ _ _ Config_fields_NoDup Hp)
    as [Hin _].
  destruct (Hin f (Config_fields_all f)) as (text & Htext & Hok).
  exists text. split; [done|]. split; [|split; [|done]].
  - intros v Hv. unfold field_value in Htext. rewrite Hv in Htext. congruence.
  - intros Hv. unfold field_value in Htext. rewrite Hv in Htext.
    case_decide; congruence.
Qed.

Lemma process_fields_error_same w prefix fs c1 c2 :
  snd (process_fields w prefix fs c1) = snd (process_fields w prefix fs c2).
Proof.
  revert c1 c2. induction fs as [|f fs IH]; intros c1 c2; [done|].
  cbn [process_fields]. destruct (field_value w prefix f) as [text|].
  - destruct (processField w text f c1) as [c1'|err] eqn:H1.
    + destruct (processField_ok _ _ _ _ _ c2 H1) as [c2' H2]. rewrite H2.
      apply IH.
    + by rewrite (processField_failed _ _ _ _ c2 _ H1).
  - unfold tag_required. apply IH.
Qed.

Lemma assigned_determines w (text : Field -> string) c1 c2 :
  (forall f, processField w (text f) f c1 = Ok c1) ->
  (forall f, processField w (text f) f c2 = Ok c2) ->
  c1 = c2.
Proof.
  intros H1 H2. destruct c1, c2.
  pose proof (H1 FName) as A1. pose proof (H2 FName) as B1.
  pose proof (H1 FNSName) as A2. pose proof (H2 FNSName) as B2.
  pose proof (H1 FConnectTo) as A3. pose proof (H2 FConnectTo) as B3.
  pose proof (H1 FMaxTokenLifetime) as A4. pose proof (H2 FMaxTokenLifetime) as B4.
  pose proof (H1 FResourcePollTimeout) as A5.
  pose proof (H2 FResourcePollTimeout) as B5.
  pose proof (H1 FDevicePluginPath) as A6. pose proof (H2 FDevicePluginPath) as B6.
  pose proof (H1 FPodResourcesPath) as A7. pose proof (H2 FPodResourcesPath) as B7.
  pose proof (H1 FSRIOVConfigFile) as A8. pose proof (H2 FSRIOVConfigFile) as B8.
  pose proof (H1 FPCIDevicesPath) as A9. pose proof (H2 FPCIDevicesPath) as B9.
  pose proof (H1 FPCIDriversPath) as A10. pose proof (H2 FPCIDriversPath) as B10.
  pose proof (H1 FCgroupPath) as A11. pose proof (H2 FCgroupPath) as B11.
  pose proof (H1 FVFIOPath) as A12. pose proof (H2 FVFIOPath) as B12.
  clear H1 H2. unfold processField in *. simpl in *.
  repeat case_match; simplify_eq. reflexivity.
Qed.

(** X11 (the record given to [Process] does not matter).  Every field of
    [Config] has a default, so what [envconfig.Process] returns does not
    depend on the record it is given to fill: it fails on the one exactly
    when it fails on the other, with the same error, and when it succeeds
    the two results are the same record. *)
Theorem Process_overwrites_spec w prefix spec1 spec2 :
  snd (Process w prefix spec1) = snd (Process w prefix spec2) /\
  (snd (Process w prefix spec1) = None ->
   fst (Process w prefix spec1) = fst (Process w prefix spec2)).
Proof.
  split; [apply process_fields_error_same|]. intros Hnone.
  assert (Hnone2 : snd (Process w prefix spec2) = None).
  { unfold Process in *.
    by rewrite (process_fields_error_same w prefix Config_fields spec2 spec1). }
  destruct (Process w prefix spec1) as [c1 e1] eqn:H1.
  destruct (Process w prefix spec2) as [c2 e2] eqn:H2.
  simpl in *. subst e1 e2.
  destruct (process_fields_assigns w prefix _ _ _ Config_fields_NoDup H1)
    as [Hin1 _].
  destruct (process_fields_assigns w prefix _ _ _ Config_fields_NoDup H2)
    as [Hin2 _].
  apply (assigned_determines w
           (fun f => default "" (field_value w prefix f))).
  - intros f. destruct (Hin1 f (Config_fields_all f)) as (t & -> & Hok). done.
  - intros f. destruct (Hin2 f (Config_fields_all f)) as (t & -> & Hok). done.
Qed.

End Fields.

Section Live.
Context {SriovConfig : Type}.
Implicit Types (w : @World SriovConfig) (st : @State SriovConfig).

Ltac sym_step :=
  rewrite run_from_cons;
  match goal with
  | |- context [run_from ?w (step ?w ?x ?st) ?rest] =>
      let st' := eval cbv -[Process zero_Config Time_Sub Time_Add] in (step w x st) in
      replace (step w x st) with st' by reflexivity
  end.

Ltac sym_process H :=
  rewrite run_from_cons;
  erewrite step_vis;
    [ | reflexivity | reflexivity | reflexivity
      | cbn [exec]; rewrite H; reflexivity ].

Lemma run_app w s1 s2 : run w (s1 ++ s2) = run_from w (run w s1) s2.
Proof. unfold run, run_from. by rewrite fold_left_app. Qed.

Lemma startup_state w config tmpDir :
  all_succeed w config tmpDir ->
  exists n tr k store,
    run w (main_steps n) = running_state w tr k store tmpDir /\
    phase_of (main_events tr) = 9%nat /\
    completes (List.last (main_events tr) EvSignal) = true /\
    find_ev sel_loaded (main_events tr) = Some config.
Proof.
  intros (Husage & Hproc & (c & Hread & Hupd & (pciPool & Hpci) & Hstart)
          & (source & svid & Hsrc & Hsvid) & Htmp & (cc & Hdial)
          & (expireTime & Hstamp & Hreg)).
  destruct config as [cName cNS cConnect cLife cPoll cDPP cPRP cFile cDevs
                        cDrvs cCg cVfio].
  cbv [SRIOVConfigFile PCIDevicesPath PCIDriversPath VFIOPath
       ResourcePollTimeout ConnectTo DevicePluginPath PodResourcesPath
       MaxTokenLifetime record_of unix_URL Name NSName] in *.
  destruct (w_UpdateConfig w cDevs cDrvs c) as [c' e] eqn:Hu.
  cbn [fst snd] in Hupd, Hpci, Hstart. subst e.
  destruct (w_debug_Self w) as [err|] eqn:Hself;
    [exists 63%nat|exists 62%nat];
    destruct w as [env clk key pd up pj utt tsp ij cl ds us rc uc tnp pnp rnp
                     nm ss nx gs sn td ra gn dc nrc rg];
    unfold running_state;
    cbv [w_Usage w_debug_Self w_ReadConfig w_UpdateConfig w_pci_NewPool
         w_StartServers w_NewX509Source w_GetX509SVID w_TempDir w_DialContext
         w_URLToTarget w_TimestampProto w_Register w_InitJaeger
         w_token_NewPool w_NewManager w_path_Join clock] in *;
    subst;
    unfold run, main_steps; cbn [replicate]; unfold init.
  - do 19 sym_step. sym_process Hproc.
    repeat (sym_step;
            rewrite ?Hread, ?Hu, ?Hpci, ?Hstart, ?Hsrc, ?Hsvid, ?Htmp, ?Hdial,
              ?Hstamp, ?Hreg).
    unfold run_from. cbn [fold_left]. do 3 eexists. split; [reflexivity|].
    cbv -[Time_Sub Time_Add Process]. done.
  - do 18 sym_step. sym_process Hproc.
    repeat (sym_step;
            rewrite ?Hread, ?Hu, ?Hpci, ?Hstart, ?Hsrc, ?Hsvid, ?Htmp, ?Hdial,
              ?Hstamp, ?Hreg).
    unfold run_from. cbn [fold_left]. do 3 eexists. split; [reflexivity|].
    cbv -[Time_Sub Time_Add Process]. done.
Qed.

Ltac sym_step' :=
  rewrite run_from_cons;
  match goal with
  | |- context [run_from ?w (step ?w ?x ?st) ?rest] =>
      let st' := eval cbv -[Process zero_Config Time_Sub Time_Add remove_dir app]
                 in (step w x st) in
      replace (step w x st) with st' by reflexivity
  end.

Lemma remove_dir_self dir : remove_dir dir [dir] = [].
Proof. unfold remove_dir. rewrite filter_cons_False; [done|]. by intros H. Qed.

(** X12 (start-up completes).  In a world in which the calls [main] makes
    during start-up succeed, [main] run on its own goes through the eight phases
    and completes start-up with the configuration [envconfig.Process]
    returned: the process has not ended, the directory exists, the watcher
    has been started, and [main] waits: further steps of [main] change
    nothing. *)
Theorem startup_completes w config tmpDir :
  all_succeed w config tmpDir ->
  exists n,
    let st := run w (main_steps n) in
    exited st = None /\
    phase_of (main_events (trace st)) = 9%nat /\
    completes (List.last (main_events (trace st)) EvSignal) = true /\
    find_ev sel_loaded (main_events (trace st)) = Some config /\
    tmpdirs st = [tmpDir] /\
    length (threads st) = 2%nat /\
    forall k, run w (main_steps n ++ main_steps k) = st.
Proof.
  intros Hall.
  destruct (startup_state w config tmpDir Hall)
    as (n & tr & k & store & Hrun & Hph & Hlast & Hl).
  exists n. cbv zeta. repeat split; try (rewrite Hrun; done).
  intros j. eapply (main_blocked w (main_steps n));
    [rewrite Hrun; reflexivity | reflexivity | rewrite Hrun; reflexivity].
Qed.

(** X13 (a signal after start-up).  In a world in which the calls [main] makes
    during start-up succeed, a signal that arrives when start-up has completed
    lets [main] return: within six steps of [main] the wait ends, the
    directory is removed, the tracer is closed and the process ends with
    status 0, whatever [os.RemoveAll] and [Close] return. *)
Theorem signal_shuts_down w config tmpDir :
  all_succeed w config tmpDir ->
  exists n,
    let st0 := run w (main_steps n) in
    let st := run w (main_steps n ++ [Signal] ++ main_steps 6) in
    let closer := w_InitJaeger w "cmd-forwarder-sriov" in
    exited st0 = None /\
    exited st = Some 0 /\
    trace st
    = trace st0
      ++ [EvSignal; EvOp 0 ctx_Done tt;
          EvOp 0 (os_RemoveAll tmpDir) (w_RemoveAll w tmpDir);
          EvOp 0 (io_Close closer) (w_Close w closer); EvExit 0] /\
    tmpdirs st = match w_RemoveAll w tmpDir with
                 | None => []
                 | Some _ => [tmpDir]
                 end.
Proof.
  intros Hall.
  destruct (startup_state w config tmpDir Hall)
    as (n & tr & k & store & Hrun & _).
  exists n. cbv zeta. rewrite run_app, Hrun. clear Hrun Hall.
  split; [done|].
  destruct (w_RemoveAll w tmpDir) as [e|] eqn:Hra;
    destruct w as [env clk key pd up pj utt tsp ij cl ds us rc uc tnp pnp rnp
                     nm ss nx gs sn td ra gn dc nrc rg];
    unfold running_state, main_steps;
    cbv [w_RemoveAll w_InitJaeger w_Close] in *;
    cbn [replicate app];
    repeat (sym_step'; rewrite ?Hra);
    unfold run_from; cbn [fold_left trace exited tmpdirs];
    rewrite <- ?app_assoc; cbn [app]; rewrite ?remove_dir_self; done.
Qed.

(** X14 (a failure of the transport server after start-up).  In a world in
    which the calls [main] makes during start-up succeed, when the
    transport server
    sends an error, or nil, on its channel after start-up has completed, or
    closes the channel, the watcher receives it (nil from the closed
    channel), logs it at error level and cancels the context; [main] then
    returns as after a signal, and the process ends with status 0, not with
    a failure status. *)
Theorem late_transport_failure_shuts_down w config tmpDir :
  all_succeed w config tmpDir ->
  exists n,
    let st0 := run w (main_steps n) in
    let closer := w_InitJaeger w "cmd-forwarder-sriov" in
    let shutdown :=
      [EvOp 0 ctx_Done tt;
       EvOp 0 (os_RemoveAll tmpDir) (w_RemoveAll w tmpDir);
       EvOp 0 (io_Close closer) (w_Close w closer); EvExit 0] in
    exited st0 = None /\
    (forall v,
       let st := run w (main_steps n ++ [TransportSend 0%nat v]
                          ++ replicate 3 (Run 1%nat) ++ main_steps 6) in
       exited st = Some 0 /\
       trace st
       = trace st0
         ++ [EvSend 0%nat v; EvOp 1 (chan_recv 0%nat) v;
             EvOp 1 (Error [AErr v]) tt; EvOp 1 ctx_cancel tt] ++ shutdown) /\
    (let st := run w (main_steps n ++ [TransportClose 0%nat]
                        ++ replicate 3 (Run 1%nat) ++ main_steps 6) in
     exited st = Some 0 /\
     trace st
     = trace st0
       ++ [EvClose 0%nat; EvOp 1 (chan_recv 0%nat) None;
           EvOp 1 (Error [AErr None]) tt; EvOp 1 ctx_cancel tt] ++ shutdown).
Proof.
  intros Hall.
  destruct (startup_state w config tmpDir Hall)
    as (n & tr & k & store & Hrun & _).
  exists n. cbv zeta. split; [by rewrite Hrun|].
  destruct (w_RemoveAll w tmpDir) as [e|] eqn:Hra;
    (split; [intros v|]);
    rewrite run_app, Hrun; clear Hrun Hall;
    destruct w as [env clk key pd up pj utt tsp ij cl ds us rc uc tnp pnp rnp
                     nm ss nx gs sn td ra gn dc nrc rg];
    unfold running_state, main_steps;
    cbv [w_RemoveAll w_InitJaeger w_Close] in *;
    cbn [replicate app];
    repeat (sym_step'; rewrite ?Hra);
    unfold run_from; cbn [fold_left trace exited];
    rewrite <- ?app_assoc; cbn [app]; done.
Qed.

End Live.

Lemma world_ok_succeeds :
  all_succeed world_ok default_Config "/tmp/sriov-forwarder123".
Proof.
  split; [reflexivity|]. split; [by vm_compute|].
  split.
  { exists "pfs". split; [reflexivity|]. split; [reflexivity|].
    split; [by eexists|reflexivity]. }
  split; [by do 2 eexists|]. split; [reflexivity|].
  split; [by eexists|]. eexists. split; reflexivity.
Qed.

Lemma exit_zero_after_cleanup_witness :
  let st := run world_ok sched_signal in
  exited st = Some 0 /\ tmpdirs st = [] /\ ctx_done st = true.
Proof.
  split; [vm_compute; reflexivity|].
  destruct (exit_zero_after_cleanup world_ok sched_signal)
    as (pre & tmpDir & closer & r1 & r2 & _ & _ & _ & Hdone & Hdirs);
    [vm_compute; reflexivity|].
  split; [exact Hdirs|exact Hdone].
Defined.

Lemma exit_one_has_cause_witness :
  let st := run world_no_file (main_steps 24) in
  exited st = Some 1 /\
  exists pre ev v,
    main_events (trace st) = pre ++ [ev; EvFatal 0 (fatal_message ev v)] /\
    failure ev = Some v /\ in_startup (phase_of pre) = true.
Proof.
  split; [vm_compute; reflexivity|].
  apply (exit_one_has_cause world_no_file (main_steps 24)).
  vm_compute; reflexivity.
Defined.

Lemma failure_logged_as_worded_witness :
  let st := run world_no_file (main_steps 23) in
  let ev := EvOp 0 (sriovconfig_ReadConfig "pci.config")
              (Failed "open pci.config: no such file") in
  trace (run world_no_file (main_steps 23 ++ [Run 0%nat]))
  = trace st
    ++ [EvFatal 0 (Msgf "failed to get PCI resources config: %+v"
                     [AErr (Some "open pci.config: no such file")])].
Proof.
  refine (proj2 (failure_logged_as_worded world_no_file (main_steps 23)
                   (removelast (main_events (trace (run world_no_file (main_steps 23)))))
                   (EvOp 0 (sriovconfig_ReadConfig "pci.config")
                      (Failed "open pci.config: no such file"))
                   [] (Some "open pci.config: no such file") _ _ _) _);
    vm_compute; reflexivity.
Defined.

Lemma phases_announced_in_order_witness :
  let acc := main_events (trace (run world_ok (main_steps 62))) in
  info_format (nth 21 acc EvSignal)
  = nth_error phase_formats (phase_of (firstn 21 acc)) /\
  nth_error phase_formats (phase_of (firstn 21 acc))
  = Some "executing phase 2: get SR-IOV config from file (time since start: %s)".
Proof.
  split; [|vm_compute; reflexivity].
  refine (proj1 (phases_announced_in_order world_ok (main_steps 62)
                   (firstn 21 (main_events (trace (run world_ok (main_steps 62)))))
                   (nth 21 (main_events (trace (run world_ok (main_steps 62)))) EvSignal)
                   (skipn 22 (main_events (trace (run world_ok (main_steps 62)))))
                   _ _) _);
    vm_compute; reflexivity.
Defined.

Lemma debug_error_is_logged_witness :
  let st := run world_debugged (main_steps 3) in
  exited (run world_debugged (main_steps 3 ++ [Run 0%nat])) = None /\
  trace (run world_debugged (main_steps 3 ++ [Run 0%nat]))
  = trace st ++ [EvOp 0 (Infof "%s" [AErr (Some "dlv: executable not found")]) tt].
Proof.
  refine (proj2 (debug_error_is_logged world_debugged (main_steps 3)
                   (removelast (main_events (trace (run world_debugged (main_steps 3)))))
                   (EvOp 0 debug_Self (Some "dlv: executable not found"))
                   [] "dlv: executable not found" _ _));
    vm_compute; reflexivity.
Defined.

Lemma pools_and_device_plugin_wiring_witness :
  let acc := main_events (trace (run world_ok (main_steps 62))) in
  exists ev config sriovConfig tokenPool manager err,
    In ev acc /\
    Process world_ok "nsm" zero_Config = (config, None) /\
    In (EvOp 0 (sriovconfig_ReadConfig (SRIOVConfigFile config))
          (Ok sriovConfig)) acc /\
    In (EvOp 0 (token_NewPool sriovConfig) tokenPool) acc /\
    In (EvOp 0 (k8s_NewManager (DevicePluginPath config)
                  (PodResourcesPath config)) manager) acc /\
    ev = EvOp 0 (deviceplugin_StartServers tokenPool
                   (ResourcePollTimeout config) manager) err.
Proof.
  pose (acc := main_events (trace (run world_ok (main_steps 62)))).
  assert (Hin : In (nth 32 acc EvSignal) acc) by (apply nth_In; vm_compute; lia).
  destruct (proj2 (proj2 (proj2 (pools_and_device_plugin_wiring world_ok
                                   (main_steps 62))
                            (nth 32 acc EvSignal) Hin)))
    as (config & ptr & tp & mgr & err & H); [vm_compute; reflexivity|].
  exists (nth 32 acc EvSignal), config, ptr, tp, mgr, err.
  split; [exact Hin|exact H].
Defined.

Lemma endpoint_and_server_wiring_witness :
  let acc := main_events (trace (run world_ok (main_steps 62))) in
  exists ev source endpoint server u ch,
    In ev acc /\
    In (EvOp 0 (grpc_NewServer source) server) acc /\
    In (EvOp 0 (Endpoint_Register endpoint server) tt) acc /\
    ev = EvOp 0 (grpcutils_ListenAndServe u server) ch.
Proof.
  pose (acc := main_events (trace (run world_ok (main_steps 62)))).
  assert (Hin : In (nth 48 acc EvSignal) acc) by (apply nth_In; vm_compute; lia).
  destruct (proj2 (endpoint_and_server_wiring world_ok (main_steps 62)
                     (nth 48 acc EvSignal) Hin))
    as (source & ep & server & u & ch & made & _ & Hn & Hr & _ & _ & _ & Hev);
    [vm_compute; reflexivity|].
  exists (nth 48 acc EvSignal), source, ep, server, u, ch.
  split; [exact Hin|]. split; [exact Hn|]. split; [exact Hr|exact Hev].
Defined.

Lemma registry_wiring_witness :
  let acc := main_events (trace (run world_ok (main_steps 62))) in
  exists ev source,
    In ev acc /\
    ev = EvOp 0 (grpc_DialContext "unix:///connect.to.socket" source) (Ok 8%nat).
Proof.
  pose (acc := main_events (trace (run world_ok (main_steps 62)))).
  assert (Hin : In (nth 54 acc EvSignal) acc) by (apply nth_In; vm_compute; lia).
  destruct (proj1 (proj2 (registry_wiring world_ok (main_steps 62))
                     (nth 54 acc EvSignal) Hin))
    as (config & source & dialed & Hp & _ & Hd & Hev); [vm_compute; reflexivity|].
  exists (nth 54 acc EvSignal), source. split; [exact Hin|].
  rewrite Hev, Hd. vm_compute in Hp. injection Hp as <-. reflexivity.
Defined.

Lemma watcher_does_three_things_witness :
  exists ch v n,
    events_of 1 (trace (run world_ok sched_late_failure))
    = firstn n [EvOp 1 (chan_recv ch) v; EvOp 1 (Error [AErr v]) tt;
                EvOp 1 ctx_cancel tt].
Proof. apply (watcher_does_three_things world_ok sched_late_failure 1). lia. Defined.

Lemma Process_assigns_every_field_witness :
  exists c text,
    Process world_named "nsm" zero_Config = (c, None) /\
    field_value world_named "nsm" FNSName = Some text /\
    text = "my-service" /\
    processField world_named text FNSName c = Ok c /\
    NSName c = "my-service".
Proof.
  pose (c := fst (Process world_named "nsm" zero_Config)).
  assert (Hp : Process world_named "nsm" zero_Config = (c, None))
    by (vm_compute; reflexivity).
  destruct (Process_assigns_every_field world_named "nsm" zero_Config c Hp FNSName)
    as (text & Ht & Hset & _ & Hok).
  exists c, text. split; [done|]. split; [done|].
  split; [apply Hset; vm_compute; reflexivity|]. split; [done|].
  vm_compute; reflexivity.
Defined.

Lemma startup_completes_witness :
  exists n,
    let st := run world_ok (main_steps n) in
    exited st = None /\
    phase_of (main_events (trace st)) = 9%nat /\
    completes (List.last (main_events (trace st)) EvSignal) = true /\
    find_ev sel_loaded (main_events (trace st)) = Some default_Config /\
    tmpdirs st = ["/tmp/sriov-forwarder123"] /\
    length (threads st) = 2%nat /\
    forall k, run world_ok (main_steps n ++ main_steps k) = st.
Proof. exact (startup_completes world_ok _ _ world_ok_succeeds). Defined.

Lemma signal_shuts_down_witness :
  exists n,
    exited (run world_ok (main_steps n)) = None /\
    exited (run world_ok (main_steps n ++ [Signal] ++ main_steps 6)) = Some 0 /\
    tmpdirs (run world_ok (main_steps n ++ [Signal] ++ main_steps 6)) = [].
Proof.
  destruct (signal_shuts_down world_ok _ _ world_ok_succeeds)
    as (n & H0 & H1 & _ & H2).
  by exists n.
Defined.

Lemma late_transport_failure_shuts_down_witness :
  exists n,
    exited (run world_ok (main_steps n)) = None /\
    exited (run world_ok
              (main_steps n
                 ++ [TransportSend 0%nat (Some "accept: use of closed network connection")]
                 ++ replicate 3 (Run 1%nat) ++ main_steps 6)) = Some 0.
Proof.
  destruct (late_transport_failure_shuts_down world_ok _ _ world_ok_succeeds)
    as (n & H0 & Hsend & _).
  exists n. split; [done|]. apply Hsend.
Defined.
